(** * BlackKittenProxy: a shallow embedding of the proxy core

    The development follows the Python sources module by module:
    [rules.py] (RuleEngine), [blacklist.py] (the three blacklist managers),
    [dns_cache.py] (DNSCache), [stats.py] (Statistics) and
    [connection.py] (ConnectionHandler, with the TLS fragmenter).

    Conventions.
    - Python [bytes] are [list byte]; Python [str] is [string] (sequences of
      8-bit characters; [lower] acts on the ASCII letters only).
    - Indices and lengths are [nat]; the [-1] of [find] is [None].
    - Python sets are [gset], dictionaries are [gmap] unless their iteration
      order is observed (the DNS cache), in which case they are association
      lists in insertion order.
    - A call that may raise returns a [result]; loops whose termination is
      not structural take fuel and report [OutOfFuel] when it runs out. *)

From stdpp Require Import gmap strings list fin_maps.
From Stdlib Require Import Strings.Byte Strings.Ascii ZArith Lia.
From Stdlib Require Import Numbers.DecimalString.
From Stdlib Require Numbers.DecimalZ Numbers.DecimalPos Numbers.DecimalNat.

Open Scope Z_scope.
Open Scope nat_scope.

(* ===================================================================== *)
(** ** Results of calls that may raise *)
(* ===================================================================== *)

Inductive exn : Set :=
  | OverflowError      (* int.to_bytes: int too big to convert *)
  | ValueError         (* random.randrange: empty range *)
  | StopIteration      (* next(iter(d)) on an empty dict *)
  | OSError            (* socket level failure, timeouts included *)
  | UnicodeDecodeError.

Inductive result (A : Type) : Type :=
  | Ok (a : A)
  | Raise (e : exn)
  | OutOfFuel.
Arguments Ok {A} a.
Arguments Raise {A} e.
Arguments OutOfFuel {A}.

Definition rbind {A B : Type} (m : result A) (k : A -> result B) : result B :=
  match m with
  | Ok a => k a
  | Raise e => Raise e
  | OutOfFuel => OutOfFuel
  end.

Notation "'let*' p := m 'in' k" := (rbind m (fun p => k))
  (at level 10, p pattern, m at level 100, k at level 200).

(* ===================================================================== *)
(** ** Python sequence primitives *)
(* ===================================================================== *)

Section Sequences.
Context {A : Type} `{EqDecision A}.

(** [l.startswith(p)] *)
Fixpoint starts_with (p l : list A) : bool :=
  match p, l with
  | [], _ => true
  | a :: p', b :: l' => if decide (a = b) then starts_with p' l' else false
  | _ :: _, [] => false
  end.

(** The scan of [l.find(sub, i)] once the first [i] items are dropped. *)
Fixpoint find_at (sub l : list A) (i : nat) : option nat :=
  if starts_with sub l then Some i
  else match l with
       | [] => None
       | _ :: l' => find_at sub l' (S i)
       end.

(** [l.find(sub, start)], [None] for [-1]. *)
Definition find_from (sub l : list A) (start : nat) : option nat :=
  find_at sub (drop start l) start.

(** [l[a:b]] for non-negative [a] and [b]; out-of-range bounds clip. *)
Definition slice (a b : nat) (l : list A) : list A :=
  take (b - a) (drop a l).

(** [l.endswith(s)] *)
Definition ends_with (s l : list A) : bool :=
  bool_decide (drop (length l - length s) l = s).

(** [l.replace(old, new)] for a non-empty [old]: occurrences are replaced
    left to right and do not overlap. [skip] counts the items of the
    occurrence just replaced that are still to be passed over. *)
Fixpoint replace_go (old new : list A) (skip : nat) (l : list A) : list A :=
  match l with
  | [] => []
  | a :: l' =>
      match skip with
      | S k => replace_go old new k l'
      | 0 => if starts_with old l
             then new ++ replace_go old new (length old - 1) l'
             else a :: replace_go old new 0 l'
      end
  end.

Definition replace_all (old new l : list A) : list A :=
  replace_go old new 0 l.

(** [l.split(sep)] for a one-item separator; never returns the empty list. *)
Fixpoint split_on (sep : A) (l : list A) : list (list A) :=
  match l with
  | [] => [[]]
  | a :: l' =>
      if decide (a = sep) then [] :: split_on sep l'
      else match split_on sep l' with
           | [] => [[a]]
           | w :: ws => (a :: w) :: ws
           end
  end.

(** [sep.join(parts)] *)
Fixpoint join (sep : list A) (parts : list (list A)) : list A :=
  match parts with
  | [] => []
  | [p] => p
  | p :: ps => p ++ sep ++ join sep ps
  end.
End Sequences.

(* ===================================================================== *)
(** ** bytes *)
(* ===================================================================== *)

Abbreviation bytes := (list byte).

#[global] Instance byte_eq_decision : EqDecision byte :=
  fun x y =>
    match Byte.eqb x y as b return Byte.eqb x y = b -> Decision (x = y) with
    | true => fun H => left (byte_dec_bl x y H)
    | false => fun H => right (eqb_false H)
    end eq_refl.

Definition byte_of_nat (n : nat) : byte :=
  default x00 (Byte.of_N (N.of_nat n)).

Definition nat_of_byte (b : byte) : nat := N.to_nat (Byte.to_N b).

(** [n.to_bytes(2, "big")]; raises OverflowError from 65536 on. *)
Definition to_bytes2 (n : nat) : result bytes :=
  if decide (Z.of_nat n < 65536)%Z
  then Ok [byte_of_nat (n / 256); byte_of_nat (n mod 256)]
  else Raise OverflowError.

(** [int.from_bytes(b, "big")] *)
Definition int_from_bytes (b : bytes) : Z :=
  fold_left (fun acc x => (acc * 256 + Z.of_nat (nat_of_byte x))%Z) b 0%Z.

(* ===================================================================== *)
(** ** The random source *)
(* ===================================================================== *)

(** [random.randrange] draws from hidden global state. The state is the
    stream of raw draws still to come; [randrange a b] consumes one draw and
    maps it into [a, b). Every sequence of in-range answers arises from some
    stream. *)
Definition RNG : Type := nat -> nat.

Definition randrange (g : RNG) (a b : nat) : result (nat * RNG) :=
  if decide (a < b)
  then Ok (a + g 0 mod (b - a), fun i => g (S i))
  else Raise ValueError.

(* ===================================================================== *)
(** ** connection.py: the TLS fragmenter *)
(* ===================================================================== *)

(** [bytes.fromhex("160304")] *)
Definition hdr : bytes := [x16; x03; x04].

(** [hdr + n.to_bytes(2, "big") + payload] *)
Definition record (n : nat) (payload : bytes) : result bytes :=
  let* len := to_bytes2 n in
  Ok (hdr ++ len ++ payload).

(** The [while] loop of [_extract_sni_position]; [pos] is the current
    candidate ([None] for [-1]). Nothing inside the loop's [try] can raise:
    [int.from_bytes] accepts every slice. *)
Fixpoint sni_scan (fuel : nat) (data : bytes) (pos : option nat)
  : result (option (nat * nat)) :=
  match pos with
  | None => Ok None
  | Some p =>
      if decide (p + 9 <= length data) then
        match fuel with
        | 0 => OutOfFuel
        | S fuel' =>
            let ext_len := int_from_bytes (slice (p + 2) (p + 4) data) in
            let list_len := int_from_bytes (slice (p + 4) (p + 6) data) in
            let name_len := int_from_bytes (slice (p + 7) (p + 9) data) in
            if decide ((ext_len - list_len = 2)%Z /\ (list_len - name_len = 3)%Z)
            then let sni_start := p + 9 in
                 Ok (Some (sni_start, sni_start + Z.to_nat name_len))
            else sni_scan fuel' data (find_from [x00; x00] data (p + 1))
        end
      else Ok None
  end.

Definition _extract_sni_position (data : bytes) : result (option (nat * nat)) :=
  sni_scan (length data) data (find_from [x00; x00] data 0).

(** [while idx < len(data)] of the split methods. *)
Fixpoint split_loop (fuel : nat) (data : bytes) (idx : nat) (parts : list bytes)
  : result (list bytes) :=
  if decide (idx < length data) then
    match fuel with
    | 0 => OutOfFuel
    | S fuel' =>
        let chunk_size := 32 in
        let n := min chunk_size (length data - idx) in
        let* r := record n (slice idx (idx + n) data) in
        split_loop fuel' data (idx + n) (parts ++ [r])
    end
  else Ok parts.

(** [while data] of the random method; returns the parts, what is left of
    [data] and the random source. *)
Fixpoint random_loop (fuel : nat) (g : RNG) (data : bytes) (parts : list bytes)
  : result (list bytes * bytes * RNG) :=
  match data with
  | [] => Ok (parts, data, g)
  | _ :: _ =>
      match fuel with
      | 0 => OutOfFuel
      | S fuel' =>
          let* (n, g') := randrange g 1 (length data + 1) in
          let* r := record n (take n data) in
          random_loop fuel' g' (drop n data) (parts ++ [r])
      end
  end.

(** [method = rule_method or self.config.fragment_method], then the upgrade
    of "random" to "sni" after two failures on the domain. *)
Definition choose_method (rule_method : option string) (fragment_method : string)
    (failures : nat) : string :=
  let method := match rule_method with
                | Some m => if decide (m = "") then fragment_method else m
                | None => fragment_method
                end in
  if decide (2 <= failures /\ method = "random") then "sni" else method.

(** Lines 236-276 of [_handle_initial_tls_data]: from [method] and [data]
    to the list [parts], the final values of the variables [data] and
    [method], and the random source. *)
Definition fragment (method : string) (g : RNG) (data : bytes)
  : result (list bytes * bytes * string * RNG) :=
  let* (parts, method) :=
    (if decide (method = "sni") then
       let* sni_pos := _extract_sni_position data in
       match sni_pos with
       | Some (s, e) =>
           let pre := take s data in
           let sni := slice s e data in
           let post := drop e data in
           let mid := (length sni + 1) / 2 in
           let* r1 := record (length pre) pre in
           let* r2 := record (length (take mid sni)) (take mid sni) in
           let* r3 := record (length (drop mid sni)) (drop mid sni) in
           let* r4 := record (length post) post in
           Ok ([r1; r2; r3; r4], method)
       | None => Ok ([], "split")
       end
     else Ok ([], method)) in
  let* parts :=
    (if decide (method = "split" \/ method = "split-jitter")
     then split_loop (length data) data 0 parts
     else Ok parts) in
  if decide (method = "sni" \/ method = "split" \/ method = "split-jitter")
  then Ok (parts, data, method, g)
  else
    let host_end := find_from [x00] data 0 in
    let* (parts, data) :=
      match host_end with
      | Some h =>
          let chunk := take (h + 1) data in
          let* r := record (h + 1) chunk in
          Ok (parts ++ [r], drop (h + 1) data)
      | None => Ok (parts, data)
      end in
    let* (parts, data, g) := random_loop (length data) g data parts in
    Ok (parts, data, method, g).

(** What [_handle_initial_tls_data] hands to [writer.write] after
    fragmenting, one item per call (lines 278-297). *)
Definition tls_writes (method : string) (parts : list bytes) (head data : bytes)
  : list bytes :=
  match parts with
  | [] => [head ++ data]
  | _ :: _ => if decide (method = "split-jitter") then parts else [concat parts]
  end.

(* ===================================================================== *)
(** ** str *)
(* ===================================================================== *)

Module Str.
Definition chars (s : string) : list ascii := String.list_ascii_of_string s.
Definition of_chars (l : list ascii) : string := String.string_of_list_ascii l.

Definition lower_char (c : ascii) : ascii :=
  let n := nat_of_ascii c in
  if (65 <=? n) && (n <=? 90) then ascii_of_nat (n + 32) else c.

(** [s.lower()] *)
Definition lower (s : string) : string := of_chars (lower_char <$> chars s).

(** [s.startswith(p)] *)
Definition startswith (s p : string) : bool := starts_with (chars p) (chars s).

(** [s.endswith(suf)] *)
Definition endswith (s suf : string) : bool := ends_with (chars suf) (chars s).

(** [s[i:]] *)
Definition from (i : nat) (s : string) : string := of_chars (drop i (chars s)).

(** [s.replace(old, new)] *)
Definition replace (s old new : string) : string :=
  of_chars (replace_all (chars old) (chars new) (chars s)).

(** [s.split(sep)] for a one-character [sep] *)
Definition split (s : string) (sep : ascii) : list string :=
  of_chars <$> split_on sep (chars s).

(** [sep.join(parts)] *)
Definition join (sep : string) (parts : list string) : string :=
  of_chars (join (chars sep) (chars <$> parts)).

(** [sub in s] *)
Definition contains (sub s : string) : bool :=
  bool_decide (is_Some (find_from (chars sub) (chars s) 0)).

(** The characters [str.strip()] removes, within the 8-bit range. *)
Definition is_space (c : ascii) : bool :=
  let n := nat_of_ascii c in
  ((9 <=? n) && (n <=? 13)) || ((28 <=? n) && (n <=? 32)).

Fixpoint lstrip_chars (l : list ascii) : list ascii :=
  match l with
  | c :: l' => if is_space c then lstrip_chars l' else l
  | [] => []
  end.

(** [s.strip()] *)
Definition strip (s : string) : string :=
  of_chars (reverse (lstrip_chars (reverse (lstrip_chars (chars s))))).

(** [f"{n}"] for a non-negative int *)
Definition of_nat (n : nat) : string := NilZero.string_of_uint (Nat.to_uint n).

(** [f"{z}"] for an int *)
Definition of_Z (z : Z) : string := NilZero.string_of_int (Z.to_int z).
End Str.

(** [bytes.decode()]. Host names and methods on the wire are ASCII, and the
    characters of [string] are 8 bits wide: a byte above 127 is reported as
    UnicodeDecodeError (non-ASCII text is outside the model). *)
Definition decode (b : bytes) : result string :=
  if forallb (fun x => bool_decide (nat_of_byte x < 128)) b
  then Ok (String.string_of_list_byte b)
  else Raise UnicodeDecodeError.

(* ===================================================================== *)
(** ** rules.py *)
(* ===================================================================== *)

(** The values a rule object of the rules file holds: a string or [null]. *)
Inductive pyval : Set :=
  | PyNone
  | PyStr (s : string).

(** [str(v)] *)
Definition py_str (v : pyval) : string :=
  match v with
  | PyNone => "None"
  | PyStr s => s
  end.

(** Truth value of [v] *)
Definition truthy (v : pyval) : bool :=
  match v with
  | PyNone => false
  | PyStr s => bool_decide (s ≠ "")
  end.

(** [d.get(k, dflt)] *)
Definition dict_get {V : Type} (d : gmap string V) (k : string) (dflt : V) : V :=
  default dflt (d !! k).

Module RuleEngine.
Abbreviation rule := (gmap string pyval).

Definition _match (pattern domain : string) : bool :=
  if decide (pattern = "") then false
  else if Str.startswith pattern "*."
  then Str.endswith domain (Str.from 1 pattern)
  else bool_decide (domain = pattern) || Str.endswith domain ("." +:+ pattern).

(** The [for] loop of [decide], [d] being the lowered domain. *)
Fixpoint decide_loop (rules : list rule) (d : string)
  : option bool * option string :=
  match rules with
  | [] => (None, None)
  | rule :: rest =>
      let pattern := Str.lower (py_str (dict_get rule "pattern" (PyStr ""))) in
      if negb (_match pattern d) then decide_loop rest d
      else
        let action := Str.lower (py_str (dict_get rule "action" (PyStr "auto"))) in
        let method := dict_get rule "fragment_method" PyNone in
        let method := if truthy method
                      then Some (Str.lower (py_str method)) else None in
        if decide (action = "bypass") then (Some false, method)
        else if decide (action = "force") then (Some true, method)
        else (None, method)
  end.

Definition decide (rules : list rule) (domain : string)
  : option bool * option string :=
  let d := Str.lower domain in
  decide_loop rules d.
End RuleEngine.

(* ===================================================================== *)
(** ** blacklist.py *)
(* ===================================================================== *)

Module FileBlacklistManager.
Record t : Type := mk {
  domain_matching : string;        (* self.config.domain_matching *)
  blocked : list string;
  _blocked_set : gset string
}.

(** The body of the [for line in f] loop of [load_blacklist]. *)
Definition load_line (self : t) (line : string) : t :=
  let s := Str.strip line in
  if decide (String.length s < 2) then self
  else if Str.startswith s "#" then self
  else
    let d := Str.replace (Str.lower s) "www." "" in
    mk (domain_matching self) (blocked self ++ [d]) ({[ d ]} ∪ _blocked_set self).

(** [__init__] followed by [load_blacklist] on the lines of the file. *)
Definition load_blacklist (matching : string) (lines : list string) : t :=
  fold_left load_line lines (mk matching [] ∅).

Definition is_blocked (self : t) (domain : string) : bool :=
  let d := Str.replace domain "www." "" in
  if bool_decide (domain_matching self = "loose")
     && existsb (fun bd => Str.contains bd d) (elements (_blocked_set self))
  then true
  else if bool_decide (d ∈ _blocked_set self) then true
  else
    let parts := Str.split d "."%char in
    existsb (fun i => bool_decide (Str.join "." (drop i parts) ∈ _blocked_set self))
            (seq 1 (length parts - 1)).
End FileBlacklistManager.

(** What the [try] block of [AutoBlacklistManager.check_domain] ends with. *)
Inductive probe_outcome : Type :=
  | ProbeOk                                  (* urlopen succeeded *)
  | ProbeURLError (reason : option string)   (* str(e.reason), None if that raises *)
  | ProbeException.                          (* any other exception *)

Module AutoBlacklistManager.
Record t : Type := mk {
  blacklist_file : list string;    (* what has been appended to the file *)
  _blocked_set : gset string;
  _whitelist_set : gset string
}.

(** [__init__] *)
Definition init : t := mk [] ∅ ∅.

Definition is_blocked (self : t) (domain : string) : bool :=
  bool_decide (domain ∈ _blocked_set self).

(** The guard of [check_domain]: [true] when the call returns at once. *)
Definition known (self : t) (dec : string) : bool :=
  bool_decide (dec ∈ _blocked_set self) || bool_decide (dec ∈ _whitelist_set self).

(** [check_domain] from the point where the awaited probe has ended with
    [o]; [file_ok] tells whether appending to the file works. *)
Definition classify (self : t) (dec : string) (o : probe_outcome) (file_ok : bool) : t :=
  match o with
  | ProbeOk =>
      mk (blacklist_file self) (_blocked_set self) ({[ dec ]} ∪ _whitelist_set self)
  | ProbeURLError r =>
      let reason := default "" r in
      if Str.contains "handshake operation timed out" reason
      then mk (if file_ok
               then blacklist_file self ++ [dec +:+ String "010"%char ""]
               else blacklist_file self)
              ({[ dec ]} ∪ _blocked_set self) (_whitelist_set self)
      else self
  | ProbeException =>
      mk (blacklist_file self) (_blocked_set self) ({[ dec ]} ∪ _whitelist_set self)
  end.

(** One call of [check_domain] run to its end without another task running
    in between. The second component tells whether a probe was made. *)
Definition check_domain (self : t) (domain : bytes) (o : probe_outcome)
    (file_ok : bool) : result (t * bool) :=
  let* dec := decode domain in
  if known self dec then Ok (self, false)
  else Ok (classify self dec o file_ok, true).

(** [check_domain] awaits its probe, so other tasks of the event loop run
    in between, other calls of [check_domain] among them. A task is a
    number; [awaiting] holds the tasks suspended at the probe. *)
Inductive event : Type :=
  | Call (task : nat) (dec : string)
  | Resume (task : nat) (o : probe_outcome) (file_ok : bool).

Record oracle : Type := mk_oracle {
  manager : t;
  awaiting : gmap nat string
}.

Definition step (s : oracle) (e : event) : oracle :=
  match e with
  | Call task dec =>
      match awaiting s !! task with
      | Some _ => s
      | None =>
          if known (manager s) dec then s
          else mk_oracle (manager s) (<[task := dec]> (awaiting s))
      end
  | Resume task o file_ok =>
      match awaiting s !! task with
      | Some dec =>
          mk_oracle (classify (manager s) dec o file_ok) (delete task (awaiting s))
      | None => s
      end
  end.

Definition run (s : oracle) (tr : list event) : oracle := fold_left step tr s.
End AutoBlacklistManager.

Module NoBlacklistManager.
Definition is_blocked (domain : string) : bool := true.
End NoBlacklistManager.

(** The three implementations of [IBlacklistManager]. *)
Inductive blacklist_manager : Type :=
  | FileBlacklist (m : FileBlacklistManager.t)
  | AutoBlacklist (m : AutoBlacklistManager.t)
  | NoBlacklist.

(* ===================================================================== *)
(** ** dns_cache.py *)
(* ===================================================================== *)

(** One item of a getaddrinfo answer:
    (family, socktype, proto, canonname, (address, port)). *)
Definition addrinfo : Type := Z * Z * Z * string * (string * Z).

Module DNSCache.
Definition DNS_CACHE_TTL : Z := 60.
Definition DNS_CACHE_MAX : nat := 512.

(** [_cache] is a dict whose iteration order is observed: an association
    list in insertion order, one pair per key. Times are on the monotonic
    clock, in any fixed unit. *)
Abbreviation cache := (list (string * (Z * list addrinfo))).

Record t : Type := mk {
  ttl : Z;
  max_entries : nat;
  _cache : cache
}.

Definition init : t := mk DNS_CACHE_TTL DNS_CACHE_MAX [].

(** [d.get(key)] *)
Fixpoint get (key : string) (d : cache) : option (Z * list addrinfo) :=
  match d with
  | [] => None
  | (k, v) :: d' => if decide (k = key) then Some v else get key d'
  end.

(** [d[key] = v]: a present key keeps its place, a new one goes last. *)
Fixpoint set (key : string) (v : Z * list addrinfo) (d : cache) : cache :=
  match d with
  | [] => [(key, v)]
  | (k, w) :: d' => if decide (k = key) then (k, v) :: d' else (k, w) :: set key v d'
  end.

(** [d.pop(next(iter(d)))] *)
Definition pop_first (d : cache) : result cache :=
  match d with
  | [] => Raise StopIteration
  | _ :: d' => Ok d'
  end.

(** [f"{host}:{port}"] *)
Definition key_of (host : string) (port : Z) : string :=
  host +:+ ":" +:+ Str.of_Z port.

(** [resolve]; [now] is what [time.monotonic()] returns and [getaddrinfo]
    what the awaited [loop.getaddrinfo] call would produce. When it raises,
    the cache is as before the call. *)
Definition resolve (self : t) (now : Z)
    (getaddrinfo : string -> Z -> result (list addrinfo))
    (host : string) (port : Z) : result (list addrinfo * t) :=
  let key := key_of host port in
  let entry := get key (_cache self) in
  (* if entry and entry[0] > now: return entry[1] *)
  let hit := match entry with
             | Some (expiry, cached) =>
                 if decide (expiry > now)%Z then Some cached else None
             | None => None
             end in
  match hit with
  | Some cached => Ok (cached, self)
  | None =>
      let* addrs := getaddrinfo host port in
      let* c := (if decide (max_entries self <= length (_cache self))
                 then pop_first (_cache self) else Ok (_cache self)) in
      Ok (addrs,
          mk (ttl self) (max_entries self) (set key ((now + ttl self)%Z, addrs) c))
  end.
End DNSCache.

(* ===================================================================== *)
(** ** stats.py *)
(* ===================================================================== *)

Module Statistics.
(** The counters; the speed fields are floating point and are left out. *)
Record t : Type := mk {
  total_connections : nat;
  allowed_connections : nat;
  blocked_connections : nat;
  errors_connections : nat;
  traffic_in : nat;
  traffic_out : nat
}.

Definition init : t := mk 0 0 0 0 0 0.

Definition increment_total_connections (s : t) : t :=
  mk (total_connections s + 1) (allowed_connections s) (blocked_connections s)
     (errors_connections s) (traffic_in s) (traffic_out s).

Definition increment_allowed_connections (s : t) : t :=
  mk (total_connections s) (allowed_connections s + 1) (blocked_connections s)
     (errors_connections s) (traffic_in s) (traffic_out s).

Definition increment_blocked_connections (s : t) : t :=
  mk (total_connections s) (allowed_connections s) (blocked_connections s + 1)
     (errors_connections s) (traffic_in s) (traffic_out s).

Definition increment_error_connections (s : t) : t :=
  mk (total_connections s) (allowed_connections s) (blocked_connections s)
     (errors_connections s + 1) (traffic_in s) (traffic_out s).

Definition update_traffic (incoming outgoing : nat) (s : t) : t :=
  mk (total_connections s) (allowed_connections s) (blocked_connections s)
     (errors_connections s) (traffic_in s + incoming) (traffic_out s + outgoing).
End Statistics.

(* ===================================================================== *)
(** ** connection.py: ConnectionInfo and ConnectionHandler *)
(* ===================================================================== *)

Module ConnectionInfo.
Record t : Type := mk {
  src_ip : string;
  dst_domain : string;
  method : string;
  start_time : string;
  traffic_in : nat;
  traffic_out : nat
}.

(** [__init__]; [now] is the formatted [datetime.now()]. *)
Definition init (src_ip dst_domain method now : string) : t :=
  mk src_ip dst_domain method now 0 0.

Definition add_traffic_in (n : nat) (c : t) : t :=
  mk (src_ip c) (dst_domain c) (method c) (start_time c) (traffic_in c + n) (traffic_out c).

Definition add_traffic_out (n : nat) (c : t) : t :=
  mk (src_ip c) (dst_domain c) (method c) (start_time c) (traffic_in c) (traffic_out c + n).
End ConnectionInfo.

(** The part of [ProxyConfig] the handler reads. [log_error_file] tells
    whether an error log is configured: [ProxyLogger] then installs the
    handler that calls [increment_error_connections] on each error record. *)
Record ProxyConfig : Type := {
  fragment_method : string;
  rules : list RuleEngine.rule;
  log_error_file : bool
}.

(** How a relay loop ends. *)
Inductive pipe_end : Set :=
  | PipeEOF          (* read returned no data, the last drain went through *)
  | PipeError        (* an exception out of read, write or drain *)
  | PipeCancelled.   (* asyncio.CancelledError *)

(** What the network and the clock do during one connection, in the order
    the handler asks. [parsed] is the value of [_parse_http_request] on the
    first chunk. *)
Record Env : Type := {
  peername : option (string * Z);
  first_chunk : option bytes;             (* None: the bounded read timed out *)
  parsed : result (bytes * bytes * Z);
  now : string;
  probe : probe_outcome;
  probe_file_ok : bool;
  connect_ok : bool;                      (* _open_connection within the timeout *)
  established_ok : bool;                  (* writing the 200 reply *)
  tls_reads : option (bytes * bytes);     (* None: one of the two reads raised *)
  tls_fail_at : option nat;               (* the write of the first payload that raises *)
  http_write_ok : bool;
  out_chunks : list bytes;                (* relayed client to origin *)
  out_end : pipe_end;
  in_chunks : list bytes;                 (* relayed origin to client *)
  in_end : pipe_end;
  error_write_ok : bool                   (* writing the 500 reply *)
}.

(** The handler's mutable state. [ConnectionInfo] objects live in [objects]
    and are named by reference, so that the local variable [conn_info] and
    the entry of [active_connections] denote the same object. *)
Record world : Type := mk_world {
  statistics : Statistics.t;
  objects : gmap nat ConnectionInfo.t;
  next_ref : nat;
  active_connections : gmap (string * Z) nat;
  domain_failures : gmap string nat;
  blacklist : blacklist_manager;
  rng : RNG;
  access_log : list string;               (* messages given to log_access *)
  error_log : list string;                (* domains given to log_error *)
  to_client : list bytes;                 (* writes on the client socket *)
  to_origin : list bytes                  (* writes on the origin socket *)
}.

Definition init_world (bl : blacklist_manager) (g : RNG) : world :=
  mk_world Statistics.init ∅ 0 ∅ ∅ bl g [] [] [] [].

Definition with_statistics (f : Statistics.t -> Statistics.t) (w : world) : world :=
  mk_world (f (statistics w)) (objects w) (next_ref w) (active_connections w)
    (domain_failures w) (blacklist w) (rng w) (access_log w) (error_log w)
    (to_client w) (to_origin w).

Definition with_objects (f : gmap nat ConnectionInfo.t -> gmap nat ConnectionInfo.t)
    (w : world) : world :=
  mk_world (statistics w) (f (objects w)) (next_ref w) (active_connections w)
    (domain_failures w) (blacklist w) (rng w) (access_log w) (error_log w)
    (to_client w) (to_origin w).

Definition with_active (f : gmap (string * Z) nat -> gmap (string * Z) nat)
    (w : world) : world :=
  mk_world (statistics w) (objects w) (next_ref w) (f (active_connections w))
    (domain_failures w) (blacklist w) (rng w) (access_log w) (error_log w)
    (to_client w) (to_origin w).

Definition with_failures (f : gmap string nat -> gmap string nat) (w : world) : world :=
  mk_world (statistics w) (objects w) (next_ref w) (active_connections w)
    (f (domain_failures w)) (blacklist w) (rng w) (access_log w) (error_log w)
    (to_client w) (to_origin w).

(** The state-and-exception monad of the handler. *)
Definition M (A : Type) : Type := world -> result A * world.

#[global] Instance M_ret : MRet M := fun A a w => (Ok a, w).

#[global] Instance M_bind : MBind M := fun A B k m w =>
  match m w with
  | (Ok a, w') => k a w'
  | (Raise e, w') => (Raise e, w')
  | (OutOfFuel, w') => (OutOfFuel, w')
  end.

Definition modify (f : world -> world) : M unit := fun w => (Ok tt, f w).
Definition gets {A : Type} (f : world -> A) : M A := fun w => (Ok (f w), w).
Definition lift {A : Type} (r : result A) : M A := fun w => (r, w).
Definition skip : M unit := mret tt.

(** [try: m / except Exception: h e] *)
Definition try_except {A : Type} (m : M A) (h : M A) : M A := fun w =>
  match m w with
  | (Raise _, w') => h w'
  | r => r
  end.

(** An awaited socket operation that goes through or raises. *)
Definition io (ok : bool) : M unit :=
  if ok then skip else lift (Raise OSError).

Definition write_client (ok : bool) (b : bytes) : M unit :=
  io ok ;;
  modify (fun w =>
    mk_world (statistics w) (objects w) (next_ref w) (active_connections w)
      (domain_failures w) (blacklist w) (rng w) (access_log w) (error_log w)
      (to_client w ++ [b]) (to_origin w)).

Definition write_origin (ok : bool) (b : bytes) : M unit :=
  io ok ;;
  modify (fun w =>
    mk_world (statistics w) (objects w) (next_ref w) (active_connections w)
      (domain_failures w) (blacklist w) (rng w) (access_log w) (error_log w)
      (to_client w) (to_origin w ++ [b])).

Definition update_traffic (incoming outgoing : nat) : M unit :=
  modify (with_statistics (Statistics.update_traffic incoming outgoing)).

Definition increment_total_connections : M unit :=
  modify (with_statistics Statistics.increment_total_connections).
Definition increment_allowed_connections : M unit :=
  modify (with_statistics Statistics.increment_allowed_connections).
Definition increment_blocked_connections : M unit :=
  modify (with_statistics Statistics.increment_blocked_connections).
Definition increment_error_connections : M unit :=
  modify (with_statistics Statistics.increment_error_connections).

(** [ProxyLogger.log_error]: with an error log configured, emitting the
    record first calls the error counter callback. *)
Definition log_error (cfg : ProxyConfig) (domain : string) : M unit :=
  (if log_error_file cfg then increment_error_connections else skip) ;;
  modify (fun w =>
    mk_world (statistics w) (objects w) (next_ref w) (active_connections w)
      (domain_failures w) (blacklist w) (rng w) (access_log w)
      (error_log w ++ [domain]) (to_client w) (to_origin w)).

Definition log_access (message : string) : M unit :=
  modify (fun w =>
    mk_world (statistics w) (objects w) (next_ref w) (active_connections w)
      (domain_failures w) (blacklist w) (rng w) (access_log w ++ [message])
      (error_log w) (to_client w) (to_origin w)).

(** [ConnectionInfo(...)]: a new object, returned by reference. *)
Definition new_connection_info (c : ConnectionInfo.t) : M nat := fun w =>
  let r := next_ref w in
  (Ok r,
   mk_world (statistics w) (<[r := c]> (objects w)) (S r) (active_connections w)
     (domain_failures w) (blacklist w) (rng w) (access_log w) (error_log w)
     (to_client w) (to_origin w)).

(** [conn_info.traffic_in += n] and [conn_info.traffic_out += n] *)
Definition conn_add_in (conn_info : nat) (n : nat) : M unit :=
  modify (with_objects (alter (ConnectionInfo.add_traffic_in n) conn_info)).
Definition conn_add_out (conn_info : nat) (n : nat) : M unit :=
  modify (with_objects (alter (ConnectionInfo.add_traffic_out n) conn_info)).

(** [conn_info.dst_domain] *)
Definition conn_domain (conn_info : nat) : M string :=
  gets (fun w => default "" (ConnectionInfo.dst_domain <$> objects w !! conn_info)).

(** [self.active_connections.pop(conn_key, None)]; [conn_key] is [None] for
    the empty tuple the handler starts with, which is never a key. *)
Definition pop_connection (conn_key : option (string * Z)) : M (option nat) :=
  match conn_key with
  | None => mret None
  | Some k =>
      r ← gets (fun w => active_connections w !! k);
      modify (with_active (delete k)) ;;
      mret r
  end.

(** ["\r\n"] *)
Definition crlf : string := String "013" (String "010" "").

Definition error_response : bytes :=
  String.list_byte_of_string ("HTTP/1.1 500 Internal Server Error" +:+ crlf +:+ crlf).

Definition established : bytes :=
  String.list_byte_of_string ("HTTP/1.1 200 Connection Established" +:+ crlf +:+ crlf).

Definition _handle_connection_error (cfg : ProxyConfig) (env : Env)
    (conn_key : option (string * Z)) : M unit :=
  try_except
    (write_client (error_write_ok env) error_response ;;
     update_traffic (length error_response) 0)
    skip ;;
  conn_info ← pop_connection conn_key;
  increment_total_connections ;;
  increment_error_connections ;;
  domain ← match conn_info with
            | Some c => conn_domain c
            | None => mret "unknown"
            end;
  match conn_info with
  | Some c =>
      modify (with_failures (fun f => <[domain := dict_get f domain 0 + 1]> f))
  | None => skip
  end ;;
  log_error cfg domain.

(** [_pipe]; [chunks] are the reads the loop relays before it ends with
    [ending]. The local [conn_info] is [None] throughout, as in the source. *)
Definition _pipe (cfg : ProxyConfig) (chunks : list bytes) (ending : pipe_end)
    (is_out : bool) : M unit :=
  let conn_info : option nat := None in
  let write := if is_out then write_origin true else write_client true in
  mapM write chunks ;;
  let local_vol := sum_list (length <$> chunks) in
  match ending with
  | PipeEOF | PipeCancelled => skip
  | PipeError =>
      domain ← match conn_info with
                | Some c => conn_domain c
                | None => mret "unknown"
                end;
      log_error cfg domain
  end ;;
  if is_out then
    update_traffic 0 local_vol ;;
    match conn_info with
    | Some c => conn_add_out c local_vol
    | None => skip
    end
  else
    update_traffic local_vol 0 ;;
    match conn_info with
    | Some c => conn_add_in c local_vol
    | None => skip
    end.

(** [_run_pipes]. The two pipe tasks only add to counters and append to
    different sockets, so running one after the other gives the state any
    interleaving gives. *)
Definition _run_pipes (cfg : ProxyConfig) (env : Env)
    (conn_key : option (string * Z)) : M unit :=
  _pipe cfg (out_chunks env) (out_end env) true ;;
  _pipe cfg (in_chunks env) (in_end env) false ;;
  removed ← pop_connection conn_key;
  match removed with
  | Some r =>
      c ← gets (fun w => objects w !! r);
      match c with
      | Some c =>
          modify (with_failures (fun f =>
            match f !! ConnectionInfo.dst_domain c with
            | Some n => <[ConnectionInfo.dst_domain c := n - 1]> f
            | None => f
            end)) ;;
          log_access (ConnectionInfo.start_time c +:+ " " +:+ ConnectionInfo.src_ip c
                      +:+ " " +:+ ConnectionInfo.method c
                      +:+ " " +:+ ConnectionInfo.dst_domain c
                      +:+ " " +:+ Str.of_nat (ConnectionInfo.traffic_in c)
                      +:+ " " +:+ Str.of_nat (ConnectionInfo.traffic_out c))
      | None => skip
      end
  | None => skip
  end.

Definition set_rng (g : RNG) : M unit :=
  modify (fun w =>
    mk_world (statistics w) (objects w) (next_ref w) (active_connections w)
      (domain_failures w) (blacklist w) g (access_log w) (error_log w)
      (to_client w) (to_origin w)).

Definition set_blacklist (bl : blacklist_manager) : M unit :=
  modify (fun w =>
    mk_world (statistics w) (objects w) (next_ref w) (active_connections w)
      (domain_failures w) bl (rng w) (access_log w) (error_log w)
      (to_client w) (to_origin w)).

(** [self.blacklist_manager.is_blocked(domain)] *)
Definition is_blocked (bl : blacklist_manager) (domain : string) : bool :=
  match bl with
  | FileBlacklist m => FileBlacklistManager.is_blocked m domain
  | AutoBlacklist m => AutoBlacklistManager.is_blocked m domain
  | NoBlacklist => NoBlacklistManager.is_blocked domain
  end.

(** The write of payload number [i] to the origin, with its drain. *)
Definition write_payload (env : Env) (i : nat) (b : bytes) : M unit :=
  write_origin (negb (bool_decide (tls_fail_at env = Some i))) b.

(** The [for part in parts] loop of the split-jitter method; the draw is
    the length of the sleep. *)
Fixpoint jitter_loop (env : Env) (i : nat) (parts : list bytes) (total : nat) : M nat :=
  match parts with
  | [] => mret total
  | part :: rest =>
      write_payload env i part ;;
      g ← gets rng;
      '(_, g') ← lift (randrange g 1 6);
      set_rng g' ;;
      jitter_loop env (S i) rest (total + length part)
  end.

Definition _handle_initial_tls_data (cfg : ProxyConfig) (env : Env)
    (host : bytes) (conn_info : nat) : M unit :=
  match tls_reads env with
  | None =>
      try_except (d ← lift (decode host); log_error cfg d) skip
  | Some (h, d) =>
      (* reader.read(n) returns at most n bytes *)
      let head := take 5 h in
      let data := take 2048 d in
      dst_domain ← conn_domain conn_info;
      bl ← gets blacklist;
      let should_fragment :=
        match bl with
        | NoBlacklist => true
        | _ => is_blocked bl dst_domain
        end in
      let '(rule_decision, rule_method) := RuleEngine.decide (rules cfg) dst_domain in
      let should_fragment :=
        match rule_decision with
        | Some b => b
        | None => should_fragment
        end in
      if negb should_fragment then
        increment_total_connections ;;
        increment_allowed_connections ;;
        let combined := head ++ data in
        write_payload env 0 combined ;;
        update_traffic 0 (length combined) ;;
        conn_add_out conn_info (length combined)
      else
        increment_total_connections ;;
        increment_blocked_connections ;;
        failures ← gets (fun w => dict_get (domain_failures w) dst_domain 0);
        let method := choose_method rule_method (fragment_method cfg) failures in
        g ← gets rng;
        '(parts, data, method, g') ← lift (fragment method g data);
        set_rng g' ;;
        match parts with
        | [] =>
            let combined := head ++ data in
            write_payload env 0 combined ;;
            update_traffic 0 (length combined) ;;
            conn_add_out conn_info (length combined)
        | _ :: _ =>
            total ← (if decide (method = "split-jitter")
                     then jitter_loop env 0 parts 0
                     else
                       let combined := concat parts in
                       write_payload env 0 combined ;;
                       mret (length combined));
            update_traffic 0 total ;;
            conn_add_out conn_info total
        end
  end.

Definition _handle_https_connection (cfg : ProxyConfig) (env : Env)
    (host : bytes) (conn_key : option (string * Z)) (conn_info : nat) : M unit :=
  update_traffic (length established) 0 ;;
  conn_add_in conn_info (length established) ;;
  if connect_ok env then
    write_client (established_ok env) established ;;
    _handle_initial_tls_data cfg env host conn_info ;;
    _run_pipes cfg env conn_key
  else
    _handle_connection_error cfg env conn_key.

Definition _handle_http_connection (cfg : ProxyConfig) (env : Env)
    (http_data : bytes) (conn_key : option (string * Z)) : M unit :=
  if connect_ok env then
    write_origin (http_write_ok env) http_data ;;
    increment_total_connections ;;
    increment_allowed_connections ;;
    _run_pipes cfg env conn_key
  else
    _handle_connection_error cfg env conn_key.

Definition CONNECT : bytes := String.list_byte_of_string "CONNECT".

(** [handle_connection]. The one [try] of the source is entered twice here,
    once for the statements that run while [conn_key] is still the empty
    tuple and once for those after its assignment, with the same handler. *)
Definition handle_connection (cfg : ProxyConfig) (env : Env) : M unit :=
  let '(client_ip, client_port) := default ("unknown", 0%Z) (peername env) in
  match first_chunk env with
  | None => skip
  | Some [] => skip
  | Some http_data =>
      p ← try_except (x ← lift (parsed env); mret (Some x))
                     (_handle_connection_error cfg env None ;; mret None);
      match p with
      | None => skip
      | Some (method, host, port) =>
          let conn_key := Some (client_ip, client_port) in
          try_except
            (dom ← lift (decode host);
             meth ← lift (decode method);
             conn_info ← new_connection_info
                           (ConnectionInfo.init client_ip dom meth (now env));
             bl ← gets blacklist;
             match bl with
             | AutoBlacklist m =>
                 if decide (method = CONNECT) then
                   '(m', _) ← lift (AutoBlacklistManager.check_domain m host
                                      (probe env) (probe_file_ok env));
                   set_blacklist (AutoBlacklist m')
                 else skip
             | _ => skip
             end ;;
             modify (with_active (<[(client_ip, client_port) := conn_info]>)) ;;
             update_traffic 0 (length http_data) ;;
             conn_add_out conn_info (length http_data) ;;
             if decide (method = CONNECT)
             then _handle_https_connection cfg env host conn_key conn_info
             else _handle_http_connection cfg env http_data conn_key)
            (_handle_connection_error cfg env conn_key)
      end
  end.

(* ===================================================================== *)
(** ** Predicates used in the statements *)
(* ===================================================================== *)

(** [part] is a forged record around [payload]: 16 03 04, the length of the
    payload on two bytes, big end first, then the payload. *)
Definition is_record (payload part : bytes) : Prop :=
  exists hi lo : byte,
    part = [x16; x03; x04; hi; lo] ++ payload /\
    256 * nat_of_byte hi + nat_of_byte lo = length payload.

(** The four pieces the sni method cuts [data] into at [(s, e)]. *)
Definition sni_pieces (data : bytes) (s e : nat) : list bytes :=
  let sni := slice s e data in
  let mid := (length sni + 1) / 2 in
  [take s data; take mid sni; drop mid sni; drop e data].

(** A record with no payload. *)
Definition empty_record : bytes := [x16; x03; x04; x00; x00].

(** A payload cut off two bytes into a five-byte server name: extension
    type 00 00, extension length 10, list length 8, name type 0, name
    length 5, then "ab". *)
Definition truncated_hello : bytes :=
  [x00; x00; x00; x0a; x00; x08; x00; x00; x05; x61; x62].

(** A payload whose only candidate has the name length 0: extension type
    00 00, extension length 5, list length 3, name type 0, name length 0. *)
Definition zero_name_hello : bytes :=
  [x00; x00; x00; x05; x00; x03; x00; x00; x00].

(** [suf] ends [s]; [p] starts [s]. *)
Definition is_suffix (suf s : string) : Prop := exists u, s = u +:+ suf.
Definition is_prefix (p s : string) : Prop := exists r, s = p +:+ r.

(** The lowered pattern of a rule and what [decide] returns when the rule
    is the one that matches, as in the loop body. *)
Definition rule_pattern (rule : RuleEngine.rule) : string :=
  Str.lower (py_str (dict_get rule "pattern" (PyStr ""))).

Definition rule_verdict (rule : RuleEngine.rule) : option bool * option string :=
  let action := Str.lower (py_str (dict_get rule "action" (PyStr "auto"))) in
  let method := dict_get rule "fragment_method" PyNone in
  let method := if truthy method then Some (Str.lower (py_str method)) else None in
  if decide (action = "bypass") then (Some false, method)
  else if decide (action = "force") then (Some true, method)
  else (None, method).

(** The strict parent domains of [d], longest first: the joins of the
    label suffixes that [is_blocked] tests after [d] itself. *)
Definition parent_suffixes (d : string) : list string :=
  let parts := Str.split d "."%char in
  (fun i => Str.join "." (drop i parts)) <$> seq 1 (length parts - 1).

(** A line of the blacklist file that [load_blacklist] keeps. *)
Definition kept_line (line : string) : Prop :=
  2 <= String.length (Str.strip line) /\ Str.startswith (Str.strip line) "#" = false.

(** The normal form the specification names: lowercased, then a leading
    "www." removed; and the lookup it describes. *)
Definition normalise_spec (domain : string) : string :=
  let d := Str.lower domain in
  if Str.startswith d "www." then Str.from 4 d else d.

Definition is_blocked_spec (set : gset string) (domain : string) : bool :=
  let d := normalise_spec domain in
  bool_decide (d ∈ set) || existsb (fun v => bool_decide (v ∈ set)) (parent_suffixes d).

(** The adaptive oracle before any call. *)
Definition init_oracle : AutoBlacklistManager.oracle :=
  AutoBlacklistManager.mk_oracle AutoBlacklistManager.init ∅.

(** No call of [check_domain] for a domain starts while another call for
    the same domain still awaits its probe. *)
Fixpoint no_overlap (s : AutoBlacklistManager.oracle)
    (tr : list AutoBlacklistManager.event) : Prop :=
  match tr with
  | [] => True
  | e :: tr' =>
      match e with
      | AutoBlacklistManager.Call _ dec =>
          forall t, AutoBlacklistManager.awaiting s !! t <> Some dec
      | AutoBlacklistManager.Resume _ _ _ => True
      end /\ no_overlap (AutoBlacklistManager.step s e) tr'
  end.

(** Calls made one after the other: each one runs to its end before the
    next starts. *)
Definition sequential (calls : list (nat * string * probe_outcome * bool))
  : list AutoBlacklistManager.event :=
  flat_map (fun '(task, dec, o, file_ok) =>
              [AutoBlacklistManager.Call task dec;
               AutoBlacklistManager.Resume task o file_ok]) calls.

(** What the invariant of the oracle needs besides disjointness: a domain
    whose probe is awaited is not classified yet, and is awaited once. *)
Definition consistent (s : AutoBlacklistManager.oracle) : Prop :=
  AutoBlacklistManager._blocked_set (AutoBlacklistManager.manager s)
    ## AutoBlacklistManager._whitelist_set (AutoBlacklistManager.manager s) /\
  (forall t dec, AutoBlacklistManager.awaiting s !! t = Some dec ->
     AutoBlacklistManager.known (AutoBlacklistManager.manager s) dec = false) /\
  (forall t t' dec, AutoBlacklistManager.awaiting s !! t = Some dec ->
     AutoBlacklistManager.awaiting s !! t' = Some dec -> t = t').

(** A full cache of two entries, the older one expired at time 100, and a
    resolver that answers with one address. *)
Definition small_cache : DNSCache.t :=
  DNSCache.mk 60 2 [("a.test:80", (50%Z, [])); ("b.test:80", (200%Z, []))].

Definition one_address (host : string) (port : Z) : result (list addrinfo) :=
  Ok [(2%Z, 1%Z, 6%Z, "", (host, port))].

(** The bytes a relay moves. *)
Definition volume (chunks : list bytes) : nat := sum_list (length <$> chunks).

(** A configuration with the split method, no rule and no error log, and
    one where a rule lets [safe.test] through. *)
Definition cfg_split : ProxyConfig :=
  {| fragment_method := "split"; rules := []; log_error_file := false |}.

Definition cfg_bypass : ProxyConfig :=
  {| fragment_method := "split";
     rules := [ {[ "pattern" := PyStr "safe.test"; "action" := PyStr "bypass" ]} ];
     log_error_file := false |}.

(** The first chunk of a CONNECT to port 443 of [host]. *)
Definition connect_request (host : string) : bytes :=
  String.list_byte_of_string ("CONNECT " +:+ host +:+ ":443 HTTP/1.1" +:+ crlf +:+ crlf).

(** A CONNECT to [host] whose origin accepts the connection and then
    resets it: the write of the first TLS payload raises. *)
Definition env_write_fails (host : string) : Env :=
  {| peername := Some ("10.0.0.1", 5000%Z);
     first_chunk := Some (connect_request host);
     parsed := Ok (CONNECT, String.list_byte_of_string host, 443%Z);
     now := "2024-01-01 00:00:00";
     probe := ProbeOk;
     probe_file_ok := true;
     connect_ok := true;
     established_ok := true;
     tls_reads := Some ([x16; x03; x01; x00; x03], [x01; x02; x03]);
     tls_fail_at := Some 0;
     http_write_ok := true;
     out_chunks := [];
     out_end := PipeEOF;
     in_chunks := [];
     in_end := PipeEOF;
     error_write_ok := true |}.

(** The same CONNECT when the client sends no TLS payload in time; the
    relay then ends at once. *)
Definition env_tls_timeout : Env :=
  {| peername := Some ("10.0.0.1", 5000%Z);
     first_chunk := Some (connect_request "blocked.test");
     parsed := Ok (CONNECT, String.list_byte_of_string "blocked.test", 443%Z);
     now := "2024-01-01 00:00:00";
     probe := ProbeOk;
     probe_file_ok := true;
     connect_ok := true;
     established_ok := true;
     tls_reads := None;
     tls_fail_at := None;
     http_write_ok := true;
     out_chunks := [];
     out_end := PipeEOF;
     in_chunks := [];
     in_end := PipeEOF;
     error_write_ok := true |}.

(** A plain GET of 42 bytes that goes through, after which the client sends
    10 more bytes and the origin answers with 20. *)
Definition env_http_relay : Env :=
  {| peername := Some ("10.0.0.1", 5000%Z);
     first_chunk := Some (String.list_byte_of_string
                            ("GET /a HTTP/1.1" +:+ crlf +:+ "Host: text.example:80"
                             +:+ crlf +:+ crlf));
     parsed := Ok (String.list_byte_of_string "GET",
                   String.list_byte_of_string "text.example", 80%Z);
     now := "2024-01-01 00:00:00";
     probe := ProbeOk;
     probe_file_ok := true;
     connect_ok := true;
     established_ok := true;
     tls_reads := None;
     tls_fail_at := None;
     http_write_ok := true;
     out_chunks := [String.list_byte_of_string "0123456789"];
     out_end := PipeEOF;
     in_chunks := [String.list_byte_of_string "01234567890123456789"];
     in_end := PipeEOF;
     error_write_ok := true |}.

(** The state a connection leaves behind when it starts from a fresh
    handler with no blacklist. *)
Definition after_connection (cfg : ProxyConfig) (env : Env) : world :=
  snd (handle_connection cfg env (init_world NoBlacklist (fun i => i))).

(** The connection counters of [w'] are those of [w] plus the given
    amounts. *)
Definition counted (w w' : world) (total allowed blocked errors : nat) : Prop :=
  Statistics.total_connections (statistics w')
    = Statistics.total_connections (statistics w) + total /\
  Statistics.allowed_connections (statistics w')
    = Statistics.allowed_connections (statistics w) + allowed /\
  Statistics.blocked_connections (statistics w')
    = Statistics.blocked_connections (statistics w) + blocked /\
  Statistics.errors_connections (statistics w')
    = Statistics.errors_connections (statistics w) + errors.

(** What one call of [log_error] adds to the error counter. *)
Definition logged (cfg : ProxyConfig) : nat := if log_error_file cfg then 1 else 0.

(** What [_handle_initial_tls_data] decides for the connection [conn_info]
    in the state [w]: whether to fragment, and the method it hands to the
    fragmenter. *)
Definition decision (cfg : ProxyConfig) (w : world) (conn_info : nat) : bool * string :=
  let dst_domain := default "" (ConnectionInfo.dst_domain <$> objects w !! conn_info) in
  let should_fragment :=
    match blacklist w with
    | NoBlacklist => true
    | _ => is_blocked (blacklist w) dst_domain
    end in
  let '(rule_decision, rule_method) := RuleEngine.decide (rules cfg) dst_domain in
  (match rule_decision with
   | Some b => b
   | None => should_fragment
   end,
   choose_method rule_method (fragment_method cfg)
     (dict_get (domain_failures w) dst_domain 0)).

(* ===================================================================== *)
(** ** connection.py: the request parser *)
(* ===================================================================== *)

Section Splitting.
Context {A : Type} `{EqDecision A}.

(** [l.split(sep, 1)] for a one-item separator: cut at its first
    occurrence. *)
Definition split1 (sep : A) (l : list A) : list (list A) :=
  match find_from [sep] l 0 with
  | Some i => [take i l; drop (i + 1) l]
  | None => [l]
  end.

(** [l.split(sep)] for a separator of any positive length: occurrences are
    taken left to right and do not overlap. [cur] is the piece being
    collected, [skip] the items of the separator just met that are still to
    be passed over. *)
Fixpoint split_seq_go (sep : list A) (skip : nat) (cur l : list A) : list (list A) :=
  match l with
  | [] => [cur]
  | a :: l' =>
      match skip with
      | S k => split_seq_go sep k cur l'
      | 0 => if starts_with sep l
             then cur :: split_seq_go sep (length sep - 1) [] l'
             else split_seq_go sep 0 (cur ++ [a]) l'
      end
  end.

Definition split_seq (sep l : list A) : list (list A) :=
  split_seq_go sep 0 [] l.
End Splitting.

(** The characters [int()] skips around a literal (Py_ISSPACE). *)
Definition is_space_byte (b : byte) : bool :=
  let n := nat_of_byte b in
  ((9 <=? n) && (n <=? 13)) || (n =? 32).

Definition digit_value (b : byte) : option nat :=
  let n := nat_of_byte b in
  if (48 <=? n) && (n <=? 57) then Some (n - 48) else None.

(** The run of digits of a decimal literal, single underscores allowed
    between digits: the value read, the number of digits and what follows
    the run; [None] for a doubled or a trailing underscore. *)
Fixpoint scan_digits (l : bytes) (acc : Z) (digits : nat) (prev_underscore : bool)
  : option (Z * nat * bytes) :=
  match l with
  | [] => if prev_underscore then None else Some (acc, digits, [])
  | b :: l' =>
      match digit_value b with
      | Some d => scan_digits l' (acc * 10 + Z.of_nat d)%Z (S digits) false
      | None =>
          if decide (b = x5f) then
            if prev_underscore then None else scan_digits l' acc digits true
          else if prev_underscore then None else Some (acc, digits, l)
      end
  end.

(** The blanks [int()] passes over. *)
Fixpoint skip_blanks (l : bytes) : bytes :=
  match l with
  | b :: l' => if is_space_byte b then skip_blanks l' else l
  | [] => []
  end.

(** The default of [sys.get_int_max_str_digits()]. *)
Definition int_max_str_digits : nat := 4300.

(** [int(b)] for [bytes]: optional blanks, an optional sign, decimal digits
    with single underscores between them, optional blanks. [None] stands for
    ValueError; a literal of more than [int_max_str_digits] digits is
    refused as well. *)
Definition py_int (b : bytes) : option Z :=
  let s := skip_blanks b in
  let '(negative, s) :=
    match s with
    | c :: s' =>
        if decide (c = x2b) then (false, s')
        else if decide (c = x2d) then (true, s')
        else (false, s)
    | [] => (false, s)
    end in
  match s with
  | [] => None
  | c :: _ =>
      if decide (c = x5f) then None
      else
        match scan_digits s 0 0 false with
        | None => None
        | Some (z, digits, rest) =>
            if decide (digits = 0) then None
            else if decide (int_max_str_digits < digits) then None
            else match skip_blanks rest with
                 | [] => Some (if negative then (- z)%Z else z)
                 | _ :: _ => None
                 end
        end
  end.

(** What [_parse_http_request] raises. *)
Inductive parse_exn : Set :=
  | Malformed        (* ValueError("Malformed HTTP request") *)
  | IndexError       (* parts[1] on a request line without a space *)
  | MissingHost      (* ValueError("Missing Host header") *)
  | InvalidLiteral.  (* ValueError: int() of a port that is no integer literal *)

Definition CRLF : bytes := [x0d; x0a].
Definition HOST : bytes := String.list_byte_of_string "Host: ".

(** [hp[0]], then [int(hp[1]) if len(hp) > 1 else dflt]. *)
Definition host_port (hp : list bytes) (dflt : Z) : parse_exn + (bytes * Z) :=
  match hp with
  | [] => inl IndexError
  | [host] => inr (host, dflt)
  | host :: p :: _ =>
      match py_int p with
      | Some port => inr (host, port)
      | None => inl InvalidLiteral
      end
  end.

Definition _parse_http_request (http_data : bytes) : parse_exn + (bytes * bytes * Z) :=
  match find_from CRLF http_data 0 with
  | None => inl Malformed
  | Some first_crlf =>
      let first_line := take first_crlf http_data in
      let parts := split_on x20 first_line in
      match parts with
      | [] | [_] => inl IndexError
      | method :: url :: _ =>
          if decide (method = CONNECT) then
            match host_port (split1 x3a url) 443 with
            | inr (host, port) => inr (method, host, port)
            | inl e => inl e
            end
          else
            match find_from (CRLF ++ HOST) http_data 0 with
            | None =>
                let headers := split_seq CRLF http_data in
                match List.find (starts_with HOST) headers with
                | None | Some [] => inl MissingHost
                | Some host_header =>
                    match host_port (split_on x3a (drop 6 host_header)) 80 with
                    | inr (host, port) => inr (method, host, port)
                    | inl e => inl e
                    end
                end
            | Some host_pos =>
                let start := host_pos + 8 in
                (* end = -1 when no CRLF follows: the slice then stops one
                   byte short of the end of the data *)
                let host_line :=
                  match find_from CRLF http_data start with
                  | Some e => slice start e http_data
                  | None => slice start (length http_data - 1) http_data
                  end in
                match host_port (split1 x3a host_line) 80 with
                | inr (host, port) => inr (method, host, port)
                | inl e => inl e
                end
            end
      end
  end.

(** Header lines as they follow a request line: each one preceded by the
    CRLF that ends the line before it. *)
Definition header_block (hs : list bytes) : bytes :=
  concat ((fun h => CRLF ++ h) <$> hs).

(** A header line without LF that does not begin with [Host: ]. *)
Definition other_header (h : bytes) : Prop :=
  (x0a ∉ h) /\ starts_with HOST h = false.

(** A request line: the method, a blank, the target, and possibly a blank
    and more. *)
Definition request_line (m url tail : bytes) : bytes :=
  m ++ x20 :: url ++ tail.

Definition token (t : bytes) : Prop := (x20 ∉ t) /\ (x0a ∉ t).

Definition line_tail (tail : bytes) : Prop :=
  (x0a ∉ tail) /\ (tail = [] \/ exists t, tail = x20 :: t).

(* ===================================================================== *)
(** ** connection.py: opening the origin connection *)
(* ===================================================================== *)

(** How the attempt on one address ends. An attempt that is cancelled (the
    caller's timeout) is outside this model: it leaves the loop through
    [CancelledError], which the loop does not catch. *)
Inductive attempt : Set :=
  | NoSocket (e : exn)    (* socket.socket raises *)
  | NoConnect (e : exn)   (* setblocking, sock_connect or open_connection raises *)
  | Connects.

(** What the loop does to sockets; socket [i] is the one made for the
    address at index [i] of the list. *)
Inductive sock_event : Type :=
  | Opened (i : nat)
  | Bound (i : nat) (out_host : string)
  | Closed (i : nat).

(** [socket.AF_INET] *)
Definition AF_INET : Z := 2.

Definition family (a : addrinfo) : Z := a.1.1.1.1.

(** [sock.bind((self.out_host, 0))], tried when [out_host] is set and the
    address is an IPv4 one; whether it works does not matter. *)
Definition bind_events (out_host : option string) (i : nat) (a : addrinfo)
  : list sock_event :=
  match out_host with
  | Some o => if decide (o <> "" /\ family a = AF_INET) then [Bound i o] else []
  | None => []
  end.

(** The [for] loop of [_open_connection] and the two [raise] after it;
    [try i a] tells how the attempt on address [i] ends. *)
Fixpoint connect_loop (out_host : option string) (try : nat -> addrinfo -> attempt)
    (addrs : list addrinfo) (i : nat) (last_exc : option exn) (log : list sock_event)
  : result (nat * addrinfo) * list sock_event :=
  match addrs with
  | [] => (Raise (default OSError last_exc), log)
  | a :: rest =>
      match try i a with
      | NoSocket e => connect_loop out_host try rest (S i) (Some e) log
      | NoConnect e =>
          connect_loop out_host try rest (S i) (Some e)
            (log ++ Opened i :: bind_events out_host i a ++ [Closed i])
      | Connects => (Ok (i, a), log ++ Opened i :: bind_events out_host i a)
      end
  end.

(** [_open_connection]: the address that connected, the cache after the
    lookup and the socket events. *)
Definition _open_connection (out_host : option string) (dns_cache : DNSCache.t) (now : Z)
    (getaddrinfo : string -> Z -> result (list addrinfo))
    (try : nat -> addrinfo -> attempt) (host : string) (port : Z)
  : result (nat * addrinfo) * DNSCache.t * list sock_event :=
  match DNSCache.resolve dns_cache now getaddrinfo host port with
  | Ok (addrs, dns_cache') =>
      let '(r, log) := connect_loop out_host try addrs 0 None [] in
      (r, dns_cache', log)
  | Raise e => (Raise e, dns_cache, [])
  | OutOfFuel => (OutOfFuel, dns_cache, [])
  end.

(** The sockets a sequence of events leaves open, [acc] being those open
    before it. *)
Fixpoint open_sockets (log : list sock_event) (acc : list nat) : list nat :=
  match log with
  | [] => acc
  | Opened i :: log' => open_sockets log' (acc ++ [i])
  | Bound _ _ :: log' => open_sockets log' acc
  | Closed i :: log' => open_sockets log' (filter (fun j => j <> i) acc)
  end.

(** The exception of a failed attempt. *)
Definition failure (t : attempt) : option exn :=
  match t with
  | NoSocket e | NoConnect e => Some e
  | Connects => None
  end.

(* ===================================================================== *)
(** ** Predicates and sample inputs of the further statements *)
(* ===================================================================== *)

(** The keys of a cache in insertion order. *)
Definition keys (c : DNSCache.cache) : list string := c.*1.

(** The shape [resolve] keeps: one entry per key, no more than
    [max_entries] of them. *)
Definition within_capacity (self : DNSCache.t) : Prop :=
  NoDup (keys (DNSCache._cache self)) /\
  length (DNSCache._cache self) <= DNSCache.max_entries self.

(** No record under [key] that is still valid at [now]. *)
Definition stale (key : string) (now : Z) (c : DNSCache.cache) : Prop :=
  forall expiry cached, DNSCache.get key c = Some (expiry, cached) -> (expiry <= now)%Z.

(** What [_extract_sni_position] tests at [p]: the pair 00 00 at [p], nine
    bytes from [p] on within [data], and the two length equations. *)
Definition sni_candidate (data : bytes) (p : nat) : Prop :=
  starts_with [x00; x00] (drop p data) = true /\
  p + 9 <= length data /\
  (int_from_bytes (slice (p + 2) (p + 4) data)
   - int_from_bytes (slice (p + 4) (p + 6) data) = 2)%Z /\
  (int_from_bytes (slice (p + 4) (p + 6) data)
   - int_from_bytes (slice (p + 7) (p + 9) data) = 3)%Z.

(** The name length field read at the candidate [p]. *)
Definition sni_name_len (data : bytes) (p : nat) : nat :=
  Z.to_nat (int_from_bytes (slice (p + 7) (p + 9) data)).

(** What [self.active_connections.pop(conn_key, None)] leaves of the
    registry. *)
Definition released (conn_key : option (string * Z)) (a : gmap (string * Z) nat)
  : gmap (string * Z) nat :=
  match conn_key with
  | Some k => delete k a
  | None => a
  end.

(** A computation that returns or raises and leaves the registry as it
    was. *)
Definition quiet {A : Type} (m : M A) : Prop :=
  forall w, exists r w',
    m w = (r, w') /\ r <> OutOfFuel /\ active_connections w' = active_connections w.

(** A computation that returns with the entry of [conn_key] taken out of
    the registry. *)
Definition releases (conn_key : option (string * Z)) (m : M unit) : Prop :=
  forall w, exists w',
    m w = (Ok tt, w') /\
    active_connections w' = released conn_key (active_connections w).

(** A computation that either returns with the entry of [k] taken out, or
    raises with a registry that differs from the one it started with at
    [k] only. *)
Definition settles (k : string * Z) (m : M unit) : Prop :=
  forall w, exists r w',
    m w = (r, w') /\
    ((r = Ok tt /\ active_connections w' = delete k (active_connections w)) \/
     ((exists e, r = Raise e) /\
      forall k', k' <> k -> active_connections w' !! k' = active_connections w !! k')).

(** The [parsed] field of [env] is what the parser gives on the first
    chunk. *)
Definition parsed_by_parser (env : Env) : Prop :=
  match first_chunk env with
  | Some http_data =>
      match _parse_http_request http_data with
      | inr x => parsed env = Ok x
      | inl _ => exists e, parsed env = Raise e
      end
  | None => True
  end.

(** The relay loops of [env] that end in an exception. *)
Definition pipe_errors (env : Env) : nat :=
  (match out_end env with PipeError => 1 | _ => 0 end) +
  (match in_end env with PipeError => 1 | _ => 0 end).

(** What the origin may receive for the first TLS payload [head + data]:
    the payload as it is, or records whose payloads make up [data], each
    written on its own or all in one write. *)
Definition first_payload (head data : bytes) (writes : list bytes) : Prop :=
  writes = [head ++ data] \/
  exists parts payloads,
    parts <> [] /\ (writes = parts \/ writes = [concat parts]) /\
    Forall2 is_record payloads parts /\ concat payloads = data.

(** The access record [_run_pipes] writes for a connection. *)
Definition access_line (c : ConnectionInfo.t) : string :=
  ConnectionInfo.start_time c +:+ " " +:+ ConnectionInfo.src_ip c
  +:+ " " +:+ ConnectionInfo.method c
  +:+ " " +:+ ConnectionInfo.dst_domain c
  +:+ " " +:+ Str.of_nat (ConnectionInfo.traffic_in c)
  +:+ " " +:+ Str.of_nat (ConnectionInfo.traffic_out c).

(** The object registered under [conn_key], if any. *)
Definition registered (conn_key : option (string * Z)) (w : world)
  : option ConnectionInfo.t :=
  k ← conn_key; r ← active_connections w !! k; objects w !! r.

(** The failure count of the domain of [c] after a completed relay: one
    less, not below zero; a domain without a count gets none. *)
Definition forgiven (c : option ConnectionInfo.t) (f : gmap string nat) : gmap string nat :=
  match c with
  | Some c =>
      match f !! ConnectionInfo.dst_domain c with
      | Some n => <[ConnectionInfo.dst_domain c := n - 1]> f
      | None => f
      end
  | None => f
  end.



(** The entry [load_blacklist] makes of a line of the file, [None] for a
    line it passes over. *)
Definition entry (line : string) : option string :=
  let s := Str.strip line in
  if decide (String.length s < 2) then None
  else if Str.startswith s "#" then None
  else Some (Str.replace (Str.lower s) "www." "").

(** [sub] occurs somewhere in [s]. *)
Definition occurs_in (sub s : string) : Prop :=
  exists pre post, s = pre +:+ sub +:+ post.

(** The line [check_domain] appends to the blacklist file for [dec]. *)
Definition line_of (dec : string) : string := dec +:+ String "010"%char "".

(** Every probe of the trace could append to the file. *)
Definition file_writable (tr : list AutoBlacklistManager.event) : Prop :=
  forall task o file_ok,
    AutoBlacklistManager.Resume task o file_ok ∈ tr -> file_ok = true.

(** The lines appended so far are those of blocked domains, each once. *)
Definition file_sound (m : AutoBlacklistManager.t) : Prop :=
  NoDup (AutoBlacklistManager.blacklist_file m) /\
  forall line, line ∈ AutoBlacklistManager.blacklist_file m ->
    exists dec, dec ∈ AutoBlacklistManager._blocked_set m /\ line = line_of dec.

(** Every blocked domain has its line in the file. *)
Definition file_complete (m : AutoBlacklistManager.t) : Prop :=
  forall dec, dec ∈ AutoBlacklistManager._blocked_set m ->
    line_of dec ∈ AutoBlacklistManager.blacklist_file m.

(** A CONNECT to [blocked.test] that goes through: the client then sends a
    first TLS payload of 5 + 3 bytes and 4 more bytes, and the origin
    answers with 6. *)
Definition env_tunnel : Env :=
  {| peername := Some ("10.0.0.1", 5000%Z);
     first_chunk := Some (connect_request "blocked.test");
     parsed := Ok (CONNECT, String.list_byte_of_string "blocked.test", 443%Z);
     now := "2024-01-01 00:00:00";
     probe := ProbeOk;
     probe_file_ok := true;
     connect_ok := true;
     established_ok := true;
     tls_reads := Some ([x16; x03; x01; x00; x03], [x01; x02; x03]);
     tls_fail_at := None;
     http_write_ok := true;
     out_chunks := [String.list_byte_of_string "ping"];
     out_end := PipeEOF;
     in_chunks := [String.list_byte_of_string "answer"];
     in_end := PipeEOF;
     error_write_ok := true |}.


(** The random method with no rule and no error log. *)
Definition cfg_random : ProxyConfig :=
  {| fragment_method := "random"; rules := []; log_error_file := false |}.

(** A handler without blacklist that has seen [blocked.test] fail twice. *)
Definition world_two_failures : world :=
  mk_world Statistics.init ∅ 0 ∅ {[ "blocked.test" := 2 ]} NoBlacklist (fun i => i)
    [] [] [] [].


(* ===================================================================== *)
(** * Verification *)
(* ===================================================================== *)

(** ** Sequences *)

Section SequenceFacts.
Context {A : Type} `{EqDecision A}.
Implicit Types l p s sub : list A.

Lemma starts_with_spec p l : starts_with p l = true <-> exists r, l = p ++ r.
Proof.
  revert l; induction p as [|a p IH]; intros l; simpl.
  - split; eauto.
  - destruct l as [|b l].
    + split; [discriminate | intros [r Hr]; discriminate].
    + destruct (decide (a = b)) as [->|Hne].
      * rewrite IH. split.
        -- intros [r ->]. by exists r.
        -- intros [r Hr]. exists r. by simplify_eq/=.
      * split; [discriminate | intros [r Hr]; simplify_eq/=].
Qed.

Lemma find_at_ge sub l i q : find_at sub l i = Some q -> i <= q.
Proof.
  revert i; induction l as [|a l IH]; intros i; simpl.
  - destruct (starts_with sub []); intros; simplify_eq; lia.
  - destruct (starts_with sub (a :: l)); intros Hq; simplify_eq; [lia|].
    apply IH in Hq. lia.
Qed.

Lemma find_at_lt sub l i q :
  sub <> [] -> find_at sub l i = Some q -> q < i + length l.
Proof.
  intros Hs. revert i; induction l as [|a l IH]; intros i; simpl.
  - destruct sub; [done|]. simpl. discriminate.
  - destruct (starts_with sub (a :: l)); intros Hq; simplify_eq; [lia|].
    apply IH in Hq. lia.
Qed.

Lemma find_from_ge sub l start q : find_from sub l start = Some q -> start <= q.
Proof. apply find_at_ge. Qed.

Lemma find_from_lt sub l start q :
  sub <> [] -> find_from sub l start = Some q -> q < length l.
Proof.
  intros Hs Hq. unfold find_from in Hq.
  pose proof (find_at_ge _ _ _ _ Hq).
  apply find_at_lt in Hq; [|done]. rewrite length_drop in Hq. lia.
Qed.

Lemma find_from_nil sub start : sub <> [] -> find_from sub [] start = None.
Proof.
  intros Hs. unfold find_from. rewrite drop_nil. simpl.
  destruct sub; [done|reflexivity].
Qed.

Lemma slice_split (a b : nat) l :
  a <= b -> take a l ++ slice a b l ++ drop b l = l.
Proof.
  intros Hab. unfold slice.
  replace (drop b l) with (drop (b - a) (drop a l)).
  - by rewrite take_drop, take_drop.
  - rewrite drop_drop. f_equal. lia.
Qed.
End SequenceFacts.

(** ** The fragmenter *)

Lemma nat_of_byte_of_nat (k : nat) : k < 256 -> nat_of_byte (byte_of_nat k) = k.
Proof.
  intros Hk. unfold nat_of_byte, byte_of_nat.
  pose proof (Byte.to_of_N_option_map (N.of_nat k)) as Hm.
  destruct (N.leb_spec (N.of_nat k) 255) as [_|Hgt]; [|lia].
  destruct (Byte.of_N (N.of_nat k)) as [y|]; simpl in *; [|discriminate].
  injection Hm as ->. lia.
Qed.

Lemma record_ok (payload : bytes) :
  (Z.of_nat (length payload) < 65536)%Z ->
  exists r, record (length payload) payload = Ok r /\ is_record payload r.
Proof.
  intros Hlen. unfold record, to_bytes2.
  destruct (decide (Z.of_nat (length payload) < 65536)%Z) as [_|Hn]; [|lia].
  simpl. eexists; split; [reflexivity|].
  exists (byte_of_nat (length payload / 256)), (byte_of_nat (length payload mod 256)).
  split; [reflexivity|].
  assert (length payload / 256 < 256).
  { apply Nat.Div0.div_lt_upper_bound. lia. }
  assert (length payload mod 256 < 256) by (apply Nat.mod_upper_bound; lia).
  rewrite !nat_of_byte_of_nat by done.
  pose proof (Nat.div_mod_eq (length payload) 256). lia.
Qed.

Lemma sni_scan_spec (fuel : nat) (data : bytes) (pos : option nat) :
  (forall p, pos = Some p -> length data <= fuel + p) ->
  exists r, sni_scan fuel data pos = Ok r /\
    match r with
    | Some (s, e) =>
        9 <= s <= length data /\
        e = s + Z.to_nat (int_from_bytes (slice (s - 2) s data))
    | None => True
    end.
Proof.
  revert pos. induction fuel as [|fuel IH]; intros pos Hfuel.
  - destruct pos as [p|]; simpl; [|by exists None].
    destruct (decide (p + 9 <= length data)) as [Hp|Hp]; [|by exists None].
    specialize (Hfuel p eq_refl). lia.
  - destruct pos as [p|]; simpl; [|by exists None].
    destruct (decide (p + 9 <= length data)) as [Hp|Hp]; [|by exists None].
    destruct (decide _) as [Hacc|Hrej].
    + eexists; split; [reflexivity|]. simpl. split; [lia|].
      by replace (p + 9 - 2) with (p + 7) by lia.
    + apply IH. intros q Hq. apply find_from_ge in Hq.
      specialize (Hfuel p eq_refl). lia.
Qed.

Lemma _extract_sni_position_spec (data : bytes) :
  exists r, _extract_sni_position data = Ok r /\
    match r with
    | Some (s, e) =>
        9 <= s <= length data /\
        e = s + Z.to_nat (int_from_bytes (slice (s - 2) s data))
    | None => True
    end.
Proof. apply sni_scan_spec. intros; lia. Qed.

Lemma split_loop_S (fuel : nat) (data : bytes) (idx : nat) (parts : list bytes) :
  split_loop (S fuel) data idx parts =
  if decide (idx < length data) then
    let n := 32 `min` (length data - idx) in
    let* r := record n (slice idx (idx + n) data) in
    split_loop fuel data (idx + n) (parts ++ [r])
  else Ok parts.
Proof. reflexivity. Qed.

Lemma split_loop_ok (fuel : nat) (data : bytes) (idx : nat) (parts : list bytes) :
  length data - idx <= fuel ->
  (Z.of_nat (length data) < 65536)%Z ->
  exists ps payloads,
    split_loop fuel data idx parts = Ok (parts ++ ps) /\
    Forall2 is_record payloads ps /\
    concat payloads = drop idx data /\
    (data = [] -> ps = []).
Proof.
  intros Hfuel Hlen. revert idx parts Hfuel.
  induction fuel as [|fuel IH]; intros idx parts Hfuel.
  - simpl. destruct (decide (idx < length data)) as [Hi|Hi]; [lia|].
    exists [], []. rewrite app_nil_r, drop_ge by lia. by repeat split.
  - rewrite split_loop_S. destruct (decide (idx < length data)) as [Hi|Hi].
    + cbv zeta. set (n := 32 `min` (length data - idx)).
      assert (Hn : length (slice idx (idx + n) data) = n).
      { unfold slice. rewrite length_take, length_drop. lia. }
      destruct (record_ok (slice idx (idx + n) data)) as (r & Hr & Hrec).
      { rewrite Hn. lia. }
      rewrite Hn in Hr. rewrite Hr. cbn [rbind].
      destruct (IH (idx + n) (parts ++ [r])) as (ps & pl & Hps & Hall & Hcat & _).
      { lia. }
      exists (r :: ps), (slice idx (idx + n) data :: pl).
      rewrite Hps, <- app_assoc. split; [done|]. split; [by constructor|].
      split.
      * simpl. rewrite Hcat. unfold slice.
        replace (idx + n - idx) with n by lia.
        replace (drop (idx + n) data) with (drop n (drop idx data)).
        -- apply take_drop.
        -- rewrite drop_drop. done.
      * intros ->. simpl in Hi. lia.
    + exists [], []. rewrite app_nil_r, drop_ge by lia. by repeat split.
Qed.

Lemma random_loop_ok (fuel : nat) (g : RNG) (data : bytes) (parts : list bytes) :
  length data <= fuel ->
  (Z.of_nat (length data) < 65536)%Z ->
  exists ps g' payloads,
    random_loop fuel g data parts = Ok (parts ++ ps, [], g') /\
    Forall2 is_record payloads ps /\
    concat payloads = data /\
    (data = [] -> ps = []).
Proof.
  revert g data parts. induction fuel as [|fuel IH]; intros g data parts Hfuel Hlen.
  - destruct data; simpl in *; [|lia].
    exists [], g, []. rewrite app_nil_r. by repeat split.
  - destruct data as [|b data'] eqn:Hd.
    { simpl. exists [], g, []. rewrite app_nil_r. by repeat split. }
    rewrite <- Hd in *. assert (Hpos : 0 < length data) by (subst; simpl; lia).
    assert (Hstep : random_loop (S fuel) g data parts =
      (let* (n, g') := randrange g 1 (length data + 1) in
       let* r := record n (take n data) in
       random_loop fuel g' (drop n data) (parts ++ [r]))).
    { subst data. reflexivity. }
    rewrite Hstep. clear Hstep. unfold randrange.
    destruct (decide (1 < length data + 1)) as [_|Hn]; [|lia]. cbn [rbind].
    set (n := 1 + g 0 mod (length data + 1 - 1)).
    assert (Hn : 1 <= n <= length data).
    { subst n. replace (length data + 1 - 1) with (length data) by lia.
      pose proof (Nat.mod_upper_bound (g 0) (length data)). lia. }
    assert (Hln : length (take n data) = n) by (rewrite length_take; lia).
    destruct (record_ok (take n data)) as (r & Hr & Hrec); [lia|].
    rewrite Hln in Hr. rewrite Hr. cbn [rbind].
    destruct (IH (fun i => g (S i)) (drop n data) (parts ++ [r]))
      as (ps & g' & pl & Hps & Hall & Hcat & _).
    { rewrite length_drop. lia. }
    { rewrite length_drop. lia. }
    exists (r :: ps), g', (take n data :: pl).
    rewrite Hps, <- app_assoc. split; [done|]. split; [by constructor|].
    split; [|by subst data].
    simpl. rewrite Hcat. apply take_drop.
Qed.

Lemma sni_pieces_concat (data : bytes) (s e : nat) :
  s <= e -> concat (sni_pieces data s e) = data.
Proof.
  intros Hse. unfold sni_pieces. simpl. rewrite app_nil_r.
  rewrite (app_assoc (take _ (slice s e data))), take_drop.
  by apply slice_split.
Qed.

Lemma records_ok (payloads : list bytes) :
  Forall (fun p => (Z.of_nat (length p) < 65536)%Z) payloads ->
  exists parts,
    Forall2 is_record payloads parts /\
    Forall2 (fun p r => record (length p) p = Ok r) payloads parts.
Proof.
  induction 1 as [|p ps Hp _ (parts & H1 & H2)].
  - exists []. split; constructor.
  - destruct (record_ok p Hp) as (r & Hr & Hrec).
    exists (r :: parts). split; by constructor.
Qed.

Lemma fragment_sni_found (g : RNG) (data : bytes) (s e : nat) :
  (Z.of_nat (length data) < 65536)%Z ->
  _extract_sni_position data = Ok (Some (s, e)) ->
  exists parts,
    fragment "sni" g data = Ok (parts, data, "sni", g) /\
    Forall2 is_record (sni_pieces data s e) parts.
Proof.
  intros Hlen Hpos.
  destruct (records_ok (sni_pieces data s e)) as (parts & Hrec & Hok).
  { unfold sni_pieces. cbv zeta.
    generalize ((length (slice s e data) + 1) / 2). intros m. unfold slice.
    repeat (apply Forall_cons_2; [rewrite ?length_drop, ?length_take, ?length_drop; lia|]).
    apply Forall_nil_2. }
  exists parts. split; [|done].
  unfold sni_pieces in Hok.
  apply Forall2_cons_inv_l in Hok as (r1 & t1 & H1 & Hok & ->).
  apply Forall2_cons_inv_l in Hok as (r2 & t2 & H2 & Hok & ->).
  apply Forall2_cons_inv_l in Hok as (r3 & t3 & H3 & Hok & ->).
  apply Forall2_cons_inv_l in Hok as (r4 & t4 & H4 & Hok & ->).
  apply Forall2_nil_inv_l in Hok as ->.
  unfold fragment. rewrite decide_True by done. rewrite Hpos. cbn [rbind].
  cbv zeta. rewrite H1, H2, H3, H4. cbn [rbind].
  rewrite decide_False by (intros [?|?]; discriminate). cbn [rbind].
  rewrite decide_True by auto. done.
Qed.

Lemma fragment_sni_fallback (g : RNG) (data : bytes) :
  _extract_sni_position data = Ok None ->
  fragment "sni" g data = fragment "split" g data.
Proof.
  intros Hpos. unfold fragment.
  rewrite decide_True by done. rewrite Hpos. cbn [rbind].
  rewrite (decide_False (P := "split" = "sni")) by discriminate. done.
Qed.

Lemma fragment_split (method : string) (g : RNG) (data : bytes) :
  (Z.of_nat (length data) < 65536)%Z ->
  method = "split" \/ method = "split-jitter" ->
  exists parts payloads,
    fragment method g data = Ok (parts, data, method, g) /\
    Forall2 is_record payloads parts /\
    concat payloads = data /\
    (data = [] -> parts = []).
Proof.
  intros Hlen Hm.
  destruct (split_loop_ok (length data) data 0 [] ltac:(lia) Hlen)
    as (ps & pl & Hps & Hrec & Hcat & Hnil).
  exists ps, pl. unfold fragment.
  rewrite decide_False by (destruct Hm as [-> | ->]; discriminate). cbn [rbind].
  rewrite decide_True by done. rewrite Hps. cbn [rbind].
  rewrite decide_True by tauto. done.
Qed.

Lemma fragment_random (method : string) (g : RNG) (data : bytes) :
  (Z.of_nat (length data) < 65536)%Z ->
  method <> "sni" -> method <> "split" -> method <> "split-jitter" ->
  exists parts g' payloads,
    fragment method g data = Ok (parts, [], method, g') /\
    Forall2 is_record payloads parts /\
    concat payloads = data /\
    (data = [] -> parts = []).
Proof.
  intros Hlen H1 H2 H3. unfold fragment.
  rewrite decide_False by done. cbn [rbind].
  rewrite decide_False by tauto. cbn [rbind].
  rewrite decide_False by tauto.
  destruct (find_from [x00] data 0) as [h|] eqn:Hfind; cbv zeta.
  - assert (Hh : h < length data) by (eapply find_from_lt; [|done]; done).
    assert (Hl : length (take (h + 1) data) = h + 1) by (rewrite length_take; lia).
    destruct (record_ok (take (h + 1) data)) as (r & Hr & Hrec); [lia|].
    rewrite Hl in Hr. rewrite Hr. cbn [rbind].
    destruct (random_loop_ok (length (drop (h + 1) data)) g (drop (h + 1) data) ([] ++ [r]))
      as (ps & g' & pl & Hps & Hall & Hcat & _).
    { done. } { rewrite length_drop. lia. }
    rewrite Hps. cbn [rbind].
    exists (([] ++ [r]) ++ ps), g', (take (h + 1) data :: pl).
    split; [done|]. split; [by constructor|]. split.
    + simpl. rewrite Hcat. apply take_drop.
    + intros ->. simpl in Hh. lia.
  - cbn [rbind].
    destruct (random_loop_ok (length data) g data []) as (ps & g' & pl & Hps & Hall & Hcat & Hnil);
      [done..|].
    rewrite Hps. cbn [rbind]. exists ([] ++ ps), g', pl. done.
Qed.

(** C1. Whatever the method, the fragmenter turns the first TLS payload
    [data] (read with [read(2048)]) into records 16 03 04 LL LL payload whose
    payloads, concatenated in order, are [data]; for an empty [data] it
    produces no record and the caller writes [head + data] as it is. *)
Theorem fragment_preserves_data (method : string) (g : RNG) (data : bytes) :
  length data <= 2048 ->
  exists parts rest method' g' payloads,
    fragment method g data = Ok (parts, rest, method', g') /\
    Forall2 is_record payloads parts /\
    concat payloads = data /\
    (data = [] ->
     parts = [] /\ forall head, tls_writes method' parts head rest = [head ++ data]).
Proof.
  intros Hlen.
  assert (Hz : (Z.of_nat (length data) < 65536)%Z) by lia.
  destruct (decide (method = "sni")) as [->|Hsni].
  - destruct (_extract_sni_position_spec data) as ([[s e]|] & Hpos & Hr).
    + destruct (fragment_sni_found g data s e Hz Hpos) as (parts & Hf & Hrec).
      exists parts, data, "sni", g, (sni_pieces data s e).
      split; [done|]. split; [done|]. split.
      * apply sni_pieces_concat. lia.
      * intros ->. simpl in Hr. lia.
    + rewrite (fragment_sni_fallback g data Hpos).
      destruct (fragment_split "split" g data Hz) as (parts & pl & Hf & Hrec & Hcat & Hnil);
        [by left|].
      exists parts, data, "split", g, pl. repeat split; try done.
      * by apply Hnil.
      * intros head. rewrite (Hnil H). done.
  - destruct (decide (method = "split" \/ method = "split-jitter")) as [Hm|Hm].
    + destruct (fragment_split method g data Hz Hm) as (parts & pl & Hf & Hrec & Hcat & Hnil).
      exists parts, data, method, g, pl. repeat split; try done.
      * by apply Hnil.
      * intros head. rewrite (Hnil H). done.
    + destruct (fragment_random method g data Hz) as (parts & g' & pl & Hf & Hrec & Hcat & Hnil);
        [tauto..|].
      exists parts, [], method, g', pl. repeat split; try done.
      * by apply Hnil.
      * intros head. rewrite (Hnil H). by rewrite H.
Qed.

Lemma fragment_preserves_data_witness :
  exists parts rest method' g' payloads,
    fragment "random" (fun i => i) [x01; x00; x02; x03] = Ok (parts, rest, method', g') /\
    Forall2 is_record payloads parts /\
    concat payloads = [x01; x00; x02; x03] /\
    ([x01; x00; x02; x03] = [] ->
     parts = [] /\
     forall head, tls_writes method' parts head rest = [head ++ [x01; x00; x02; x03]]).
Proof.
  apply (fragment_preserves_data "random" (fun i => i) [x01; x00; x02; x03]).
  simpl. lia.
Defined.

(** The fragmenter returns on every payload [read(2048)] can give. *)
Lemma fragment_returns (method : string) (g : RNG) (data : bytes) :
  length data <= 2048 ->
  exists parts rest method' g' payloads,
    fragment method g data = Ok (parts, rest, method', g') /\
    Forall2 is_record payloads parts /\
    concat payloads = data /\
    (rest = data \/ rest = []).
Proof.
  intros Hlen.
  assert (Hz : (Z.of_nat (length data) < 65536)%Z) by lia.
  destruct (decide (method = "sni")) as [->|Hsni].
  - destruct (_extract_sni_position_spec data) as ([[s e]|] & Hpos & Hr).
    + destruct (fragment_sni_found g data s e Hz Hpos) as (parts & Hf & Hrec).
      exists parts, data, "sni", g, (sni_pieces data s e).
      split; [done|]. split; [done|]. split; [|by left]. apply sni_pieces_concat. lia.
    + rewrite (fragment_sni_fallback g data Hpos).
      destruct (fragment_split "split" g data Hz) as (parts & pl & Hf & Hrec & Hcat & _);
        [by left|].
      exists parts, data, "split", g, pl. auto.
  - destruct (decide (method = "split" \/ method = "split-jitter")) as [Hm|Hm].
    + destruct (fragment_split method g data Hz Hm) as (parts & pl & Hf & Hrec & Hcat & _).
      exists parts, data, method, g, pl. auto.
    + destruct (fragment_random method g data Hz) as (parts & g' & pl & Hf & Hrec & Hcat & _);
        [tauto..|].
      exists parts, [], method, g', pl. auto.
Qed.

Lemma int_from_bytes_nonneg (b : bytes) : (0 <= int_from_bytes b)%Z.
Proof.
  unfold int_from_bytes.
  assert (H : forall acc, (0 <= acc)%Z ->
    (0 <= fold_left (fun acc x => (acc * 256 + Z.of_nat (nat_of_byte x))%Z) b acc)%Z).
  { induction b as [|x b IH]; intros acc Hacc; simpl; [done|]. apply IH. lia. }
  by apply H.
Qed.

Lemma is_record_payload (p q r : bytes) : is_record p r -> is_record q r -> p = q.
Proof.
  intros (h1 & l1 & -> & _) (h2 & l2 & Heq & _). by simplify_eq/=.
Qed.

(** C5, as the code has it. When the scan accepts a position whose name
    length field is n > 0, the sni method emits exactly four records: the
    bytes before the name, the first half and the second half of the name
    bytes present in [data], and the bytes after the name. The halves have
    ceil(m/2) and floor(m/2) bytes for m = min(n, len(data) - start); m is n
    as soon as the whole name lies within [data]. *)
Theorem sni_four_records (g : RNG) (data : bytes) (s e : nat) :
  length data <= 2048 ->
  _extract_sni_position data = Ok (Some (s, e)) ->
  0 < e - s ->
  let n := e - s in
  let m := n `min` (length data - s) in
  let sni := slice s e data in
  Z.of_nat n = int_from_bytes (slice (s - 2) s data) /\
  (s + n <= length data -> m = n) /\
  length (take ((m + 1) / 2) sni) = (m + 1) / 2 /\
  length (drop ((m + 1) / 2) sni) = m / 2 /\
  exists r1 r2 r3 r4,
    fragment "sni" g data = Ok ([r1; r2; r3; r4], data, "sni", g) /\
    is_record (take s data) r1 /\
    is_record (take ((m + 1) / 2) sni) r2 /\
    is_record (drop ((m + 1) / 2) sni) r3 /\
    is_record (drop e data) r4.
Proof.
  intros Hlen Hpos Hn n m sni.
  destruct (_extract_sni_position_spec data) as (r & Hr & Hspec).
  rewrite Hpos in Hr. injection Hr as <-. destruct Hspec as [Hs He].
  assert (Hsni : length sni = m).
  { subst sni m n. unfold slice. rewrite length_take, length_drop. lia. }
  assert (Hhalf : (m + 1) / 2 + m / 2 = m).
  { pose proof (Nat.div_mod_eq (m + 1) 2). pose proof (Nat.div_mod_eq m 2).
    pose proof (Nat.mod_upper_bound (m + 1) 2). pose proof (Nat.mod_upper_bound m 2).
    lia. }
  split.
  { pose proof (int_from_bytes_nonneg (slice (s - 2) s data)). subst n. lia. }
  split; [subst m n; lia|].
  split; [rewrite length_take; lia|].
  split; [rewrite length_drop; lia|].
  destruct (fragment_sni_found g data s e ltac:(lia) Hpos) as (parts & Hf & Hrec).
  unfold sni_pieces in Hrec. fold sni in Hrec. rewrite Hsni in Hrec.
  apply Forall2_cons_inv_l in Hrec as (r1 & t1 & H1 & Hrec & ->).
  apply Forall2_cons_inv_l in Hrec as (r2 & t2 & H2 & Hrec & ->).
  apply Forall2_cons_inv_l in Hrec as (r3 & t3 & H3 & Hrec & ->).
  apply Forall2_cons_inv_l in Hrec as (r4 & t4 & H4 & Hrec & ->).
  apply Forall2_nil_inv_l in Hrec as ->.
  by exists r1, r2, r3, r4.
Qed.

Lemma truncated_hello_position :
  _extract_sni_position truncated_hello = Ok (Some (9, 14)).
Proof. reflexivity. Qed.

Lemma sni_four_records_witness :
  let n := 14 - 9 in
  let m := n `min` (length truncated_hello - 9) in
  let sni := slice 9 14 truncated_hello in
  Z.of_nat n = int_from_bytes (slice (9 - 2) 9 truncated_hello) /\
  (9 + n <= length truncated_hello -> m = n) /\
  length (take ((m + 1) / 2) sni) = (m + 1) / 2 /\
  length (drop ((m + 1) / 2) sni) = m / 2 /\
  exists r1 r2 r3 r4,
    fragment "sni" (fun i => i) truncated_hello =
      Ok ([r1; r2; r3; r4], truncated_hello, "sni", fun i => i) /\
    is_record (take 9 truncated_hello) r1 /\
    is_record (take ((m + 1) / 2) sni) r2 /\
    is_record (drop ((m + 1) / 2) sni) r3 /\
    is_record (drop 14 truncated_hello) r4.
Proof.
  apply (sni_four_records (fun i => i) truncated_hello 9 14).
  - simpl. lia.
  - reflexivity.
  - lia.
Defined.

(** C5 as stated fails: the accepted position of [truncated_hello] has the
    name length 5, yet the two middle records carry one byte each, not
    ceil(5/2) = 3 and floor(5/2) = 2. *)
Lemma sni_halves_counterexample :
  _extract_sni_position truncated_hello = Ok (Some (9, 9 + 5)) /\
  fragment "sni" (fun i => i) truncated_hello =
    Ok ([ [x16; x03; x04; x00; x09; x00; x00; x00; x0a; x00; x08; x00; x00; x05];
          [x16; x03; x04; x00; x01; x61];
          [x16; x03; x04; x00; x01; x62];
          [x16; x03; x04; x00; x00] ],
        truncated_hello, "sni", fun i => i) /\
  ~ (exists p2 : bytes,
       is_record p2 [x16; x03; x04; x00; x01; x61] /\ length p2 = (5 + 1) / 2).
Proof.
  split; [reflexivity|]. split; [reflexivity|].
  intros (p2 & (hi & lo & Heq & _) & Hlen).
  simplify_eq/=.
Qed.

(** C6, as the code has it. A candidate whose name length field is 0 and
    whose two length equations hold is accepted like any other: the sni
    method emits four records, the two middle ones with an empty payload.
    The method falls back to split exactly when the scan accepts no
    position. *)
Theorem sni_zero_length_name (g : RNG) (data : bytes) :
  length data <= 2048 ->
  (forall s, _extract_sni_position data = Ok (Some (s, s)) ->
     int_from_bytes (slice (s - 2) s data) = 0%Z /\
     exists r1 r4,
       fragment "sni" g data = Ok ([r1; empty_record; empty_record; r4], data, "sni", g) /\
       is_record (take s data) r1 /\
       is_record (drop s data) r4) /\
  (_extract_sni_position data = Ok None ->
     fragment "sni" g data = fragment "split" g data) /\
  (forall s e, _extract_sni_position data = Ok (Some (s, e)) ->
     exists parts, fragment "sni" g data = Ok (parts, data, "sni", g) /\ length parts = 4).
Proof.
  intros Hlen. split; [|split].
  - intros s Hpos.
    destruct (_extract_sni_position_spec data) as (r & Hr & Hspec).
    rewrite Hpos in Hr. injection Hr as <-. destruct Hspec as [Hs He].
    split.
    { pose proof (int_from_bytes_nonneg (slice (s - 2) s data)). lia. }
    destruct (fragment_sni_found g data s s ltac:(lia) Hpos) as (parts & Hf & Hrec).
    unfold sni_pieces, slice in Hrec.
    replace (s - s) with 0 in Hrec by lia. simpl in Hrec.
    apply Forall2_cons_inv_l in Hrec as (r1 & t1 & H1 & Hrec & ->).
    apply Forall2_cons_inv_l in Hrec as (r2 & t2 & H2 & Hrec & ->).
    apply Forall2_cons_inv_l in Hrec as (r3 & t3 & H3 & Hrec & ->).
    apply Forall2_cons_inv_l in Hrec as (r4 & t4 & H4 & Hrec & ->).
    apply Forall2_nil_inv_l in Hrec as ->.
    assert (Hempty : forall r, is_record [] r -> r = empty_record).
    { intros r (hi & lo & -> & Hl). simpl in Hl.
      assert (nat_of_byte hi = 0) as Hhi by lia.
      assert (nat_of_byte lo = 0) as Hlo by lia.
      unfold nat_of_byte in Hhi, Hlo.
      assert (Byte.to_N hi = Byte.to_N x00) as Ehi by (simpl; lia).
      assert (Byte.to_N lo = Byte.to_N x00) as Elo by (simpl; lia).
      apply (f_equal Byte.of_N) in Ehi, Elo. rewrite !Byte.of_to_N in Ehi, Elo.
      by simplify_eq. }
    rewrite (Hempty _ H2), (Hempty _ H3) in Hf.
    by exists r1, r4.
  - apply fragment_sni_fallback.
  - intros s e Hpos.
    destruct (fragment_sni_found g data s e ltac:(lia) Hpos) as (parts & Hf & Hrec).
    exists parts. split; [done|].
    apply Forall2_length in Hrec. by rewrite <- Hrec.
Qed.

Lemma sni_zero_length_name_witness :
  (forall s, _extract_sni_position zero_name_hello = Ok (Some (s, s)) ->
     int_from_bytes (slice (s - 2) s zero_name_hello) = 0%Z /\
     exists r1 r4,
       fragment "sni" (fun i => i) zero_name_hello =
         Ok ([r1; empty_record; empty_record; r4], zero_name_hello, "sni", fun i => i) /\
       is_record (take s zero_name_hello) r1 /\
       is_record (drop s zero_name_hello) r4) /\
  (_extract_sni_position zero_name_hello = Ok None ->
     fragment "sni" (fun i => i) zero_name_hello = fragment "split" (fun i => i) zero_name_hello) /\
  (forall s e, _extract_sni_position zero_name_hello = Ok (Some (s, e)) ->
     exists parts,
       fragment "sni" (fun i => i) zero_name_hello = Ok (parts, zero_name_hello, "sni", fun i => i) /\
       length parts = 4).
Proof.
  apply (sni_zero_length_name (fun i => i) zero_name_hello). simpl. lia.
Defined.

(** C6 as stated fails: the only candidate of [zero_name_hello] has the
    name length 0, and the sni method still emits four records around an
    empty name where split emits one record. *)
Lemma sni_zero_length_counterexample :
  _extract_sni_position zero_name_hello = Ok (Some (9, 9 + 0)) /\
  fragment "sni" (fun i => i) zero_name_hello =
    Ok ([ [x16; x03; x04; x00; x09; x00; x00; x00; x05; x00; x03; x00; x00; x00];
          [x16; x03; x04; x00; x00];
          [x16; x03; x04; x00; x00];
          [x16; x03; x04; x00; x00] ],
        zero_name_hello, "sni", fun i => i) /\
  fragment "split" (fun i => i) zero_name_hello =
    Ok ([ [x16; x03; x04; x00; x09; x00; x00; x00; x05; x00; x03; x00; x00; x00] ],
        zero_name_hello, "split", fun i => i).
Proof. split; [reflexivity|]. split; reflexivity. Qed.

(** ** Strings *)

Lemma of_chars_chars (s : string) : Str.of_chars (Str.chars s) = s.
Proof. apply String.string_of_list_ascii_of_string. Qed.

Lemma chars_of_chars (l : list ascii) : Str.chars (Str.of_chars l) = l.
Proof. apply String.list_ascii_of_string_of_list_ascii. Qed.

Lemma chars_app (a b : string) : Str.chars (a +:+ b) = Str.chars a ++ Str.chars b.
Proof. induction a as [|c a IH]; simpl; [done|]. by rewrite <- IH. Qed.

Lemma of_chars_app (l1 l2 : list ascii) :
  Str.of_chars (l1 ++ l2) = Str.of_chars l1 +:+ Str.of_chars l2.
Proof.
  rewrite <- (of_chars_chars (Str.of_chars l1 +:+ Str.of_chars l2)).
  by rewrite chars_app, !chars_of_chars.
Qed.

Lemma chars_inj (a b : string) : Str.chars a = Str.chars b -> a = b.
Proof. intros H. by rewrite <- (of_chars_chars a), H, of_chars_chars. Qed.

Lemma ends_with_spec {A : Type} `{EqDecision A} (s l : list A) :
  ends_with s l = true <-> exists u, l = u ++ s.
Proof.
  unfold ends_with. rewrite bool_decide_eq_true. split.
  - intros Hd. exists (take (length l - length s) l).
    transitivity (take (length l - length s) l ++ drop (length l - length s) l).
    + symmetry. apply take_drop.
    + by rewrite Hd.
  - intros [u ->]. rewrite length_app.
    replace (length u + length s - length s) with (length u) by lia.
    by rewrite drop_app_length.
Qed.

Lemma startswith_spec (s p : string) : Str.startswith s p = true <-> is_prefix p s.
Proof.
  unfold Str.startswith, is_prefix. rewrite starts_with_spec. split.
  - intros [r Hr]. exists (Str.of_chars r). apply chars_inj.
    by rewrite chars_app, chars_of_chars.
  - intros [r ->]. exists (Str.chars r). apply chars_app.
Qed.

Lemma endswith_spec (s suf : string) : Str.endswith s suf = true <-> is_suffix suf s.
Proof.
  unfold Str.endswith, is_suffix. rewrite ends_with_spec. split.
  - intros [u Hu]. exists (Str.of_chars u). apply chars_inj.
    by rewrite chars_app, chars_of_chars.
  - intros [u ->]. exists (Str.chars u). apply chars_app.
Qed.

Lemma from_1_cons (c : ascii) (s : string) : Str.from 1 (String c s) = s.
Proof. unfold Str.from. simpl. apply of_chars_chars. Qed.

Lemma app_assoc_str (a b c : string) : (a +:+ b) +:+ c = a +:+ (b +:+ c).
Proof. apply chars_inj. by rewrite !chars_app, app_assoc. Qed.

(** ** rules.py *)

Lemma _match_iff (pattern domain : string) :
  RuleEngine._match pattern domain = true <->
  pattern <> "" /\
  (pattern = domain \/
   (is_prefix "*." pattern /\ is_suffix (Str.from 1 pattern) domain) \/
   is_suffix ("." +:+ pattern) domain).
Proof.
  unfold RuleEngine._match.
  destruct (decide (pattern = "")) as [->|Hne].
  { split; [discriminate | by intros [? _]]. }
  destruct (Str.startswith pattern "*.") eqn:Hstar.
  - apply startswith_spec in Hstar. rewrite endswith_spec.
    destruct Hstar as [rest Hrest].
    assert (Hp : pattern = String "*" ("." +:+ rest)) by (by rewrite Hrest).
    clear Hrest. subst pattern. rewrite from_1_cons.
    split.
    + intros Hs. split; [done|]. right. left. split; [by exists rest | done].
    + intros [_ [<- | [[_ Hs] | [u ->]]]].
      * by exists "*".
      * done.
      * exists (u +:+ ".*"). by rewrite app_assoc_str.
  - rewrite orb_true_iff, bool_decide_eq_true, endswith_spec.
    split.
    + intros [-> | Hs]; (split; [done|]); [by left | by right; right].
    + intros [_ [-> | [[Hp _] | Hs]]]; [by left | | by right].
      apply startswith_spec in Hp. congruence.
Qed.

Lemma decide_loop_first_match (before after : list RuleEngine.rule)
    (rule : RuleEngine.rule) (d : string) :
  Forall (fun r => RuleEngine._match (rule_pattern r) d = false) before ->
  RuleEngine._match (rule_pattern rule) d = true ->
  RuleEngine.decide_loop (before ++ rule :: after) d = rule_verdict rule.
Proof.
  intros Hbefore Hrule. induction Hbefore as [|r before Hr _ IH]; simpl.
  - fold (rule_pattern rule). rewrite Hrule. done.
  - fold (rule_pattern r). rewrite Hr. done.
Qed.

Lemma decide_loop_no_match (rules : list RuleEngine.rule) (d : string) :
  Forall (fun r => RuleEngine._match (rule_pattern r) d = false) rules ->
  RuleEngine.decide_loop rules d = (None, None).
Proof.
  induction 1 as [|r rules Hr _ IH]; simpl; [done|].
  fold (rule_pattern r). by rewrite Hr.
Qed.

(** C4, as the code has it. The pattern [*.example.com] matches
    [foo.example.com] but not [example.com]; [example.com] matches itself
    and [sub.example.com]; [example] does not match [myexample.com]. A rule
    matches iff its pattern is not empty and one of: pattern = domain, the
    pattern starts with [*.] and the domain ends with [pattern[1:]], the
    domain ends with ["." + pattern]. The first rule of the list that matches
    the lowered domain decides; with no such rule the answer is (None, None). *)
Theorem rule_matching :
  RuleEngine._match "*.example.com" "foo.example.com" = true /\
  RuleEngine._match "*.example.com" "example.com" = false /\
  RuleEngine._match "example.com" "example.com" = true /\
  RuleEngine._match "example.com" "sub.example.com" = true /\
  RuleEngine._match "example" "myexample.com" = false /\
  (forall pattern domain,
     RuleEngine._match pattern domain = true <->
     pattern <> "" /\
     (pattern = domain \/
      (is_prefix "*." pattern /\ is_suffix (Str.from 1 pattern) domain) \/
      is_suffix ("." +:+ pattern) domain)) /\
  (forall before rule after domain,
     Forall (fun r => RuleEngine._match (rule_pattern r) (Str.lower domain) = false) before ->
     RuleEngine._match (rule_pattern rule) (Str.lower domain) = true ->
     RuleEngine.decide (before ++ rule :: after) domain = rule_verdict rule) /\
  (forall rules domain,
     Forall (fun r => RuleEngine._match (rule_pattern r) (Str.lower domain) = false) rules ->
     RuleEngine.decide rules domain = (None, None)).
Proof.
  do 5 (split; [reflexivity|]).
  split; [exact _match_iff|]. split.
  - intros before rule after domain Hbefore Hrule.
    by apply decide_loop_first_match.
  - intros rules domain Hnone. by apply decide_loop_no_match.
Qed.

(** C4 as stated fails: [*.example.com] does not match the bare
    [example.com], and the empty pattern matches nothing although the
    domain ["a."] ends with ["." + ""]. *)
Lemma wildcard_bare_domain_counterexample :
  RuleEngine._match "*.example.com" "example.com" = false /\
  Str.endswith "example.com" (Str.from 1 "*.example.com") = false /\
  RuleEngine._match "" "a." = false /\
  Str.endswith "a." ("." +:+ "") = true.
Proof. repeat split; reflexivity. Qed.

(** ** blacklist.py: the file-backed manager *)

Lemma load_line_set (self : FileBlacklistManager.t) (line d : string) :
  d ∈ FileBlacklistManager._blocked_set (FileBlacklistManager.load_line self line) <->
  d ∈ FileBlacklistManager._blocked_set self \/
  (kept_line line /\ d = Str.replace (Str.lower (Str.strip line)) "www." "").
Proof.
  unfold FileBlacklistManager.load_line, kept_line.
  destruct (decide (String.length (Str.strip line) < 2)) as [Hshort|Hlong].
  { split; [by left | intros [?|[[? _] _]]; [done|lia]]. }
  destruct (Str.startswith (Str.strip line) "#") eqn:Hhash.
  { split; [by left | intros [?|[[_ ?] _]]; [done|discriminate]]. }
  simpl. rewrite elem_of_union, elem_of_singleton.
  split.
  - intros [H|H]; [|by left]. right. split; [split; [lia|done] | done].
  - intros [H|[_ H]]; [by right | by left].
Qed.

Lemma load_blacklist_set (matching : string) (lines : list string) (d : string) :
  d ∈ FileBlacklistManager._blocked_set (FileBlacklistManager.load_blacklist matching lines) <->
  exists line, line ∈ lines /\ kept_line line /\
    d = Str.replace (Str.lower (Str.strip line)) "www." "".
Proof.
  unfold FileBlacklistManager.load_blacklist.
  assert (Hgen : forall acc,
    d ∈ FileBlacklistManager._blocked_set (fold_left FileBlacklistManager.load_line lines acc) <->
    d ∈ FileBlacklistManager._blocked_set acc \/
    exists line, line ∈ lines /\ kept_line line /\
      d = Str.replace (Str.lower (Str.strip line)) "www." "").
  { induction lines as [|l lines IH]; intros acc; simpl.
    - split; [by left | intros [?|(? & Hin & _)]; [done|by apply elem_of_nil in Hin]].
    - rewrite IH, load_line_set. split.
      + intros [[?|[? ?]]|(line & ? & ?)]; [by left | | ].
        * right. exists l. split; [by left|done].
        * right. exists line. split; [by right|done].
      + intros [?|(line & Hin & ?)]; [by left; left|].
        apply elem_of_cons in Hin as [->|Hin]; [left; by right | right; eauto]. }
  rewrite Hgen. simpl. split; [intros [H|H]; [by apply elem_of_empty in H|done] | by right].
Qed.

(** [split_on] and [join] are inverse, and the label suffixes of a list
    are what follows its separators. *)
Section SplitJoin.
Context {A : Type} `{EqDecision A}.

Lemma split_on_nonempty (sep : A) (l : list A) : split_on sep l <> [].
Proof.
  destruct l as [|a l]; simpl; [done|].
  destruct (decide (a = sep)); [done|]. by destruct (split_on sep l).
Qed.

Lemma join_split_on (sep : A) (l : list A) : join [sep] (split_on sep l) = l.
Proof.
  induction l as [|a l IH]; simpl; [done|].
  pose proof (split_on_nonempty sep l) as Hne.
  destruct (decide (a = sep)) as [->|Hne'].
  - destruct (split_on sep l) as [|w ws] eqn:Hs; [done|].
    change (join [sep] ([] :: w :: ws)) with ([] ++ [sep] ++ join [sep] (w :: ws)).
    by rewrite IH.
  - destruct (split_on sep l) as [|w ws] eqn:Hs; [done|].
    rewrite <- IH. destruct ws as [|w' ws]; [done|]. reflexivity.
Qed.

Lemma split_on_sep (sep : A) (l : list A) :
  split_on sep (sep :: l) = [] :: split_on sep l.
Proof. simpl. by rewrite decide_True. Qed.

Lemma split_on_other (a sep : A) (l w : list A) (ws : list (list A)) :
  a <> sep -> split_on sep l = w :: ws -> split_on sep (a :: l) = (a :: w) :: ws.
Proof. intros Hne Hs. simpl. by rewrite decide_False, Hs. Qed.

(** The joins of the proper label suffixes of [l] are the lists that follow
    a separator in [l]. *)
Lemma label_suffixes (sep : A) (l v : list A) :
  (exists i, 1 <= i < length (split_on sep l) /\ v = join [sep] (drop i (split_on sep l))) <->
  exists u, l = u ++ sep :: v.
Proof.
  revert v. induction l as [|a l IH]; intros v.
  - split.
    + intros (i & Hi & _). simpl in Hi. lia.
    + intros [u Hu]. by destruct u.
  - destruct (split_on sep l) as [|w ws] eqn:Hs; [by apply split_on_nonempty in Hs|].
    destruct (decide (a = sep)) as [->|Hne].
    + rewrite split_on_sep, Hs. split.
      * intros (i & Hi & ->). cbn [length] in Hi. destruct i as [|[|i]]; [lia| |].
        -- exists []. cbn [drop app]. by rewrite <- Hs, join_split_on.
        -- cbn [drop]. destruct (proj1 (IH (join [sep] (drop (S i) (w :: ws))))) as [u Hu].
           { exists (S i). split; [cbn [length]; lia|done]. }
           exists (sep :: u). by rewrite Hu.
      * intros [u Hu]. destruct u as [|b u]; cbn [app] in Hu; injection Hu as Hu.
        -- exists 1. split; [cbn [length]; lia|]. cbn [drop].
           by rewrite <- Hs, join_split_on.
        -- destruct (proj2 (IH v)) as (i & Hi & Hv); [by exists u|].
           exists (S i). split; [cbn [length] in *; lia|done].
    + rewrite (split_on_other a sep l w ws Hne Hs). split.
      * intros (i & Hi & ->). cbn [length] in Hi. destruct i as [|i]; [lia|].
        cbn [drop]. destruct (proj1 (IH (join [sep] (drop (S i) (w :: ws))))) as [u Hu].
        { exists (S i). split; [cbn [length]; lia|done]. }
        exists (a :: u). cbn [drop] in Hu. by rewrite Hu.
      * intros [u Hu]. destruct u as [|b u]; cbn [app] in Hu; injection Hu as Hu.
        { by subst. }
        destruct (proj2 (IH v)) as (i & Hi & Hv); [by exists u|].
        destruct i as [|i]; [lia|].
        exists (S i). split; [cbn [length] in *; lia|done].
Qed.
End SplitJoin.

(** The strict parent domains of [d] are exactly the strings that follow a
    dot in [d]. *)
Lemma parent_suffixes_spec (d v : string) :
  v ∈ parent_suffixes d <-> exists u, d = u +:+ "." +:+ v.
Proof.
  unfold parent_suffixes, Str.split, Str.join. rewrite list_elem_of_fmap.
  rewrite length_fmap.
  assert (Hjoin : forall i,
    Str.of_chars (join (Str.chars ".")
      (Str.chars <$> drop i (Str.of_chars <$> split_on "."%char (Str.chars d)))) =
    Str.of_chars (join ["."%char] (drop i (split_on "."%char (Str.chars d))))).
  { intros i. f_equal. f_equal. rewrite <- fmap_drop, <- list_fmap_compose.
    rewrite <- (list_fmap_id (drop i _)) at 2. apply list_fmap_ext.
    intros _ x _. simpl. apply chars_of_chars. }
  split.
  - intros (i & -> & Hi). apply elem_of_seq in Hi. rewrite Hjoin.
    destruct (proj1 (label_suffixes "."%char (Str.chars d)
                 (join ["."%char] (drop i (split_on "."%char (Str.chars d))))))
      as [u Hu].
    { exists i. split; [lia|done]. }
    exists (Str.of_chars u). apply chars_inj.
    rewrite !chars_app, !chars_of_chars. exact Hu.
  - intros [u ->].
    destruct (proj2 (label_suffixes "."%char (Str.chars (u +:+ "." +:+ v)) (Str.chars v)))
      as (i & Hi & Hv).
    { exists (Str.chars u). by rewrite !chars_app. }
    exists i. split; [|apply elem_of_seq; lia].
    rewrite Hjoin, <- Hv. symmetry. apply of_chars_chars.
Qed.

Lemma is_blocked_strict (self : FileBlacklistManager.t) (domain : string) :
  FileBlacklistManager.domain_matching self <> "loose" ->
  let d := Str.replace domain "www." "" in
  FileBlacklistManager.is_blocked self domain = true <->
  d ∈ FileBlacklistManager._blocked_set self \/
  exists v, v ∈ parent_suffixes d /\ v ∈ FileBlacklistManager._blocked_set self.
Proof.
  intros Hstrict d. unfold FileBlacklistManager.is_blocked. fold d.
  rewrite (bool_decide_eq_false_2 _ Hstrict). simpl.
  destruct (bool_decide (d ∈ FileBlacklistManager._blocked_set self)) eqn:Hd.
  - apply bool_decide_eq_true in Hd. split; [by left|done].
  - apply bool_decide_eq_false in Hd. rewrite existsb_exists. unfold parent_suffixes.
    split.
    + intros (i & Hi & Hv). right. apply bool_decide_eq_true in Hv.
      eexists. split; [|exact Hv]. apply list_elem_of_fmap. exists i.
      split; [done|]. by apply list_elem_of_In.
    + intros [?|(v & Hv & Hin)]; [done|].
      apply list_elem_of_fmap in Hv as (i & -> & Hi).
      exists i. split; [by apply list_elem_of_In|]. by apply bool_decide_eq_true.
Qed.

(** C7, as the code has it, for queries in lower case. In strict mode
    [is_blocked] answers true iff the normalised query (lowercased, every
    occurrence of "www." removed) is in the loaded set, or one of its strict
    parent domains is; the parents of a domain are the strings that follow
    one of its dots, so those of [a.b.example.com] are [b.example.com],
    [example.com], [com], tested in that order. The loaded
    set holds the kept lines of the file in the same normal form. *)
Theorem file_blacklist_strict (self : FileBlacklistManager.t) (domain : string) :
  FileBlacklistManager.domain_matching self <> "loose" ->
  Str.lower domain = domain ->
  let d := Str.replace (Str.lower domain) "www." "" in
  (FileBlacklistManager.is_blocked self domain = true <->
   d ∈ FileBlacklistManager._blocked_set self \/
   exists v, v ∈ parent_suffixes d /\ v ∈ FileBlacklistManager._blocked_set self) /\
  (forall v, v ∈ parent_suffixes d <-> exists u, d = u +:+ "." +:+ v) /\
  parent_suffixes "a.b.example.com" = ["b.example.com"; "example.com"; "com"] /\
  (forall matching lines e,
     e ∈ FileBlacklistManager._blocked_set (FileBlacklistManager.load_blacklist matching lines) <->
     exists line, line ∈ lines /\ kept_line line /\
       e = Str.replace (Str.lower (Str.strip line)) "www." "").
Proof.
  intros Hstrict Hlower d. subst d. rewrite Hlower.
  split; [by apply is_blocked_strict|].
  split; [intros v; apply parent_suffixes_spec|].
  split; [reflexivity|].
  intros matching lines e. apply load_blacklist_set.
Qed.

Lemma file_blacklist_strict_witness :
  let self := FileBlacklistManager.load_blacklist "strict" ["example.com"] in
  let domain := "a.b.example.com" in
  let d := Str.replace (Str.lower domain) "www." "" in
  (FileBlacklistManager.is_blocked self domain = true <->
   d ∈ FileBlacklistManager._blocked_set self \/
   exists v, v ∈ parent_suffixes d /\ v ∈ FileBlacklistManager._blocked_set self) /\
  (forall v, v ∈ parent_suffixes d <-> exists u, d = u +:+ "." +:+ v) /\
  parent_suffixes "a.b.example.com" = ["b.example.com"; "example.com"; "com"] /\
  (forall matching lines e,
     e ∈ FileBlacklistManager._blocked_set (FileBlacklistManager.load_blacklist matching lines) <->
     exists line, line ∈ lines /\ kept_line line /\
       e = Str.replace (Str.lower (Str.strip line)) "www." "").
Proof.
  apply (file_blacklist_strict
           (FileBlacklistManager.load_blacklist "strict" ["example.com"])
           "a.b.example.com").
  - simpl. discriminate.
  - reflexivity.
Defined.

(** C7 as stated fails. "www." is removed wherever it occurs, not only as a
    prefix: with [ab.com] loaded, the query [awww.b.com] is answered true
    although neither it nor a parent of it is in the set. And the query is
    not lowercased: with [example.com] loaded, [EXAMPLE.COM] is answered
    false. *)
Lemma www_inside_counterexample :
  FileBlacklistManager.is_blocked
    (FileBlacklistManager.load_blacklist "strict" ["ab.com"]) "awww.b.com" = true /\
  is_blocked_spec
    (FileBlacklistManager._blocked_set
       (FileBlacklistManager.load_blacklist "strict" ["ab.com"])) "awww.b.com" = false /\
  FileBlacklistManager.is_blocked
    (FileBlacklistManager.load_blacklist "strict" ["example.com"]) "EXAMPLE.COM" = false /\
  is_blocked_spec
    (FileBlacklistManager._blocked_set
       (FileBlacklistManager.load_blacklist "strict" ["example.com"])) "EXAMPLE.COM" = true.
Proof. repeat split; vm_compute; reflexivity. Qed.

(** ** blacklist.py: the adaptive manager *)

Lemma known_false (self : AutoBlacklistManager.t) (dec : string) :
  AutoBlacklistManager.known self dec = false <-> (dec ∉ AutoBlacklistManager._blocked_set self) /\ (dec ∉ AutoBlacklistManager._whitelist_set self).
Proof.
  unfold AutoBlacklistManager.known. rewrite orb_false_iff, !bool_decide_eq_false. done.
Qed.

Lemma known_true (self : AutoBlacklistManager.t) (dec : string) :
  AutoBlacklistManager.known self dec = true <-> (dec ∈ AutoBlacklistManager._blocked_set self) \/ (dec ∈ AutoBlacklistManager._whitelist_set self).
Proof.
  unfold AutoBlacklistManager.known. rewrite orb_true_iff, !bool_decide_eq_true. done.
Qed.

(** What [classify] does to the two sets. *)
Lemma classify_sets (self : AutoBlacklistManager.t) (dec : string)
    (o : probe_outcome) (file_ok : bool) :
  (AutoBlacklistManager._blocked_set (AutoBlacklistManager.classify self dec o file_ok) = AutoBlacklistManager._blocked_set self /\
   AutoBlacklistManager._whitelist_set (AutoBlacklistManager.classify self dec o file_ok) = AutoBlacklistManager._whitelist_set self) \/
  (AutoBlacklistManager._blocked_set (AutoBlacklistManager.classify self dec o file_ok) = {[dec]} ∪ AutoBlacklistManager._blocked_set self /\
   AutoBlacklistManager._whitelist_set (AutoBlacklistManager.classify self dec o file_ok) = AutoBlacklistManager._whitelist_set self) \/
  (AutoBlacklistManager._blocked_set (AutoBlacklistManager.classify self dec o file_ok) = AutoBlacklistManager._blocked_set self /\
   AutoBlacklistManager._whitelist_set (AutoBlacklistManager.classify self dec o file_ok) = {[dec]} ∪ AutoBlacklistManager._whitelist_set self).
Proof.
  destruct o as [|r|]; simpl; auto.
  destruct (Str.contains _ _); simpl; auto.
Qed.

Lemma step_grows (s : AutoBlacklistManager.oracle) (e : AutoBlacklistManager.event) :
  AutoBlacklistManager._blocked_set (AutoBlacklistManager.manager s) ⊆ AutoBlacklistManager._blocked_set (AutoBlacklistManager.manager (AutoBlacklistManager.step s e)) /\
  AutoBlacklistManager._whitelist_set (AutoBlacklistManager.manager s) ⊆ AutoBlacklistManager._whitelist_set (AutoBlacklistManager.manager (AutoBlacklistManager.step s e)).
Proof.
  destruct e as [task dec|task o file_ok]; simpl.
  - destruct (AutoBlacklistManager.awaiting s !! task); [done|]. by destruct (AutoBlacklistManager.known _ _).
  - destruct (AutoBlacklistManager.awaiting s !! task) as [dec|]; [|done]. simpl.
    destruct (classify_sets (AutoBlacklistManager.manager s) dec o file_ok) as [[-> ->]|[[-> ->]|[-> ->]]];
      set_solver.
Qed.

Lemma run_grows (tr : list AutoBlacklistManager.event) (s : AutoBlacklistManager.oracle) :
  AutoBlacklistManager._blocked_set (AutoBlacklistManager.manager s) ⊆ AutoBlacklistManager._blocked_set (AutoBlacklistManager.manager (AutoBlacklistManager.run s tr)) /\
  AutoBlacklistManager._whitelist_set (AutoBlacklistManager.manager s) ⊆ AutoBlacklistManager._whitelist_set (AutoBlacklistManager.manager (AutoBlacklistManager.run s tr)).
Proof.
  revert s. induction tr as [|e tr IH]; intros s; simpl; [done|].
  destruct (step_grows s e) as [H1 H2]. destruct (IH (AutoBlacklistManager.step s e)) as [H3 H4].
  split; set_solver.
Qed.

Lemma step_consistent (s : AutoBlacklistManager.oracle) (e : AutoBlacklistManager.event) :
  consistent s ->
  match e with
  | AutoBlacklistManager.Call _ dec => forall t, AutoBlacklistManager.awaiting s !! t <> Some dec
  | AutoBlacklistManager.Resume _ _ _ => True
  end ->
  consistent (AutoBlacklistManager.step s e).
Proof.
  intros (Hdisj & Hwait & Honce) Hcond.
  destruct e as [task dec|task o file_ok]; simpl.
  - destruct (AutoBlacklistManager.awaiting s !! task) eqn:Htask; [done|].
    destruct (AutoBlacklistManager.known (AutoBlacklistManager.manager s) dec) eqn:Hknown; [done|].
    split; [done|]. simpl. split.
    + intros t d. rewrite lookup_insert. case_decide; [|by apply Hwait].
      intros [= <-]. done.
    + intros t t' d. rewrite !lookup_insert. repeat case_decide; subst.
      * done.
      * intros [= <-] Hx. by apply Hcond in Hx.
      * intros Hx [= <-]. by apply Hcond in Hx.
      * apply Honce.
  - destruct (AutoBlacklistManager.awaiting s !! task) as [dec|] eqn:Htask; [|done].
    pose proof (Hwait _ _ Htask) as Hunknown. apply known_false in Hunknown.
    split; [|split]; simpl.
    + destruct (classify_sets (AutoBlacklistManager.manager s) dec o file_ok) as [[-> ->]|[[-> ->]|[-> ->]]];
        set_solver.
    + intros t d. rewrite lookup_delete. case_decide; [done|]. intros Ht.
      assert (d <> dec) as Hne.
      { intros ->. by pose proof (Honce _ _ _ Ht Htask). }
      pose proof (Hwait _ _ Ht) as Hd. apply known_false in Hd. apply known_false.
      destruct (classify_sets (AutoBlacklistManager.manager s) dec o file_ok) as [[-> ->]|[[-> ->]|[-> ->]]];
        set_solver.
    + intros t t' d. rewrite !lookup_delete. repeat case_decide; try done.
      apply Honce.
Qed.

Lemma run_consistent (tr : list AutoBlacklistManager.event) (s : AutoBlacklistManager.oracle) :
  consistent s -> no_overlap s tr -> consistent (AutoBlacklistManager.run s tr).
Proof.
  revert s. induction tr as [|e tr IH]; intros s Hs Htr; simpl; [done|].
  destruct Htr as [He Htr]. apply IH; [|done]. by apply step_consistent.
Qed.

Lemma init_oracle_consistent : consistent init_oracle.
Proof.
  split; [|split]; simpl.
  - set_solver.
  - intros t dec H. by rewrite lookup_empty in H.
  - intros t t' dec H. by rewrite lookup_empty in H.
Qed.

Lemma no_overlap_app (tr1 tr2 : list AutoBlacklistManager.event) (s : AutoBlacklistManager.oracle) :
  no_overlap s (tr1 ++ tr2) -> no_overlap s tr1 /\ no_overlap (AutoBlacklistManager.run s tr1) tr2.
Proof.
  revert s. induction tr1 as [|e tr1 IH]; intros s; simpl; [done|].
  intros [He H]. apply IH in H as [H1 H2]. done.
Qed.

Lemma call_resume_idle (s : AutoBlacklistManager.oracle) (task : nat) (dec : string)
    (o : probe_outcome) (file_ok : bool) :
  AutoBlacklistManager.awaiting s = ∅ ->
  AutoBlacklistManager.awaiting (AutoBlacklistManager.step (AutoBlacklistManager.step s (AutoBlacklistManager.Call task dec)) (AutoBlacklistManager.Resume task o file_ok)) = ∅.
Proof.
  destruct s as [m a]. simpl. intros ->. rewrite lookup_empty.
  destruct (AutoBlacklistManager.known m dec); simpl.
  - by rewrite lookup_empty.
  - rewrite lookup_insert_eq. simpl. by rewrite delete_insert_eq, delete_empty.
Qed.

Lemma sequential_no_overlap (calls : list (nat * string * probe_outcome * bool))
    (s : AutoBlacklistManager.oracle) :
  AutoBlacklistManager.awaiting s = ∅ ->
  no_overlap s (sequential calls) /\ AutoBlacklistManager.awaiting (AutoBlacklistManager.run s (sequential calls)) = ∅.
Proof.
  revert s. induction calls as [|[[[task dec] o] file_ok] calls IH]; intros s Hs.
  - split; [exact I | exact Hs].
  - pose proof (call_resume_idle s task dec o file_ok Hs) as Hidle.
    destruct (IH _ Hidle) as [H1 H2].
    change (sequential ((task, dec, o, file_ok) :: calls))
      with (AutoBlacklistManager.Call task dec :: AutoBlacklistManager.Resume task o file_ok :: sequential calls).
    split; [|exact H2].
    split; [intros t; by rewrite Hs, lookup_empty|].
    split; [exact I | exact H1].
Qed.

(** C10, as the code has it. A call of [check_domain] for a domain that is
    already in the blocked set or the whitelist set returns at once: no
    probe, both sets and the file unchanged. Consequently, as long as no
    call for a domain starts while another call for the same domain awaits
    its probe (calls made one after the other never do), a classification
    once made stays and the two sets are disjoint. *)
Theorem known_domain_stays :
  (forall self domain dec o file_ok,
     decode domain = Ok dec -> AutoBlacklistManager.known self dec = true ->
     AutoBlacklistManager.check_domain self domain o file_ok = Ok (self, false)) /\
  (forall s task dec,
     AutoBlacklistManager.known (AutoBlacklistManager.manager s) dec = true -> AutoBlacklistManager.step s (AutoBlacklistManager.Call task dec) = s) /\
  (forall tr1 tr2,
     no_overlap init_oracle (tr1 ++ tr2) ->
     let s1 := AutoBlacklistManager.manager (AutoBlacklistManager.run init_oracle tr1) in
     let s2 := AutoBlacklistManager.manager (AutoBlacklistManager.run init_oracle (tr1 ++ tr2)) in
     AutoBlacklistManager._blocked_set s2 ## AutoBlacklistManager._whitelist_set s2 /\
     (forall d, d ∈ AutoBlacklistManager._blocked_set s1 -> (d ∈ AutoBlacklistManager._blocked_set s2) /\ (d ∉ AutoBlacklistManager._whitelist_set s2)) /\
     (forall d, d ∈ AutoBlacklistManager._whitelist_set s1 -> (d ∈ AutoBlacklistManager._whitelist_set s2) /\ (d ∉ AutoBlacklistManager._blocked_set s2))) /\
  (forall calls, no_overlap init_oracle (sequential calls)).
Proof.
  split; [|split; [|split]].
  - intros self domain dec o file_ok Hdec Hknown.
    unfold AutoBlacklistManager.check_domain. rewrite Hdec. simpl. by rewrite Hknown.
  - intros s task dec Hknown. simpl.
    destruct (AutoBlacklistManager.awaiting s !! task); [done|]. by rewrite Hknown.
  - intros tr1 tr2 Htr s1 s2.
    pose proof (run_consistent _ _ init_oracle_consistent Htr) as (Hdisj & _ & _).
    fold s2 in Hdisj. split; [done|].
    unfold AutoBlacklistManager.run in s2. subst s1 s2. rewrite fold_left_app.
    destruct (run_grows tr2 (AutoBlacklistManager.run init_oracle tr1)) as [Hb Hw].
    unfold AutoBlacklistManager.run in *. rewrite fold_left_app in Hdisj.
    split; intros d Hd; set_solver.
  - intros calls. by apply sequential_no_overlap.
Qed.

(** C10 as stated fails. Two calls for [d.test] overlap: both pass the
    guard before either probe ends. The first probe succeeds and the domain
    is whitelisted; the second times out in the handshake and the domain is
    blocked as well: its classification has changed and the two sets are no
    longer disjoint. *)
Lemma overlapping_probes_counterexample :
  AutoBlacklistManager.is_blocked
    (AutoBlacklistManager.manager (AutoBlacklistManager.run init_oracle
       [AutoBlacklistManager.Call 1 "d.test"; AutoBlacklistManager.Call 2 "d.test"; AutoBlacklistManager.Resume 1 ProbeOk true])) "d.test" = false /\
  bool_decide ("d.test" ∈ AutoBlacklistManager._whitelist_set
    (AutoBlacklistManager.manager (AutoBlacklistManager.run init_oracle
       [AutoBlacklistManager.Call 1 "d.test"; AutoBlacklistManager.Call 2 "d.test"; AutoBlacklistManager.Resume 1 ProbeOk true]))) = true /\
  AutoBlacklistManager.is_blocked
    (AutoBlacklistManager.manager (AutoBlacklistManager.run init_oracle
       [AutoBlacklistManager.Call 1 "d.test"; AutoBlacklistManager.Call 2 "d.test"; AutoBlacklistManager.Resume 1 ProbeOk true;
        AutoBlacklistManager.Resume 2 (ProbeURLError (Some "_ssl.c:1000: The handshake operation timed out")) true]))
    "d.test" = true /\
  bool_decide ("d.test" ∈ AutoBlacklistManager._whitelist_set
    (AutoBlacklistManager.manager (AutoBlacklistManager.run init_oracle
       [AutoBlacklistManager.Call 1 "d.test"; AutoBlacklistManager.Call 2 "d.test"; AutoBlacklistManager.Resume 1 ProbeOk true;
        AutoBlacklistManager.Resume 2 (ProbeURLError (Some "_ssl.c:1000: The handshake operation timed out")) true])))
    = true.
Proof. repeat split; vm_compute; reflexivity. Qed.

(** C8, what the code does with each outcome of the probe of a domain not
    classified yet. Success and an exception other than URLError put the
    domain in the whitelist set; a URLError whose reason contains
    "handshake operation timed out" puts it in the blocked set and appends it
    to the file when the file can be written; a URLError with any other
    reason leaves both sets and the file as they were, where the claim has
    the domain whitelisted. *)
Theorem probe_classification (self : AutoBlacklistManager.t) (domain : bytes)
    (dec : string) (file_ok : bool) :
  decode domain = Ok dec ->
  AutoBlacklistManager.known self dec = false ->
  AutoBlacklistManager.check_domain self domain ProbeOk file_ok =
    Ok (AutoBlacklistManager.mk (AutoBlacklistManager.blacklist_file self)
          (AutoBlacklistManager._blocked_set self)
          ({[dec]} ∪ AutoBlacklistManager._whitelist_set self), true) /\
  AutoBlacklistManager.check_domain self domain ProbeException file_ok =
    Ok (AutoBlacklistManager.mk (AutoBlacklistManager.blacklist_file self)
          (AutoBlacklistManager._blocked_set self)
          ({[dec]} ∪ AutoBlacklistManager._whitelist_set self), true) /\
  (forall reason,
     Str.contains "handshake operation timed out" reason = true ->
     AutoBlacklistManager.check_domain self domain (ProbeURLError (Some reason)) file_ok =
       Ok (AutoBlacklistManager.mk
             (if file_ok
              then AutoBlacklistManager.blacklist_file self ++ [dec +:+ String "010"%char ""]
              else AutoBlacklistManager.blacklist_file self)
             ({[dec]} ∪ AutoBlacklistManager._blocked_set self)
             (AutoBlacklistManager._whitelist_set self), true)) /\
  (forall reason,
     Str.contains "handshake operation timed out" reason = false ->
     AutoBlacklistManager.check_domain self domain (ProbeURLError (Some reason)) file_ok =
       Ok (self, true) /\
     (dec ∉ AutoBlacklistManager._whitelist_set self) /\
     (dec ∉ AutoBlacklistManager._blocked_set self)).
Proof.
  intros Hdec Hknown. unfold AutoBlacklistManager.check_domain.
  rewrite Hdec. cbn [rbind]. rewrite Hknown.
  split; [reflexivity|]. split; [reflexivity|]. split.
  - intros reason Hr. simpl. by rewrite Hr.
  - intros reason Hr. simpl. rewrite Hr.
    apply known_false in Hknown as [Hb Hw]. done.
Qed.

Lemma probe_classification_witness :
  let self := AutoBlacklistManager.init in
  let domain := String.list_byte_of_string "refused.test" in
  let dec := "refused.test" in
  let file_ok := true in
  AutoBlacklistManager.check_domain self domain ProbeOk file_ok =
    Ok (AutoBlacklistManager.mk (AutoBlacklistManager.blacklist_file self)
          (AutoBlacklistManager._blocked_set self)
          ({[dec]} ∪ AutoBlacklistManager._whitelist_set self), true) /\
  AutoBlacklistManager.check_domain self domain ProbeException file_ok =
    Ok (AutoBlacklistManager.mk (AutoBlacklistManager.blacklist_file self)
          (AutoBlacklistManager._blocked_set self)
          ({[dec]} ∪ AutoBlacklistManager._whitelist_set self), true) /\
  (forall reason,
     Str.contains "handshake operation timed out" reason = true ->
     AutoBlacklistManager.check_domain self domain (ProbeURLError (Some reason)) file_ok =
       Ok (AutoBlacklistManager.mk
             (if file_ok
              then AutoBlacklistManager.blacklist_file self ++ [dec +:+ String "010"%char ""]
              else AutoBlacklistManager.blacklist_file self)
             ({[dec]} ∪ AutoBlacklistManager._blocked_set self)
             (AutoBlacklistManager._whitelist_set self), true)) /\
  (forall reason,
     Str.contains "handshake operation timed out" reason = false ->
     AutoBlacklistManager.check_domain self domain (ProbeURLError (Some reason)) file_ok =
       Ok (self, true) /\
     (dec ∉ AutoBlacklistManager._whitelist_set self) /\
     (dec ∉ AutoBlacklistManager._blocked_set self)).
Proof.
  apply (probe_classification AutoBlacklistManager.init
           (String.list_byte_of_string "refused.test") "refused.test" true).
  - reflexivity.
  - reflexivity.
Defined.

(** The failing input of C8: the probe of [refused.test] ends in a
    URLError whose reason is a refused connection. The domain ends in
    neither set. *)
Lemma urlerror_refused_unclassified :
  AutoBlacklistManager.check_domain AutoBlacklistManager.init
    (String.list_byte_of_string "refused.test")
    (ProbeURLError (Some "[Errno 111] Connection refused")) true
  = Ok (AutoBlacklistManager.init, true) /\
  AutoBlacklistManager.known AutoBlacklistManager.init "refused.test" = false.
Proof. split; reflexivity. Qed.

(** ** dns_cache.py *)

Lemma get_set_eq (key : string) (v : Z * list addrinfo) (c : DNSCache.cache) :
  DNSCache.get key (DNSCache.set key v c) = Some v.
Proof.
  induction c as [|[k w] c IH]; simpl.
  - by rewrite decide_True.
  - destruct (decide (k = key)) as [->|Hne]; simpl.
    + by rewrite decide_True.
    + by rewrite decide_False.
Qed.

Lemma get_set_ne (key key' : string) (v : Z * list addrinfo) (c : DNSCache.cache) :
  key <> key' -> DNSCache.get key' (DNSCache.set key v c) = DNSCache.get key' c.
Proof.
  intros Hne. induction c as [|[k w] c IH]; simpl.
  - by rewrite decide_False.
  - destruct (decide (k = key)) as [->|Hk]; simpl.
    + by destruct (decide (key = key')).
    + destruct (decide (k = key')); [done|]. apply IH.
Qed.

Lemma set_length (key : string) (v : Z * list addrinfo) (c : DNSCache.cache) :
  length (DNSCache.set key v c) =
  match DNSCache.get key c with
  | Some _ => length c
  | None => S (length c)
  end.
Proof.
  induction c as [|[k w] c IH]; simpl; [done|].
  destruct (decide (k = key)); simpl; [done|].
  rewrite IH. by destruct (DNSCache.get key c).
Qed.

Lemma pop_first_ok (c : DNSCache.cache) : 0 < length c -> DNSCache.pop_first c = Ok (tail c).
Proof. destruct c; simpl; [lia|done]. Qed.

(** C9. [resolve] returns the cached list only when the stored expiry is
    strictly after [now], whatever the resolver would answer; otherwise it
    returns the resolver's answer, after dropping the first-inserted entry
    when the cache holds [max_entries] entries or more and then storing
    (now + ttl, addrs) under the key. Whatever it returns is either such an
    unexpired record or the fresh answer. *)
Theorem resolve_never_expired (self : DNSCache.t) (now : Z)
    (getaddrinfo : string -> Z -> result (list addrinfo)) (host : string) (port : Z) :
  0 < DNSCache.max_entries self ->
  let key := DNSCache.key_of host port in
  let cache := DNSCache._cache self in
  (forall expiry cached,
     DNSCache.get key cache = Some (expiry, cached) -> (expiry > now)%Z ->
     DNSCache.resolve self now getaddrinfo host port = Ok (cached, self)) /\
  ((forall expiry cached,
      DNSCache.get key cache = Some (expiry, cached) -> (expiry <= now)%Z) ->
   match getaddrinfo host port with
   | Ok addrs =>
       DNSCache.resolve self now getaddrinfo host port =
         Ok (addrs,
             DNSCache.mk (DNSCache.ttl self) (DNSCache.max_entries self)
               (DNSCache.set key ((now + DNSCache.ttl self)%Z, addrs)
                  (if decide (DNSCache.max_entries self <= length cache)
                   then tail cache else cache)))
   | Raise e => DNSCache.resolve self now getaddrinfo host port = Raise e
   | OutOfFuel => DNSCache.resolve self now getaddrinfo host port = OutOfFuel
   end) /\
  (forall addrs self',
     DNSCache.resolve self now getaddrinfo host port = Ok (addrs, self') ->
     (exists expiry,
        DNSCache.get key cache = Some (expiry, addrs) /\ (expiry > now)%Z /\ self' = self) \/
     (getaddrinfo host port = Ok addrs /\
      DNSCache.get key (DNSCache._cache self') = Some ((now + DNSCache.ttl self)%Z, addrs))).
Proof.
  intros Hmax key cache.
  assert (Hmiss :
    (forall expiry cached,
       DNSCache.get key cache = Some (expiry, cached) -> (expiry <= now)%Z) ->
    DNSCache.resolve self now getaddrinfo host port =
      (let* addrs := getaddrinfo host port in
       Ok (addrs,
           DNSCache.mk (DNSCache.ttl self) (DNSCache.max_entries self)
             (DNSCache.set key ((now + DNSCache.ttl self)%Z, addrs)
                (if decide (DNSCache.max_entries self <= length cache)
                 then tail cache else cache))))).
  { intros Hexp. unfold DNSCache.resolve. fold key. fold cache.
    assert (Hhit : match DNSCache.get key cache with
                   | Some (expiry, cached) =>
                       if decide (expiry > now)%Z then Some cached else None
                   | None => None
                   end = None).
    { destruct (DNSCache.get key cache) as [[expiry cached]|] eqn:Hget; [|done].
      specialize (Hexp _ _ eq_refl). by rewrite decide_False by lia. }
    rewrite Hhit. destruct (getaddrinfo host port) as [addrs| |]; simpl; [|done..].
    destruct (decide (DNSCache.max_entries self <= length cache)) as [Hfull|Hroom]; [|done].
    rewrite pop_first_ok by lia. done. }
  split; [|split].
  - intros expiry cached Hget Hfresh. unfold DNSCache.resolve. fold key. fold cache.
    rewrite Hget. by rewrite decide_True.
  - intros Hexp. rewrite (Hmiss Hexp). by destruct (getaddrinfo host port).
  - intros addrs self' Hres.
    destruct (DNSCache.get key cache) as [[expiry cached]|] eqn:Hget.
    + destruct (decide (expiry > now)%Z) as [Hfresh|Hstale].
      * left. exists expiry.
        unfold DNSCache.resolve in Hres. fold key in Hres. fold cache in Hres.
        rewrite Hget, decide_True in Hres by done. by simplify_eq.
      * right. rewrite Hmiss in Hres.
        2:{ intros e c Hec. simplify_eq. lia. }
        destruct (getaddrinfo host port) as [a| |]; simpl in Hres; [|done..].
        simplify_eq. split; [done|]. simpl. apply get_set_eq.
    + right. rewrite Hmiss in Hres by (intros; simplify_eq).
      destruct (getaddrinfo host port) as [a| |]; simpl in Hres; [|done..].
      simplify_eq. split; [done|]. simpl. apply get_set_eq.
Qed.

Lemma resolve_never_expired_witness :
  let self := small_cache in
  let now := 100%Z in
  let getaddrinfo := one_address in
  let host := "c.test" in
  let port := 80%Z in
  let key := DNSCache.key_of host port in
  let cache := DNSCache._cache self in
  (forall expiry cached,
     DNSCache.get key cache = Some (expiry, cached) -> (expiry > now)%Z ->
     DNSCache.resolve self now getaddrinfo host port = Ok (cached, self)) /\
  ((forall expiry cached,
      DNSCache.get key cache = Some (expiry, cached) -> (expiry <= now)%Z) ->
   match getaddrinfo host port with
   | Ok addrs =>
       DNSCache.resolve self now getaddrinfo host port =
         Ok (addrs,
             DNSCache.mk (DNSCache.ttl self) (DNSCache.max_entries self)
               (DNSCache.set key ((now + DNSCache.ttl self)%Z, addrs)
                  (if decide (DNSCache.max_entries self <= length cache)
                   then tail cache else cache)))
   | Raise e => DNSCache.resolve self now getaddrinfo host port = Raise e
   | OutOfFuel => DNSCache.resolve self now getaddrinfo host port = OutOfFuel
   end) /\
  (forall addrs self',
     DNSCache.resolve self now getaddrinfo host port = Ok (addrs, self') ->
     (exists expiry,
        DNSCache.get key cache = Some (expiry, addrs) /\ (expiry > now)%Z /\ self' = self) \/
     (getaddrinfo host port = Ok addrs /\
      DNSCache.get key (DNSCache._cache self') = Some ((now + DNSCache.ttl self)%Z, addrs))).
Proof.
  apply (resolve_never_expired small_cache 100%Z one_address "c.test" 80%Z).
  simpl. lia.
Defined.

(** The three cases of [resolve] on [small_cache] at time 100: the entry of
    [b.test] is returned as cached; the expired entry of [a.test] is
    resolved again, and since the cache is full its first entry (that very
    one) is dropped and the new record goes last; a new key also drops the
    first entry. *)
Lemma resolve_examples :
  DNSCache.resolve small_cache 100 one_address "b.test" 80 = Ok ([], small_cache) /\
  DNSCache.resolve small_cache 100 one_address "a.test" 80 =
    Ok ([(2%Z, 1%Z, 6%Z, "", ("a.test", 80%Z))],
        DNSCache.mk 60 2 [("b.test:80", (200%Z, []));
                          ("a.test:80", (160%Z, [(2%Z, 1%Z, 6%Z, "", ("a.test", 80%Z))]))]) /\
  DNSCache.resolve small_cache 100 one_address "c.test" 80 =
    Ok ([(2%Z, 1%Z, 6%Z, "", ("c.test", 80%Z))],
        DNSCache.mk 60 2 [("b.test:80", (200%Z, []));
                          ("c.test:80", (160%Z, [(2%Z, 1%Z, 6%Z, "", ("c.test", 80%Z))]))]).
Proof. repeat split; reflexivity. Qed.

(** ** connection.py: counters *)

(** C2, the failing inputs. A CONNECT decided as blocked whose first
    payload write raises is counted twice: once as blocked before the write,
    once more as an error by the handler at the task boundary. The same
    happens on the allowed path. A connection whose TLS payload never
    arrives is relayed without being counted at all. *)
Theorem write_failure_counted_twice :
  Statistics.total_connections (statistics (after_connection cfg_split (env_write_fails "blocked.test"))) = 2 /\
  Statistics.blocked_connections (statistics (after_connection cfg_split (env_write_fails "blocked.test"))) = 1 /\
  Statistics.errors_connections (statistics (after_connection cfg_split (env_write_fails "blocked.test"))) = 1 /\
  Statistics.allowed_connections (statistics (after_connection cfg_split (env_write_fails "blocked.test"))) = 0 /\
  Statistics.total_connections (statistics (after_connection cfg_bypass (env_write_fails "safe.test"))) = 2 /\
  Statistics.allowed_connections (statistics (after_connection cfg_bypass (env_write_fails "safe.test"))) = 1 /\
  Statistics.errors_connections (statistics (after_connection cfg_bypass (env_write_fails "safe.test"))) = 1 /\
  Statistics.total_connections (statistics (after_connection cfg_split env_tls_timeout)) = 0 /\
  active_connections (after_connection cfg_split env_tls_timeout) = ∅ /\
  access_log (after_connection cfg_split env_tls_timeout)
    = ["2024-01-01 00:00:00 10.0.0.1 CONNECT blocked.test 39 37"].
Proof.
  assert (H1 : statistics (after_connection cfg_split (env_write_fails "blocked.test"))
               = Statistics.mk 2 0 1 1 77 37) by (vm_compute; reflexivity).
  assert (H2 : statistics (after_connection cfg_bypass (env_write_fails "safe.test"))
               = Statistics.mk 2 1 0 1 77 34) by (vm_compute; reflexivity).
  assert (H3 : statistics (after_connection cfg_split env_tls_timeout)
               = Statistics.mk 0 0 0 0 39 37) by (vm_compute; reflexivity).
  rewrite H1, H2, H3. simpl.
  repeat (split; [reflexivity|]).
  split; vm_compute; reflexivity.
Qed.

(** ** connection.py: traffic *)

Lemma bind_ok {A B : Type} (m : M A) (k : A -> M B) (w w' : world) (a : A) :
  m w = (Ok a, w') -> (m ≫= k) w = k a w'.
Proof. intros Hm. unfold mbind, M_bind. by rewrite Hm. Qed.

(** The writes of a relay loop touch the two socket streams only. *)
Lemma relay_writes (is_out : bool) (chunks : list bytes) (w : world) :
  exists r w',
    mapM (if is_out then write_origin true else write_client true) chunks w = (Ok r, w') /\
    statistics w' = statistics w /\
    objects w' = objects w /\
    active_connections w' = active_connections w /\
    domain_failures w' = domain_failures w /\
    access_log w' = access_log w /\
    error_log w' = error_log w.
Proof.
  revert w. destruct is_out; induction chunks as [|c chunks IH]; intros w;
    try (exists [], w; by repeat split).
  - destruct (IH (mk_world (statistics w) (objects w) (next_ref w) (active_connections w)
                    (domain_failures w) (blacklist w) (rng w) (access_log w) (error_log w)
                    (to_client w) (to_origin w ++ [c])))
      as (r & w' & Hrun & Hs & Ho & Ha & Hf & Hal & Hel).
    exists (tt :: r), w'. split; [|by repeat split].
    simpl. erewrite bind_ok by reflexivity. erewrite bind_ok by exact Hrun. reflexivity.
  - destruct (IH (mk_world (statistics w) (objects w) (next_ref w) (active_connections w)
                    (domain_failures w) (blacklist w) (rng w) (access_log w) (error_log w)
                    (to_client w ++ [c]) (to_origin w)))
      as (r & w' & Hrun & Hs & Ho & Ha & Hf & Hal & Hel).
    exists (tt :: r), w'. split; [|by repeat split].
    simpl. erewrite bind_ok by reflexivity. erewrite bind_ok by exact Hrun. reflexivity.
Qed.

(** C3, the defect at its source. Whatever a relay loop moves, [_pipe]
    adds the volume to the global counter of its direction and leaves every
    [ConnectionInfo] object, the one of its own connection included,
    untouched: its local [conn_info] is never bound to the object. For the
    plain GET of [env_http_relay] the global counters end at 20 bytes in and
    52 out, while the access record reports 0 in and 42 out. *)
Theorem relay_bytes_missing_from_connection_info :
  (forall cfg chunks ending is_out w,
     exists w',
       _pipe cfg chunks ending is_out w = (Ok tt, w') /\
       objects w' = objects w /\
       active_connections w' = active_connections w /\
       Statistics.traffic_out (statistics w')
         = Statistics.traffic_out (statistics w) + (if is_out then volume chunks else 0) /\
       Statistics.traffic_in (statistics w')
         = Statistics.traffic_in (statistics w) + (if is_out then 0 else volume chunks)) /\
  Statistics.traffic_in (statistics (after_connection cfg_split env_http_relay)) = 20 /\
  Statistics.traffic_out (statistics (after_connection cfg_split env_http_relay)) = 52 /\
  access_log (after_connection cfg_split env_http_relay)
    = ["2024-01-01 00:00:00 10.0.0.1 GET text.example 0 42"].
Proof.
  split.
  - intros cfg chunks ending is_out w.
    destruct (relay_writes is_out chunks w) as (r & w1 & Hrun & Hs & Ho & Ha & _).
    unfold _pipe. erewrite bind_ok by exact Hrun. fold (volume chunks).
    destruct w1 as [[t a b e ti to] obj nr act fl bl g al el tc to'].
    simpl in Hs, Ho, Ha. rewrite <- Hs, <- Ho, <- Ha.
    destruct ending, is_out, (log_error_file cfg) eqn:Hlog;
      (eexists; split;
       [cbv beta iota zeta delta
          [mbind mret M_bind M_ret modify skip update_traffic log_error
           increment_error_connections with_statistics];
        rewrite ?Hlog; reflexivity
       | simpl; repeat split; lia]).
  - split; [|split]; vm_compute; reflexivity.
Qed.

(** ** connection.py: counters, in general *)

(** Unfolding of the handler monad, for symbolic runs. *)
Ltac run_handler :=
  cbv beta iota zeta delta
    [mbind mret M_bind M_ret modify gets lift skip try_except io
     write_client write_origin update_traffic
     increment_total_connections increment_allowed_connections
     increment_blocked_connections increment_error_connections
     log_error log_access new_connection_info conn_add_in conn_add_out
     conn_domain pop_connection set_rng set_blacklist write_payload
     with_statistics with_objects with_active with_failures
     statistics objects next_ref active_connections domain_failures
     blacklist rng access_log error_log to_client to_origin
     Statistics.increment_total_connections Statistics.increment_allowed_connections
     Statistics.increment_blocked_connections Statistics.increment_error_connections
     Statistics.update_traffic
     Statistics.total_connections Statistics.allowed_connections
     Statistics.blocked_connections Statistics.errors_connections
     Statistics.traffic_in Statistics.traffic_out counted logged].

Ltac close_counted :=
  eexists; split; [reflexivity|]; run_handler; repeat split; lia.

Lemma error_handler_counts (cfg : ProxyConfig) (env : Env)
    (conn_key : option (string * Z)) (w : world) :
  exists w',
    _handle_connection_error cfg env conn_key w = (Ok tt, w') /\
    counted w w' 1 0 0 (1 + logged cfg).
Proof.
  destruct w as [[t a b e ti to] obj nr act fl bl g al el tc to'].
  unfold _handle_connection_error.
  destruct (error_write_ok env), conn_key as [k|], (log_error_file cfg) eqn:Hlog;
    run_handler; rewrite ?Hlog.
  all: try destruct (act !! k) as [c|]; run_handler; rewrite ?Hlog.
  all: close_counted.
Qed.

Lemma tls_data_write_fails (cfg : ProxyConfig) (env : Env) (host : bytes)
    (conn_info : nat) (w : world) (h d : bytes) :
  tls_reads env = Some (h, d) ->
  tls_fail_at env = Some 0 ->
  exists e w' allowed blocked,
    _handle_initial_tls_data cfg env host conn_info w = (Raise e, w') /\
    counted w w' 1 allowed blocked 0 /\ allowed + blocked = 1.
Proof.
  intros Hreads Hfail.
  destruct w as [[t a b e ti to] obj nr act fl bl g al el tc to'].
  unfold _handle_initial_tls_data. rewrite Hreads.
  run_handler.
  destruct (RuleEngine.decide _ _) as [rule_decision rule_method].
  match goal with |- context [negb ?c] => destruct c end; cbn [negb].
  - (* fragment *)
    match goal with |- context [fragment ?m ?g0 ?data] =>
      destruct (fragment_returns m g0 data) as
        (parts & rest & m' & g' & payloads & Hfrag & _)
    end.
    { rewrite length_take. lia. }
    rewrite Hfrag. run_handler.
    destruct parts as [|p parts].
    + rewrite Hfail. rewrite bool_decide_true by done. cbn [negb].
      exists OSError. eexists. exists 0, 1. split; [reflexivity|].
      run_handler. repeat split; lia.
    + destruct (decide (m' = "split-jitter")).
      * cbn [jitter_loop]. run_handler.
        rewrite Hfail. rewrite bool_decide_true by done. cbn [negb].
        exists OSError. eexists. exists 0, 1. split; [reflexivity|].
        run_handler. repeat split; lia.
      * run_handler.
        rewrite Hfail. rewrite bool_decide_true by done. cbn [negb].
        exists OSError. eexists. exists 0, 1. split; [reflexivity|].
        run_handler. repeat split; lia.
  - rewrite Hfail. rewrite bool_decide_true by done. cbn [negb].
    exists OSError. eexists. exists 1, 0. split; [reflexivity|].
    run_handler. repeat split; lia.
Qed.

Lemma decode_CONNECT : decode CONNECT = Ok "CONNECT".
Proof. reflexivity. Qed.

Lemma https_write_fails (cfg : ProxyConfig) (env : Env) (host : bytes)
    (conn_key : option (string * Z)) (conn_info : nat) (w : world) (h d : bytes) :
  connect_ok env = true ->
  established_ok env = true ->
  tls_reads env = Some (h, d) ->
  tls_fail_at env = Some 0 ->
  exists e w' allowed blocked,
    _handle_https_connection cfg env host conn_key conn_info w = (Raise e, w') /\
    counted w w' 1 allowed blocked 0 /\ allowed + blocked = 1.
Proof.
  intros Hconnect Hestablished Hreads Hfail.
  destruct w as [[t a b e ti to] obj nr act fl bl g al el tc to'].
  unfold _handle_https_connection. rewrite Hconnect.
  run_handler. rewrite Hestablished.
  match goal with |- context [_handle_initial_tls_data ?c ?en ?ho ?ci ?w1] =>
    destruct (tls_data_write_fails c en ho ci w1 h d Hreads Hfail)
      as (e0 & w' & allowed & blocked & Hrun & Hcount & Hone);
    rewrite Hrun
  end.
  exists e0, w', allowed, blocked. split; [reflexivity|]. split; [|done].
  revert Hcount. run_handler. tauto.
Qed.

(** C2, in general. Whenever a CONNECT gets as far as its first TLS
    payload and the write of that payload to the origin raises, the
    connection is counted twice: [total] grows by 2, one of [allowed] and
    [blocked] grows by 1 and [errors] grows by 1, or by 2 with an error log
    configured. *)
Theorem payload_write_failure_counts (cfg : ProxyConfig) (env : Env) (w : world)
    (http_data host : bytes) (port : Z) (dom : string) (h d : bytes) :
  first_chunk env = Some http_data ->
  http_data <> [] ->
  parsed env = Ok (CONNECT, host, port) ->
  decode host = Ok dom ->
  connect_ok env = true ->
  established_ok env = true ->
  tls_reads env = Some (h, d) ->
  tls_fail_at env = Some 0 ->
  exists w' allowed blocked,
    handle_connection cfg env w = (Ok tt, w') /\
    counted w w' 2 allowed blocked (1 + logged cfg) /\
    allowed + blocked = 1.
Proof.
  intros Hfirst Hnonempty Hparsed Hdec Hconnect Hestablished Hreads Hfail.
  destruct w as [[t a b e ti to] obj nr act fl bl g al el tc to'].
  unfold handle_connection.
  destruct (default ("unknown", 0%Z) (peername env)) as [client_ip client_port].
  rewrite Hfirst. destruct http_data as [|x http_data]; [done|].
  rewrite Hparsed. run_handler. rewrite Hdec, decode_CONNECT.
  rewrite !(decide_True (P := CONNECT = CONNECT)) by done.
  destruct bl as [m|m|].
  all: try (unfold AutoBlacklistManager.check_domain; rewrite Hdec; cbn [rbind];
            destruct (AutoBlacklistManager.known m dom)).
  all: try (destruct (decide (CONNECT = CONNECT)) as [_|]; [|done]).
  all: run_handler.
  all: match goal with |- context [_handle_https_connection ?c ?en ?ho ?k ?ci ?w1] =>
         destruct (https_write_fails c en ho k ci w1 h d Hconnect Hestablished Hreads Hfail)
           as (exc & w2 & allowed & blocked & Hrun & Hcount & Hone);
         rewrite Hrun
       end.
  all: match goal with |- context [_handle_connection_error ?c ?en ?k ?w2'] =>
         destruct (error_handler_counts c en k w2') as (w3 & Herr & Hcount3);
         rewrite Herr
       end.
  all: exists w3, allowed, blocked; split; [reflexivity|]; split; [|done].
  all: revert Hcount Hcount3; run_handler; intros; repeat split; lia.
Qed.

Lemma payload_write_failure_counts_witness :
  exists w' allowed blocked,
    handle_connection cfg_split (env_write_fails "blocked.test")
      (init_world NoBlacklist (fun i => i)) = (Ok tt, w') /\
    counted (init_world NoBlacklist (fun i => i)) w' 2 allowed blocked (1 + logged cfg_split) /\
    allowed + blocked = 1.
Proof.
  apply (payload_write_failure_counts cfg_split (env_write_fails "blocked.test")
           (init_world NoBlacklist (fun i => i))
           (connect_request "blocked.test")
           (String.list_byte_of_string "blocked.test") 443%Z "blocked.test"
           [x16; x03; x01; x00; x03] [x01; x02; x03]).
  - reflexivity.
  - discriminate.
  - reflexivity.
  - reflexivity.
  - reflexivity.
  - reflexivity.
  - reflexivity.
  - reflexivity.
Defined.

(** ** connection.py: what reaches the origin *)

Lemma jitter_loop_writes (env : Env) (parts : list bytes) (i total : nat) (w : world) :
  tls_fail_at env = None ->
  exists w',
    jitter_loop env i parts total w = (Ok (total + volume parts), w') /\
    to_origin w' = to_origin w ++ parts /\
    statistics w' = statistics w /\
    objects w' = objects w.
Proof.
  intros Hfail. revert i total w.
  induction parts as [|p parts IH]; intros i total w.
  - exists w. simpl. rewrite app_nil_r. unfold volume. simpl.
    replace (total + 0) with total by lia. done.
  - destruct w as [st obj nr act fl bl g al el tc to'].
    cbn [jitter_loop]. run_handler. rewrite Hfail.
    rewrite bool_decide_false by done. cbn [negb].
    unfold randrange. rewrite (decide_True (P := 1 < 6)) by lia. run_handler.
    match goal with |- context [jitter_loop env (S i) parts ?t ?w1] =>
      destruct (IH (S i) t w1) as (w' & Hrun & Hto & Hst & Hobj); rewrite Hrun
    end.
    exists w'. split.
    + f_equal. f_equal. change (volume (p :: parts)) with (length p + volume parts). lia.
    + revert Hto Hst Hobj. run_handler. intros -> -> ->.
      by rewrite <- app_assoc.
Qed.

(** The first TLS payload of a connection decided as blocked, when the
    writes go through: the fragmenter runs on the bytes read and the origin
    receives what [tls_writes] lists, the records of C1 or, for an empty
    payload, [head + data] as it is. *)
Lemma blocked_payload_transmitted (cfg : ProxyConfig) (env : Env) (host : bytes)
    (conn_info : nat) (w : world) (h d : bytes) :
  tls_reads env = Some (h, d) ->
  tls_fail_at env = None ->
  fst (decision cfg w conn_info) = true ->
  exists parts rest method g' w',
    fragment (snd (decision cfg w conn_info)) (rng w) (take 2048 d)
      = Ok (parts, rest, method, g') /\
    _handle_initial_tls_data cfg env host conn_info w = (Ok tt, w') /\
    to_origin w' = to_origin w ++ tls_writes method parts (take 5 h) rest /\
    counted w w' 1 0 1 0.
Proof.
  intros Hreads Hfail Hdecision.
  destruct w as [[t a b e ti to] obj nr act fl bl g al el tc to'].
  unfold decision in *. cbn [objects blacklist domain_failures rng] in *.
  unfold _handle_initial_tls_data. rewrite Hreads. run_handler.
  destruct (RuleEngine.decide _ _) as [rule_decision rule_method].
  cbn [fst snd] in *.
  rewrite Hdecision. cbn [negb].
  match goal with |- context [fragment ?m ?g0 ?data] =>
    destruct (fragment_returns m g0 data) as
      (parts & rest & m' & g' & payloads & Hfrag & _)
  end.
  { rewrite length_take. lia. }
  rewrite Hfrag. run_handler.
  exists parts, rest, m', g'.
  destruct parts as [|p parts].
  - rewrite Hfail. rewrite bool_decide_false by done. cbn [negb].
    eexists. split; [reflexivity|]. split; [reflexivity|].
    run_handler. by repeat split.
  - unfold tls_writes. destruct (decide (m' = "split-jitter")).
    + match goal with |- context [jitter_loop env 0 ?ps 0 ?w1] =>
        destruct (jitter_loop_writes env ps 0 0 w1 Hfail) as (w' & Hrun & Hto & Hst & Hobj);
        rewrite Hrun
      end.
      destruct w' as [st' obj' nr' act' fl' bl' g'' al' el' tc' to''].
      revert Hto Hst Hobj. run_handler. intros -> -> ->.
      eexists. split; [reflexivity|]. split; [reflexivity|].
      run_handler. by repeat split.
    + run_handler. rewrite Hfail. rewrite bool_decide_false by done. cbn [negb].
      eexists. split; [reflexivity|]. split; [reflexivity|].
      run_handler. by repeat split.
Qed.

(** ** Searching and splitting *)

Section FindFacts.
Context {A : Type} `{EqDecision A}.
Implicit Types l sub pre post : list A.

Lemma find_at_first sub l i q :
  find_at sub l i = Some q ->
  exists k, q = i + k /\ k <= length l /\
    starts_with sub (drop k l) = true /\
    forall j, j < k -> starts_with sub (drop j l) = false.
Proof.
  revert i. induction l as [|a l IH]; intros i; simpl.
  - destruct (starts_with sub []) eqn:Hs; [|done].
    intros [= <-]. exists 0. repeat split; [lia|lia|done|lia].
  - destruct (starts_with sub (a :: l)) eqn:Hs.
    + intros [= <-]. exists 0. repeat split; [lia|lia|done|lia].
    + intros Hq. destruct (IH _ Hq) as (k & -> & Hk & Hat & Hbefore).
      exists (S k). repeat split; [lia|lia|done|].
      intros [|j] Hj; [done|]. apply Hbefore. lia.
Qed.

Lemma find_at_none sub l i j :
  find_at sub l i = None -> starts_with sub (drop j l) = false.
Proof.
  revert i j. induction l as [|a l IH]; intros i j; simpl.
  - destruct (starts_with sub []) eqn:Hs; [done|]. by rewrite drop_nil.
  - destruct (starts_with sub (a :: l)) eqn:Hs; [done|].
    intros Hq. destruct j as [|j]; [done|]. by apply (IH (S i)).
Qed.

Lemma find_at_found sub l i k :
  k <= length l ->
  starts_with sub (drop k l) = true ->
  (forall j, j < k -> starts_with sub (drop j l) = false) ->
  find_at sub l i = Some (i + k).
Proof.
  revert i k. induction l as [|a l IH]; intros i k Hk Hat Hbefore.
  - simpl in Hk. assert (k = 0) as -> by lia. simpl in *. rewrite Hat.
    f_equal. lia.
  - destruct k as [|k].
    + cbn [drop] in Hat. cbn [find_at]. rewrite Hat. f_equal. lia.
    + pose proof (Hbefore 0 ltac:(lia)) as H0. cbn [drop] in H0.
      cbn [find_at]. rewrite H0.
      rewrite (IH (S i) k); [f_equal; lia|simpl in Hk; lia|done|].
      intros j Hj. apply (Hbefore (S j)). lia.
Qed.

(** [l.find(sub, start)] is the least index from [start] on at which [sub]
    occurs. *)
Lemma find_from_first sub l start q :
  find_from sub l start = Some q ->
  start <= q /\ starts_with sub (drop q l) = true /\
  (forall j, start <= j < q -> starts_with sub (drop j l) = false) /\
  (start <= length l -> q <= length l).
Proof.
  unfold find_from. intros Hq.
  destruct (find_at_first _ _ _ _ Hq) as (k & -> & Hk & Hat & Hbefore).
  rewrite drop_drop in Hat. rewrite length_drop in Hk.
  split; [lia|]. split; [done|]. split; [|lia].
  intros j Hj. specialize (Hbefore (j - start) ltac:(lia)).
  rewrite drop_drop in Hbefore. by replace (start + (j - start)) with j in Hbefore by lia.
Qed.

Lemma find_from_none sub l start j :
  find_from sub l start = None -> start <= j -> starts_with sub (drop j l) = false.
Proof.
  unfold find_from. intros Hq Hj.
  pose proof (find_at_none _ _ _ (j - start) Hq) as H.
  rewrite drop_drop in H. by replace (start + (j - start)) with j in H by lia.
Qed.

Lemma find_from_found sub l start q :
  start <= q <= length l ->
  starts_with sub (drop q l) = true ->
  (forall j, start <= j < q -> starts_with sub (drop j l) = false) ->
  find_from sub l start = Some q.
Proof.
  intros Hq Hat Hbefore. unfold find_from.
  replace (Some q) with (Some (start + (q - start))) by (f_equal; lia).
  apply find_at_found.
  - rewrite length_drop. lia.
  - rewrite drop_drop. by replace (start + (q - start)) with q by lia.
  - intros j Hj. rewrite drop_drop. apply Hbefore. lia.
Qed.

(** An occurrence of [sub] at [j] puts the items of [sub] at [j], [j+1], ... *)
Lemma starts_with_lookup sub l j i x :
  starts_with sub (drop j l) = true -> sub !! i = Some x -> l !! (j + i) = Some x.
Proof.
  intros Hs Hx. apply starts_with_spec in Hs as [r Hr].
  rewrite <- lookup_drop, Hr. by apply lookup_app_l_Some.
Qed.

Lemma split_on_none (sep : A) l : sep ∉ l -> split_on sep l = [l].
Proof.
  induction l as [|a l IH]; intros Hl; simpl; [done|].
  rewrite decide_False by (intros ->; apply Hl; left).
  rewrite IH; [done|]. intros H. apply Hl. by right.
Qed.

Lemma split_on_app (sep : A) w l :
  sep ∉ w -> split_on sep (w ++ sep :: l) = w :: split_on sep l.
Proof.
  induction w as [|a w IH]; intros Hw; simpl.
  - by rewrite decide_True.
  - rewrite decide_False by (intros ->; apply Hw; left).
    rewrite IH; [done|]. intros H. apply Hw. by right.
Qed.

Lemma find_single_none (sep : A) l : sep ∉ l -> find_from [sep] l 0 = None.
Proof.
  unfold find_from. rewrite drop_0. generalize 0.
  induction l as [|a l IH]; intros i Hl; simpl; [done|].
  rewrite decide_False by (intros ->; apply Hl; left).
  apply IH. intros H. apply Hl. by right.
Qed.

Lemma find_single_app (sep : A) w l :
  sep ∉ w -> find_from [sep] (w ++ sep :: l) 0 = Some (length w).
Proof.
  unfold find_from. rewrite drop_0. intros Hw.
  assert (H : forall i, find_at [sep] (w ++ sep :: l) i = Some (i + length w)).
  { induction w as [|a w IH]; intros i; simpl.
    - rewrite decide_True by done. f_equal. lia.
    - rewrite decide_False by (intros ->; apply Hw; left).
      rewrite IH; [f_equal; lia|]. intros H. apply Hw. by right. }
  apply (H 0).
Qed.

Lemma split1_none (sep : A) l : sep ∉ l -> split1 sep l = [l].
Proof. intros Hl. unfold split1. by rewrite find_single_none. Qed.

Lemma split1_app (sep : A) w l : sep ∉ w -> split1 sep (w ++ sep :: l) = [w; l].
Proof.
  intros Hw. unfold split1. rewrite find_single_app by done.
  rewrite take_app_length. f_equal. f_equal.
  by rewrite drop_app_add.
Qed.
End FindFacts.

(** ** connection.py: the request parser *)

(** Decidable facts about constants, by evaluation. *)
Ltac by_compute := apply (bool_decide_unpack _); vm_compute; exact I.

(** An occurrence of CRLF followed by anything has its LF one place on. *)
Lemma crlf_needs_lf (tail l : bytes) (j : nat) :
  starts_with (CRLF ++ tail) (drop j l) = true -> l !! (j + 1) = Some x0a.
Proof. intros Hs. by apply (starts_with_lookup _ _ _ 1 x0a Hs). Qed.

(** No CRLF starts inside a stretch without LF, even when a CR follows. *)
Lemma no_crlf_inside (tail p q : bytes) (j : nat) :
  x0a ∉ p -> j < length p ->
  starts_with (CRLF ++ tail) (drop j (p ++ x0d :: q)) = false.
Proof.
  intros Hp Hj. destruct (starts_with _ _) eqn:Hs; [|done].
  apply crlf_needs_lf in Hs.
  destruct (decide (j + 1 < length p)) as [Hlt|Hge].
  - rewrite lookup_app_l in Hs by done.
    apply list_elem_of_lookup_2 in Hs. done.
  - rewrite lookup_app_r in Hs by lia.
    replace (j + 1 - length p) with 0 in Hs by lia. done.
Qed.

Lemma find_skip_prefix {A : Type} `{EqDecision A} (sub p q : list A) (i : nat) :
  (forall j, j < length p -> starts_with sub (drop j (p ++ q)) = false) ->
  find_from sub q 0 = Some i ->
  find_from sub (p ++ q) 0 = Some (length p + i).
Proof.
  intros Hp Hq. apply find_from_first in Hq as (_ & Hat & Hbefore & Hlen).
  specialize (Hlen ltac:(lia)).
  apply find_from_found.
  - rewrite length_app. lia.
  - by rewrite drop_app_add.
  - intros j [_ Hj]. destruct (decide (j < length p)) as [Hlt|Hge]; [by apply Hp|].
    replace j with (length p + (j - length p)) by lia. rewrite drop_app_add.
    apply Hbefore. lia.
Qed.

(** The first CRLF of data whose first line has no LF. *)
Lemma first_crlf (line more : bytes) :
  x0a ∉ line -> find_from CRLF (line ++ CRLF ++ more) 0 = Some (length line).
Proof.
  intros Hline. replace (length line) with (length line + 0) by lia.
  apply find_skip_prefix.
  - intros j Hj. apply (no_crlf_inside [] line (x0a :: more) j Hline Hj).
  - reflexivity.
Qed.

Lemma no_lf_no_crlf (d : bytes) : x0a ∉ d -> find_from CRLF d 0 = None.
Proof.
  intros Hd. destruct (find_from CRLF d 0) as [q|] eqn:Hq; [|done].
  apply find_from_first in Hq as (_ & Hat & _).
  apply (crlf_needs_lf []) in Hat. apply list_elem_of_lookup_2 in Hat. done.
Qed.

(** The tokens of a request line: the method, the target, and whatever
    follows the target after a blank. *)
Lemma request_line_tokens (m url tail : bytes) :
  x20 ∉ m -> x20 ∉ url -> tail = [] \/ (exists t, tail = x20 :: t) ->
  exists more, split_on x20 (m ++ x20 :: url ++ tail) = m :: url :: more.
Proof.
  intros Hm Hurl [->|[t ->]]; rewrite split_on_app by done.
  - rewrite app_nil_r, split_on_none by done. by exists [].
  - rewrite split_on_app by done. by eexists.
Qed.

Lemma find_at_shift {A : Type} `{EqDecision A} (sub l : list A) (i : nat) :
  find_at sub l i = (fun q => i + q) <$> find_at sub l 0.
Proof.
  revert i. induction l as [|a l IH]; intros i; cbn [find_at].
  - destruct (starts_with sub []); simpl; [f_equal; lia|done].
  - destruct (starts_with sub (a :: l)); simpl; [f_equal; lia|].
    rewrite (IH (S i)), (IH 1). destruct (find_at sub l 0); simpl; [f_equal; lia|done].
Qed.

Lemma find_from_app_length {A : Type} `{EqDecision A} (sub p q : list A) :
  find_from sub (p ++ q) (length p) = (fun i => length p + i) <$> find_from sub q 0.
Proof.
  unfold find_from. rewrite drop_app_length, drop_0. apply find_at_shift.
Qed.

Lemma starts_with_cr {A : Type} `{EqDecision A} (sub h r : list A) (c : A) :
  c ∉ sub -> starts_with sub h = false -> starts_with sub (h ++ c :: r) = false.
Proof.
  revert h. induction sub as [|a sub IH]; intros h Hc Hs; [done|].
  apply not_elem_of_cons in Hc as [Hne Hc].
  destruct h as [|b h]; simpl in *.
  - by rewrite decide_False.
  - destruct (decide (a = b)); [by apply IH|done].
Qed.

Lemma header_block_cr (hs : list bytes) (y : bytes) :
  exists more, header_block hs ++ CRLF ++ y = CRLF ++ more.
Proof.
  destruct hs as [|h hs]; [exists y; reflexivity|].
  unfold header_block. simpl. eexists. reflexivity.
Qed.

(** Where the parser finds the Host header: after the request line and the
    header lines that do not begin with [Host: ]. *)
Lemma host_position (line : bytes) (hs : list bytes) (y : bytes) :
  x0a ∉ line -> Forall other_header hs ->
  find_from (CRLF ++ HOST) (line ++ header_block hs ++ CRLF ++ HOST ++ y) 0
    = Some (length line + length (header_block hs)).
Proof.
  intros Hline Hhs.
  apply find_skip_prefix.
  { intros j Hj. destruct (header_block_cr hs (HOST ++ y)) as [more ->].
    by apply (no_crlf_inside HOST line (x0a :: more)). }
  induction Hhs as [|h hs [Hlf Hhost] _ IH].
  - apply find_from_found; [simpl; lia| |intros j Hj; simpl in Hj; lia].
    apply starts_with_spec. exists y. by rewrite <- app_assoc.
  - change (header_block (h :: hs)) with ((CRLF ++ h) ++ header_block hs).
    rewrite <- (app_assoc (CRLF ++ h)). rewrite length_app.
    apply find_skip_prefix; [|exact IH].
    intros j Hj. destruct (header_block_cr hs (HOST ++ y)) as [more ->].
    destruct j as [|[|j]].
    + cbn [drop]. change (starts_with HOST (h ++ x0d :: x0a :: more) = false).
      apply starts_with_cr; [|done]. by_compute.
    + reflexivity.
    + change (starts_with (CRLF ++ HOST) (drop j (h ++ x0d :: x0a :: more)) = false).
      apply no_crlf_inside; [done|]. rewrite length_app in Hj. simpl in Hj. lia.
Qed.

Lemma CONNECT_token : token CONNECT.
Proof. split; by_compute. Qed.

(** The parser on a request whose first line is [m url tail]: up to the
    choice between CONNECT and the Host header. *)
Lemma parse_request_line (m url tail more : bytes) :
  token m -> token url -> line_tail tail ->
  exists rest,
    find_from CRLF (request_line m url tail ++ CRLF ++ more) 0
      = Some (length (request_line m url tail)) /\
    split_on x20 (request_line m url tail) = m :: url :: rest.
Proof.
  intros [Hm Hm'] [Hu Hu'] [Ht Ht'].
  destruct (request_line_tokens m url tail Hm Hu Ht') as [rest Hrest].
  exists rest. split; [|done].
  apply first_crlf. unfold request_line.
  rewrite !not_elem_of_app, !not_elem_of_cons, !not_elem_of_app. by repeat split.
Qed.

(** X1. For a request whose first line is CONNECT, a blank and
    [host:port] (then nothing, or a blank and anything without LF),
    [_parse_http_request] returns the method, the host before the first
    colon and the port read by [int]; a target without colon gets port 443.
    What follows the first line is not looked at. *)
Theorem parse_connect (host pb tail more : bytes) (port : Z) :
  token host -> x3a ∉ host -> token pb -> line_tail tail ->
  py_int pb = Some port ->
  _parse_http_request (request_line CONNECT (host ++ x3a :: pb) tail ++ CRLF ++ more)
    = inr (CONNECT, host, port) /\
  _parse_http_request (request_line CONNECT host tail ++ CRLF ++ more)
    = inr (CONNECT, host, 443%Z).
Proof.
  intros Hhost Hcolon Hpb Htail Hport.
  assert (Hurl : token (host ++ x3a :: pb)).
  { destruct Hhost, Hpb. split; rewrite not_elem_of_app, not_elem_of_cons; by repeat split. }
  split.
  - destruct (parse_request_line CONNECT (host ++ x3a :: pb) tail more
                CONNECT_token Hurl Htail) as (rest & Hcrlf & Htok).
    unfold _parse_http_request. rewrite Hcrlf, take_app_length, Htok.
    rewrite decide_True by done. rewrite split1_app by done. simpl. by rewrite Hport.
  - destruct (parse_request_line CONNECT host tail more CONNECT_token Hhost Htail)
      as (rest & Hcrlf & Htok).
    unfold _parse_http_request. rewrite Hcrlf, take_app_length, Htok.
    rewrite decide_True by done. by rewrite split1_none.
Qed.

Lemma parse_connect_witness :
  let host := String.list_byte_of_string "example.com" in
  let pb := String.list_byte_of_string "8443" in
  let tail := String.list_byte_of_string " HTTP/1.1" in
  _parse_http_request (request_line CONNECT (host ++ x3a :: pb) tail ++ CRLF ++ CRLF)
    = inr (CONNECT, host, 8443%Z) /\
  _parse_http_request (request_line CONNECT host tail ++ CRLF ++ CRLF)
    = inr (CONNECT, host, 443%Z).
Proof.
  apply (parse_connect (String.list_byte_of_string "example.com")
           (String.list_byte_of_string "8443")
           (String.list_byte_of_string " HTTP/1.1") CRLF 8443%Z).
  - split; by_compute.
  - by_compute.
  - split; by_compute.
  - split; [by_compute | right; eexists; reflexivity].
  - reflexivity.
Defined.

Lemma HOST_length : length (CRLF ++ HOST) = 8.
Proof. reflexivity. Qed.

(** The parser on a request with a Host header, up to the reading of the
    header's value. *)
Lemma parse_host_value (m url tail : bytes) (hs : list bytes) (value rest : bytes) :
  token m -> token url -> line_tail tail -> m <> CONNECT ->
  Forall other_header hs -> x0a ∉ value ->
  _parse_http_request
    (request_line m url tail ++ header_block hs ++ CRLF ++ HOST ++ value ++ CRLF ++ rest)
  = match host_port (split1 x3a value) 80 with
    | inr (host, port) => inr (m, host, port)
    | inl e => inl e
    end.
Proof.
  intros Hm Hurl Htail Hmethod Hhs Hvalue.
  set (line := request_line m url tail).
  assert (Hline : x0a ∉ line).
  { destruct Hm, Hurl, Htail. unfold line, request_line.
    rewrite !not_elem_of_app, !not_elem_of_cons, !not_elem_of_app. by repeat split. }
  destruct (header_block_cr hs (HOST ++ value ++ CRLF ++ rest)) as [more Hmore].
  destruct (parse_request_line m url tail more Hm Hurl Htail) as (toks & Hcrlf & Htok).
  fold line in Hcrlf, Htok. rewrite <- Hmore in Hcrlf.
  pose proof (host_position line hs (value ++ CRLF ++ rest) Hline Hhs) as Hpos.
  unfold _parse_http_request.
  rewrite Hpos, Hcrlf, take_app_length, Htok. rewrite decide_False by done.
  set (data := line ++ header_block hs ++ CRLF ++ HOST ++ value ++ CRLF ++ rest).
  assert (Hdata : data = (line ++ header_block hs ++ CRLF ++ HOST) ++ value ++ CRLF ++ rest).
  { unfold data. by rewrite <- !app_assoc. }
  assert (Hstart : length line + length (header_block hs) + 8
                   = length (line ++ header_block hs ++ CRLF ++ HOST)).
  { rewrite !length_app. simpl. lia. }
  rewrite Hstart, Hdata, find_from_app_length, first_crlf by done.
  cbn [fmap option_fmap option_map].
  unfold slice. rewrite drop_app_length.
  replace (length (line ++ header_block hs ++ CRLF ++ HOST) + length value
           - length (line ++ header_block hs ++ CRLF ++ HOST)) with (length value) by lia.
  by rewrite take_app_length.
Qed.

(** X2. For any other method the host and the port come from the
    first [Host: ] header that follows a CRLF: the value up to the next CRLF
    is cut at its first colon, and a value without colon gets port 80. The
    target of the request line is not used. *)
Theorem parse_host_header (m url tail : bytes) (hs : list bytes)
    (host pb rest : bytes) (port : Z) :
  token m -> token url -> line_tail tail -> m <> CONNECT ->
  Forall other_header hs ->
  x3a ∉ host -> x0a ∉ host -> x0a ∉ pb -> py_int pb = Some port ->
  _parse_http_request
    (request_line m url tail ++ header_block hs
       ++ CRLF ++ HOST ++ (host ++ x3a :: pb) ++ CRLF ++ rest)
    = inr (m, host, port) /\
  _parse_http_request
    (request_line m url tail ++ header_block hs ++ CRLF ++ HOST ++ host ++ CRLF ++ rest)
    = inr (m, host, 80%Z).
Proof.
  intros Hm Hurl Htail Hmethod Hhs Hcolon Hhost Hpb Hport. split.
  - rewrite parse_host_value; try done.
    + rewrite split1_app by done. simpl. by rewrite Hport.
    + rewrite not_elem_of_app, not_elem_of_cons. by repeat split.
  - rewrite parse_host_value; try done. by rewrite split1_none.
Qed.

Lemma parse_host_header_witness :
  let m := String.list_byte_of_string "GET" in
  let url := String.list_byte_of_string "/index.html" in
  let tail := String.list_byte_of_string " HTTP/1.1" in
  let hs := [String.list_byte_of_string "Accept: */*"] in
  let host := String.list_byte_of_string "example.com" in
  let pb := String.list_byte_of_string "8080" in
  _parse_http_request
    (request_line m url tail ++ header_block hs
       ++ CRLF ++ HOST ++ (host ++ x3a :: pb) ++ CRLF ++ CRLF)
    = inr (m, host, 8080%Z) /\
  _parse_http_request
    (request_line m url tail ++ header_block hs ++ CRLF ++ HOST ++ host ++ CRLF ++ CRLF)
    = inr (m, host, 80%Z).
Proof.
  apply (parse_host_header (String.list_byte_of_string "GET")
           (String.list_byte_of_string "/index.html")
           (String.list_byte_of_string " HTTP/1.1")
           [String.list_byte_of_string "Accept: */*"]
           (String.list_byte_of_string "example.com")
           (String.list_byte_of_string "8080") CRLF 8080%Z).
  - split; by_compute.
  - split; by_compute.
  - split; [by_compute | right; eexists; reflexivity].
  - discriminate.
  - constructor; [split; [by_compute | reflexivity] | constructor].
  - by_compute.
  - by_compute.
  - by_compute.
  - reflexivity.
Defined.



(** X4. [_parse_http_request] raises instead of returning: ValueError
    (malformed request) for data without LF, hence without CRLF; IndexError
    for a first line without a blank; ValueError from [int] for a CONNECT
    target whose port is not an integer literal. *)
Theorem parse_rejects (d line host pb tail more : bytes) :
  x0a ∉ d ->
  token line ->
  token host -> x3a ∉ host -> token pb -> line_tail tail -> py_int pb = None ->
  _parse_http_request d = inl Malformed /\
  _parse_http_request (line ++ CRLF ++ more) = inl IndexError /\
  _parse_http_request (request_line CONNECT (host ++ x3a :: pb) tail ++ CRLF ++ more)
    = inl InvalidLiteral.
Proof.
  intros Hd [Hblank Hline] Hhost Hcolon Hpb Htail Hport. split; [|split].
  - unfold _parse_http_request. by rewrite no_lf_no_crlf.
  - unfold _parse_http_request. rewrite first_crlf by done.
    rewrite take_app_length. by rewrite split_on_none.
  - assert (Hurl : token (host ++ x3a :: pb)).
    { destruct Hhost, Hpb. split; rewrite not_elem_of_app, not_elem_of_cons; by repeat split. }
    destruct (parse_request_line CONNECT (host ++ x3a :: pb) tail more
                CONNECT_token Hurl Htail) as (rest & Hcrlf & Htok).
    unfold _parse_http_request. rewrite Hcrlf, take_app_length, Htok.
    rewrite decide_True by done. rewrite split1_app by done. simpl. by rewrite Hport.
Qed.

Lemma parse_rejects_witness :
  let host := String.list_byte_of_string "example.com" in
  let pb := String.list_byte_of_string "https" in
  let tail := String.list_byte_of_string " HTTP/1.1" in
  _parse_http_request (String.list_byte_of_string "GET / HTTP/1.1") = inl Malformed /\
  _parse_http_request (String.list_byte_of_string "GET" ++ CRLF ++ CRLF) = inl IndexError /\
  _parse_http_request (request_line CONNECT (host ++ x3a :: pb) tail ++ CRLF ++ CRLF)
    = inl InvalidLiteral.
Proof.
  apply (parse_rejects (String.list_byte_of_string "GET / HTTP/1.1")
           (String.list_byte_of_string "GET")
           (String.list_byte_of_string "example.com")
           (String.list_byte_of_string "https")
           (String.list_byte_of_string " HTTP/1.1") CRLF).
  - by_compute.
  - split; by_compute.
  - split; by_compute.
  - by_compute.
  - split; by_compute.
  - split; [by_compute | right; eexists; reflexivity].
  - reflexivity.
Defined.

(** The pieces of [split_seq]: the first is a prefix of the list, every
    other one follows an occurrence of the separator. *)
Lemma split_seq_go_skip {A : Type} `{EqDecision A} (sep cur l : list A) (skip : nat) :
  split_seq_go sep skip cur l = split_seq_go sep 0 cur (drop skip l).
Proof.
  revert skip. induction l as [|a l IH]; intros [|skip]; try done.
  cbn [split_seq_go drop]. apply IH.
Qed.

Lemma split_seq_go_pieces {A : Type} `{EqDecision A} (sep : list A) (n : nat) :
  sep <> [] ->
  forall l cur, length l <= n ->
  exists p0 ps,
    split_seq_go sep 0 cur l = p0 :: ps /\
    (exists r, p0 = cur ++ take r l) /\
    forall p, p ∈ ps -> exists j, starts_with (sep ++ p) (drop j l) = true.
Proof.
  intros Hsep. induction n as [|n IH]; intros l cur Hn.
  { destruct l; [|simpl in Hn; lia]. exists cur, []. split; [done|].
    split; [exists 0; by rewrite app_nil_r|]. intros p Hp. by apply elem_of_nil in Hp. }
  destruct l as [|a l].
  { exists cur, []. split; [done|].
    split; [exists 0; by rewrite app_nil_r|]. intros p Hp. by apply elem_of_nil in Hp. }
  cbn [split_seq_go]. destruct (starts_with sep (a :: l)) eqn:Hs.
  - rewrite split_seq_go_skip.
    destruct (IH (drop (length sep - 1) l) []) as (p0 & ps & Hgo & [r Hr] & Hps).
    { rewrite length_drop. simpl in Hn. lia. }
    exists cur, (p0 :: ps). rewrite Hgo. split; [done|].
    split; [exists 0; by rewrite app_nil_r|].
    apply starts_with_spec in Hs as [rest Hrest].
    assert (Hdrop : drop (length sep - 1) l = rest).
    { destruct sep as [|s sep]; [done|]. simpl in Hrest. injection Hrest as -> ->.
      simpl. rewrite Nat.sub_0_r. apply drop_app_length. }
    rewrite Hdrop in *. intros p Hp. apply elem_of_cons in Hp as [->|Hp].
    + exists 0. cbn [drop]. rewrite Hrest. apply starts_with_spec.
      exists (drop r rest). simpl in Hr. rewrite Hr, <- app_assoc.
      by rewrite take_drop.
    + destruct (Hps p Hp) as [j Hj]. exists (length sep + j).
      rewrite Hrest. by rewrite drop_app_add.
  - destruct (IH l (cur ++ [a])) as (p0 & ps & Hgo & [r Hr] & Hps).
    { simpl in Hn. lia. }
    exists p0, ps. split; [done|]. split.
    + exists (S r). rewrite Hr, <- app_assoc. done.
    + intros p Hp. destruct (Hps p Hp) as [j Hj]. by exists (S j).
Qed.

Lemma starts_with_trans {A : Type} `{EqDecision A} (a b l : list A) :
  starts_with a b = true -> starts_with b l = true -> starts_with a l = true.
Proof.
  rewrite !starts_with_spec. intros [r ->] [r' ->]. exists (r ++ r').
  by rewrite app_assoc.
Qed.

Lemma starts_with_take {A : Type} `{EqDecision A} (a l : list A) (r : nat) :
  starts_with a (take r l) = true -> starts_with a l = true.
Proof.
  intros H. apply (starts_with_trans a (take r l)); [done|].
  apply starts_with_spec. exists (drop r l). by rewrite take_drop.
Qed.

(** The first token of data that begin with [Host: ]. *)
Lemma host_first_token (d : bytes) (n : nat) (method url : bytes) (rest : list bytes) :
  starts_with HOST d = true ->
  find_from CRLF d 0 = Some n ->
  split_on x20 (take n d) = method :: url :: rest ->
  method = String.list_byte_of_string "Host:".
Proof.
  intros Hd Hn Htok. apply starts_with_spec in Hd as [r ->].
  apply find_from_first in Hn as (_ & Hat & _).
  assert (6 <= n).
  { destruct (decide (6 <= n)); [done|].
    pose proof (starts_with_lookup CRLF (HOST ++ r) n 0 x0d Hat eq_refl) as Hcr.
    rewrite Nat.add_0_r in Hcr.
    do 6 (destruct n as [|n]; [discriminate|]). lia. }
  rewrite take_app_ge in Htok by (simpl; lia).
  change (HOST ++ take (n - length HOST) r)
    with (String.list_byte_of_string "Host:" ++ x20 :: take (n - length HOST) r) in Htok.
  rewrite split_on_app in Htok by by_compute. by injection Htok.
Qed.

(** X5. A [Host: ] header is found only behind a CRLF. When the parser
    returns for a request that is not CONNECT and that has no
    CRLF-then-[Host: ], it went through the fallback scan of the split lines,
    and the only line that scan can accept is the first one: the data itself
    begins with [Host: ] and the method returned is [Host:]. *)
Theorem host_header_only_after_crlf (d method host : bytes) (port : Z) :
  _parse_http_request d = inr (method, host, port) ->
  method <> CONNECT ->
  find_from (CRLF ++ HOST) d 0 = None ->
  starts_with HOST d = true /\ method = String.list_byte_of_string "Host:".
Proof.
  intros Hparse Hmethod Hnone. unfold _parse_http_request in Hparse.
  destruct (find_from CRLF d 0) as [n|] eqn:Hn; [|done].
  destruct (split_on x20 (take n d)) as [|m [|url rest]] eqn:Htok; [done..|].
  destruct (decide (m = CONNECT)) as [->|Hm].
  { destruct (host_port _ _) as [|[h p]]; [done|]. by simplify_eq. }
  rewrite Hnone in Hparse.
  destruct (List.find (starts_with HOST) (split_seq CRLF d)) as [hh|] eqn:Hfind; [|done].
  assert (method = m) as ->.
  { destruct hh; [done|]. destruct (host_port _ _) as [|[h p]]; [done|]. by simplify_eq. }
  apply List.find_some in Hfind as [Hin Hhh]. apply list_elem_of_In in Hin.
  destruct (split_seq_go_pieces CRLF (length d) ltac:(done) d [] ltac:(lia))
    as (p0 & ps & Hgo & [r Hr] & Hps).
  unfold split_seq in Hin. rewrite Hgo in Hin.
  assert (Hstart : starts_with HOST d = true).
  { apply elem_of_cons in Hin as [->|Hin].
    - simpl in Hr. subst p0. by apply starts_with_take in Hhh.
    - destruct (Hps hh Hin) as [j Hj].
      pose proof (find_from_none _ _ _ j Hnone ltac:(lia)) as Hno.
      assert (Hyes : starts_with (CRLF ++ HOST) (drop j d) = true); [|congruence].
      apply starts_with_spec in Hj as [t Ht]. apply starts_with_spec in Hhh as [t' ->].
      apply starts_with_spec. exists (t' ++ t). rewrite Ht. by rewrite <- !app_assoc. }
  split; [done|]. by apply (host_first_token d n m url rest).
Qed.

Lemma host_header_only_after_crlf_witness :
  let d := String.list_byte_of_string "Host: example.com x" ++ CRLF in
  starts_with HOST d = true /\
  String.list_byte_of_string "Host:" = String.list_byte_of_string "Host:".
Proof.
  apply (host_header_only_after_crlf
           (String.list_byte_of_string "Host: example.com x" ++ CRLF)
           (String.list_byte_of_string "Host:")
           (String.list_byte_of_string "example.com x") 80%Z).
  - reflexivity.
  - discriminate.
  - reflexivity.
Defined.

(** ** dns_cache.py: capacity, round trip, eviction *)

Lemma get_None (key : string) (c : DNSCache.cache) :
  DNSCache.get key c = None <-> key ∉ keys c.
Proof.
  induction c as [|[k v] c IH]; simpl.
  - split; [intros _; apply not_elem_of_nil|done].
  - rewrite not_elem_of_cons. destruct (decide (k = key)) as [->|Hne].
    + split; [done|]. by intros [? _].
    + rewrite IH. split; [intros ?; by split|by intros [_ ?]].
Qed.

Lemma keys_set (key : string) (v : Z * list addrinfo) (c : DNSCache.cache) :
  keys (DNSCache.set key v c) =
  match DNSCache.get key c with
  | Some _ => keys c
  | None => keys c ++ [key]
  end.
Proof.
  unfold keys. induction c as [|[k w] c IH]; [done|].
  cbn [DNSCache.set DNSCache.get]. destruct (decide (k = key)) as [->|Hne].
  - by rewrite !fmap_cons.
  - rewrite !fmap_cons, IH. by destruct (DNSCache.get key c).
Qed.

Lemma NoDup_keys_set (key : string) (v : Z * list addrinfo) (c : DNSCache.cache) :
  NoDup (keys c) -> NoDup (keys (DNSCache.set key v c)).
Proof.
  intros Hc. rewrite keys_set. destruct (DNSCache.get key c) eqn:Hget; [done|].
  apply get_None in Hget. apply NoDup_app. split; [done|].
  split; [|apply NoDup_singleton].
  intros x Hx Hx'. apply list_elem_of_singleton in Hx' as ->. done.
Qed.

Lemma get_tail (key : string) (c : DNSCache.cache) :
  NoDup (keys c) ->
  DNSCache.get key (tail c) = DNSCache.get key c \/
  (exists v, head c = Some (key, v)) /\ DNSCache.get key (tail c) = None.
Proof.
  destruct c as [|[k v] c]; simpl; [by left|].
  intros Hnd. apply NoDup_cons in Hnd as [Hk _].
  destruct (decide (k = key)) as [->|Hne]; [|by left].
  right. split; [by exists v|]. by apply get_None.
Qed.

(** X6. [resolve] keeps the cache well formed: starting from a cache
    with one entry per key and at most [max_entries] entries (and
    [max_entries] positive), a call that returns leaves such a cache, with
    the same limits. The record of any other key is as before, except that
    of the oldest entry, which may have been dropped. *)
Theorem resolve_within_capacity (self self' : DNSCache.t) (now : Z)
    (getaddrinfo : string -> Z -> result (list addrinfo)) (host : string) (port : Z)
    (addrs : list addrinfo) :
  0 < DNSCache.max_entries self ->
  within_capacity self ->
  DNSCache.resolve self now getaddrinfo host port = Ok (addrs, self') ->
  within_capacity self' /\
  DNSCache.max_entries self' = DNSCache.max_entries self /\
  DNSCache.ttl self' = DNSCache.ttl self /\
  forall key', key' <> DNSCache.key_of host port ->
    DNSCache.get key' (DNSCache._cache self') = DNSCache.get key' (DNSCache._cache self) \/
    (exists v, head (DNSCache._cache self) = Some (key', v)) /\
    DNSCache.get key' (DNSCache._cache self') = None.
Proof.
  intros Hmax [Hnd Hlen] Hres. unfold DNSCache.resolve in Hres.
  set (key := DNSCache.key_of host port) in *.
  set (c := DNSCache._cache self) in *.
  destruct (match DNSCache.get key c with
            | Some (expiry, cached) => if decide (expiry > now)%Z then Some cached else None
            | None => None
            end) as [cached|].
  { simplify_eq. repeat split; try done. intros; by left. }
  destruct (getaddrinfo host port) as [a| |]; [|done..]. cbn [rbind] in Hres.
  destruct (decide (DNSCache.max_entries self <= length c)) as [Hfull|Hroom].
  - rewrite pop_first_ok in Hres by lia. cbn [rbind] in Hres. simplify_eq.
    unfold within_capacity. cbn [DNSCache._cache DNSCache.max_entries DNSCache.ttl].
    assert (Hnd' : NoDup (keys (tail c))).
    { clearbody c. destruct c as [|[k v] c']; [done|].
      simpl in Hnd. apply NoDup_cons in Hnd as [_ Hnd]. exact Hnd. }
    assert (Htail : length (tail c) = length c - 1).
    { clearbody c. destruct c; simpl; lia. }
    split; [split|].
    + by apply NoDup_keys_set.
    + rewrite set_length. destruct (DNSCache.get key (tail c)); lia.
    + repeat split. intros key' Hne. rewrite get_set_ne by done. by apply get_tail.
  - cbn [rbind] in Hres. simplify_eq.
    unfold within_capacity. cbn [DNSCache._cache DNSCache.max_entries DNSCache.ttl].
    split; [split|].
    + by apply NoDup_keys_set.
    + rewrite set_length. destruct (DNSCache.get key c); lia.
    + repeat split. intros key' Hne. rewrite get_set_ne by done. by left.
Qed.

Lemma resolve_within_capacity_witness :
  exists addrs self',
    DNSCache.resolve small_cache 100%Z one_address "c.test" 80%Z = Ok (addrs, self') /\
    within_capacity self' /\
    DNSCache.max_entries self' = DNSCache.max_entries small_cache /\
    DNSCache.ttl self' = DNSCache.ttl small_cache /\
    forall key', key' <> DNSCache.key_of "c.test" 80%Z ->
      DNSCache.get key' (DNSCache._cache self')
        = DNSCache.get key' (DNSCache._cache small_cache) \/
      (exists v, head (DNSCache._cache small_cache) = Some (key', v)) /\
      DNSCache.get key' (DNSCache._cache self') = None.
Proof.
  eexists _, _. split; [reflexivity|].
  eapply (resolve_within_capacity small_cache _ 100%Z one_address "c.test" 80%Z).
  - simpl. lia.
  - split; [by_compute | simpl; lia].
  - reflexivity.
Defined.

(** X7. A lookup that misses the cache stores its answer: the same
    question asked again before [now + ttl] is answered from the cache with
    the same addresses, whatever the resolver would say, and leaves the cache
    as it is; from [now + ttl] on the resolver is asked again, and its
    failure is raised. *)
Theorem resolve_round_trip (self : DNSCache.t) (now : Z)
    (getaddrinfo : string -> Z -> result (list addrinfo)) (host : string) (port : Z)
    (addrs : list addrinfo) :
  0 < DNSCache.max_entries self ->
  stale (DNSCache.key_of host port) now (DNSCache._cache self) ->
  getaddrinfo host port = Ok addrs ->
  exists self',
    DNSCache.resolve self now getaddrinfo host port = Ok (addrs, self') /\
    (forall now' getaddrinfo',
       (now' < now + DNSCache.ttl self)%Z ->
       DNSCache.resolve self' now' getaddrinfo' host port = Ok (addrs, self')) /\
    (forall now' getaddrinfo' e,
       (now + DNSCache.ttl self <= now')%Z ->
       getaddrinfo' host port = Raise e ->
       DNSCache.resolve self' now' getaddrinfo' host port = Raise e).
Proof.
  intros Hmax Hstale Haddrs.
  set (key := DNSCache.key_of host port) in *.
  assert (Hmiss : match DNSCache.get key (DNSCache._cache self) with
                  | Some (expiry, cached) =>
                      if decide (expiry > now)%Z then Some cached else None
                  | None => None
                  end = None).
  { destruct (DNSCache.get key _) as [[expiry cached]|] eqn:Hget; [|done].
    specialize (Hstale _ _ Hget). by rewrite decide_False by lia. }
  exists (DNSCache.mk (DNSCache.ttl self) (DNSCache.max_entries self)
            (DNSCache.set key ((now + DNSCache.ttl self)%Z, addrs)
               (if decide (DNSCache.max_entries self <= length (DNSCache._cache self))
                then tail (DNSCache._cache self) else DNSCache._cache self))).
  split; [|split].
  - unfold DNSCache.resolve. fold key. rewrite Hmiss, Haddrs. cbn [rbind].
    destruct (decide (DNSCache.max_entries self <= length (DNSCache._cache self))).
    + rewrite pop_first_ok by lia. reflexivity.
    + reflexivity.
  - intros now' g' Hnow. unfold DNSCache.resolve. fold key. cbn [DNSCache._cache].
    rewrite get_set_eq. by rewrite decide_True by lia.
  - intros now' g' e Hnow Hg. unfold DNSCache.resolve. fold key. cbn [DNSCache._cache].
    rewrite get_set_eq. rewrite decide_False by lia. by rewrite Hg.
Qed.

Lemma resolve_round_trip_witness :
  let addrs := [(2%Z, 1%Z, 6%Z, "", ("a.test", 80%Z))] in
  exists self',
    DNSCache.resolve small_cache 100%Z one_address "a.test" 80%Z = Ok (addrs, self') /\
    (forall now' getaddrinfo',
       (now' < 100 + DNSCache.ttl small_cache)%Z ->
       DNSCache.resolve self' now' getaddrinfo' "a.test" 80%Z = Ok (addrs, self')) /\
    (forall now' getaddrinfo' e,
       (100 + DNSCache.ttl small_cache <= now')%Z ->
       getaddrinfo' "a.test" 80%Z = Raise e ->
       DNSCache.resolve self' now' getaddrinfo' "a.test" 80%Z = Raise e).
Proof.
  apply (resolve_round_trip small_cache 100%Z one_address "a.test" 80%Z
           [(2%Z, 1%Z, 6%Z, "", ("a.test", 80%Z))]).
  - simpl. lia.
  - intros expiry cached H. vm_compute in H. injection H as <- _. lia.
  - reflexivity.
Defined.

(** X8. Refreshing an expired entry of a full cache evicts the oldest
    entry although no room is needed: the entry count is compared with
    [max_entries] before the key is looked at, so the first key goes and the
    cache ends one entry below its capacity. *)
Theorem refresh_evicts_oldest (self : DNSCache.t) (now : Z)
    (getaddrinfo : string -> Z -> result (list addrinfo)) (host : string) (port : Z)
    (addrs : list addrinfo) (k0 : string) (v0 : Z * list addrinfo) (rest : DNSCache.cache) :
  DNSCache._cache self = (k0, v0) :: rest ->
  NoDup (keys (DNSCache._cache self)) ->
  length (DNSCache._cache self) = DNSCache.max_entries self ->
  DNSCache.key_of host port ∈ keys rest ->
  stale (DNSCache.key_of host port) now (DNSCache._cache self) ->
  getaddrinfo host port = Ok addrs ->
  exists self',
    DNSCache.resolve self now getaddrinfo host port = Ok (addrs, self') /\
    DNSCache.get k0 (DNSCache._cache self') = None /\
    length (DNSCache._cache self') = DNSCache.max_entries self - 1 /\
    DNSCache.get (DNSCache.key_of host port) (DNSCache._cache self')
      = Some ((now + DNSCache.ttl self)%Z, addrs).
Proof.
  intros Hc Hnd Hlen Hkey Hstale Haddrs.
  set (key := DNSCache.key_of host port) in *.
  assert (Hmiss : match DNSCache.get key (DNSCache._cache self) with
                  | Some (expiry, cached) =>
                      if decide (expiry > now)%Z then Some cached else None
                  | None => None
                  end = None).
  { destruct (DNSCache.get key _) as [[expiry cached]|] eqn:Hget; [|done].
    specialize (Hstale _ _ Hget). by rewrite decide_False by lia. }
  rewrite Hc in Hnd, Hlen. simpl in Hnd, Hlen. apply NoDup_cons in Hnd as [Hk0 Hnd].
  assert (Hne : key <> k0) by (intros ->; done).
  eexists. split; [|split; [|split]].
  - unfold DNSCache.resolve. fold key. rewrite Hmiss, Haddrs. cbn [rbind].
    rewrite decide_True by (rewrite Hc; simpl; lia). rewrite Hc. reflexivity.
  - cbn [DNSCache._cache]. rewrite get_set_ne by done. by apply get_None.
  - cbn [DNSCache._cache]. rewrite set_length.
    destruct (DNSCache.get key rest) eqn:Hget; [lia|].
    apply get_None in Hget. done.
  - cbn [DNSCache._cache]. apply get_set_eq.
Qed.

Lemma refresh_evicts_oldest_witness :
  let addrs := [(2%Z, 1%Z, 6%Z, "", ("b.test", 80%Z))] in
  exists self',
    DNSCache.resolve small_cache 300%Z one_address "b.test" 80%Z = Ok (addrs, self') /\
    DNSCache.get "a.test:80" (DNSCache._cache self') = None /\
    length (DNSCache._cache self') = DNSCache.max_entries small_cache - 1 /\
    DNSCache.get (DNSCache.key_of "b.test" 80%Z) (DNSCache._cache self')
      = Some ((300 + DNSCache.ttl small_cache)%Z, addrs).
Proof.
  apply (refresh_evicts_oldest small_cache 300%Z one_address "b.test" 80%Z
           [(2%Z, 1%Z, 6%Z, "", ("b.test", 80%Z))]
           "a.test:80" (50%Z, []) [("b.test:80", (200%Z, []))]).
  - reflexivity.
  - by_compute.
  - reflexivity.
  - by_compute.
  - intros expiry cached H. vm_compute in H. injection H as <- _. lia.
  - reflexivity.
Defined.

(** The decimal rendering of an integer has no colon. *)
Lemma uint_no_colon (d : Decimal.uint) :
  ":"%char ∉ Str.chars (NilEmpty.string_of_uint d).
Proof.
  induction d; simpl; rewrite ?not_elem_of_cons; try (split; [done|]); try done.
  apply not_elem_of_nil.
Qed.

Lemma of_Z_no_colon (z : Z) : ":"%char ∉ Str.chars (Str.of_Z z).
Proof.
  unfold Str.of_Z, NilZero.string_of_int, NilZero.string_of_uint.
  destruct (Z.to_int z) as [d|d]; destruct d; simpl;
    rewrite ?not_elem_of_cons; repeat (split; [done|]);
    try apply not_elem_of_nil; apply uint_no_colon.
Qed.

Lemma of_Z_inj (z z' : Z) : Str.of_Z z = Str.of_Z z' -> z = z'.
Proof.
  intros H. apply DecimalZ.to_int_inj.
  assert (Hok : forall x, NilZero.int_of_string (Str.of_Z x) = Some (Z.to_int x)).
  { intros x. apply NilZero.isi; destruct x; simpl; try done;
      intros [= Hx]; by apply DecimalPos.Unsigned.to_uint_nonnil in Hx. }
  apply (f_equal NilZero.int_of_string) in H. rewrite !Hok in H. by injection H.
Qed.

(** X9. The cache key [host:port] determines the host and the port:
    two questions share a record only if they are the same question, also
    for hosts that contain colons (IPv6 literals). *)
Theorem key_of_inj (host host' : string) (port port' : Z) :
  DNSCache.key_of host port = DNSCache.key_of host' port' ->
  host = host' /\ port = port'.
Proof.
  unfold DNSCache.key_of. intros H. apply (f_equal Str.chars) in H.
  rewrite !chars_app in H. simpl in H.
  apply not_elem_of_app_cons_inv_r in H as (Hh & _ & Hp); try apply of_Z_no_colon.
  split; [by apply chars_inj|]. apply of_Z_inj. by apply chars_inj.
Qed.

Lemma key_of_inj_witness :
  DNSCache.key_of "a.test" 80%Z = "a.test:80" /\ "a.test" = "a.test" /\ 80%Z = 80%Z.
Proof.
  split; [reflexivity|].
  apply (key_of_inj "a.test" "a.test" 80%Z 80%Z). reflexivity.
Defined.

(** ** connection.py: the shape of the fragments *)

Lemma slice_clip {A : Type} (a b : nat) (l : list A) :
  slice a (b `min` length l) l = slice a b l.
Proof.
  unfold slice. destruct (decide (b <= length l)).
  - by rewrite Nat.min_l.
  - rewrite Nat.min_r by lia. rewrite !take_ge; [done|rewrite length_drop; lia..].
Qed.

Lemma ceil32 (len k : nat) :
  k <= (len + 31) / 32 -> len <= 32 * k -> k = (len + 31) / 32.
Proof.
  intros Hk Hlen. pose proof (Nat.div_mod_eq (len + 31) 32).
  pose proof (Nat.mod_upper_bound (len + 31) 32). lia.
Qed.

Lemma ceil32_lt (len k : nat) : 32 * k < len -> S k <= (len + 31) / 32.
Proof.
  intros Hlen. pose proof (Nat.div_mod_eq (len + 31) 32).
  pose proof (Nat.mod_upper_bound (len + 31) 32). lia.
Qed.

(** The split loop cuts [data] into the windows of 32 bytes. *)
Lemma split_loop_windows (fuel : nat) (data : bytes) (k : nat) (parts : list bytes) :
  length data - 32 * k <= fuel ->
  (Z.of_nat (length data) < 65536)%Z ->
  k <= (length data + 31) / 32 ->
  length parts = k ->
  (forall i part, parts !! i = Some part ->
     is_record (slice (32 * i) (32 * i + 32) data) part) ->
  exists parts',
    split_loop fuel data ((32 * k) `min` length data) parts = Ok parts' /\
    length parts' = (length data + 31) / 32 /\
    forall i part, parts' !! i = Some part ->
      is_record (slice (32 * i) (32 * i + 32) data) part.
Proof.
  revert k parts. induction fuel as [|fuel IH]; intros k parts Hfuel Hlen Hk Hparts Hrec.
  - simpl. rewrite decide_False by lia. exists parts. split; [done|].
    split; [|done]. rewrite Hparts. apply ceil32; [done|lia].
  - rewrite split_loop_S. destruct (decide (_ < length data)) as [Hi|Hi].
    + assert (Hidx : (32 * k) `min` length data = 32 * k) by lia.
      rewrite Hidx. cbv zeta. set (n := 32 `min` (length data - 32 * k)).
      assert (Hn : length (slice (32 * k) (32 * k + n) data) = n).
      { unfold slice. rewrite length_take, length_drop. lia. }
      destruct (record_ok (slice (32 * k) (32 * k + n) data)) as (r & Hr & Hrec').
      { rewrite Hn. lia. }
      rewrite Hn in Hr. rewrite Hr. cbn [rbind].
      assert (Hwin : slice (32 * k) (32 * k + n) data = slice (32 * k) (32 * k + 32) data).
      { rewrite <- (slice_clip _ (32 * k + 32)). f_equal. lia. }
      replace (32 * k + n) with ((32 * S k) `min` length data) by lia.
      apply IH.
      * lia.
      * done.
      * apply ceil32_lt. lia.
      * rewrite length_app. simpl. lia.
      * intros i part Hi'. apply lookup_app_Some in Hi' as [Hi'|[Hge Hi']]; [by apply Hrec|].
        rewrite Hparts in *. apply list_lookup_singleton_Some in Hi' as [Hz <-].
        replace i with k by lia. by rewrite <- Hwin.
    + exists parts. split; [done|]. split; [|done].
      rewrite Hparts. apply ceil32; [done|lia].
Qed.

(** X10. The [split] and [split-jitter] methods cut a payload of n
    bytes into ceil(n/32) records: record i carries bytes 32i to 32i+31 of
    the payload, every record but the last carries 32 bytes, and none is
    empty. The payload is returned as it was. *)
Theorem split_records (method : string) (g : RNG) (data : bytes) :
  length data <= 2048 ->
  method = "split" \/ method = "split-jitter" ->
  exists parts,
    fragment method g data = Ok (parts, data, method, g) /\
    length parts = (length data + 31) / 32 /\
    forall i part, parts !! i = Some part ->
      is_record (slice (32 * i) (32 * i + 32) data) part /\
      1 <= length (slice (32 * i) (32 * i + 32) data) <= 32 /\
      (i + 1 < length parts -> length (slice (32 * i) (32 * i + 32) data) = 32).
Proof.
  intros Hlen Hm.
  destruct (split_loop_windows (length data) data 0 []) as (parts & Hloop & Hcount & Hrec);
    [lia|lia|lia|done|by intros i part Hi|].
  replace ((32 * 0) `min` length data) with 0 in Hloop by lia.
  exists parts. split; [|split; [done|]].
  - unfold fragment.
    rewrite decide_False by (destruct Hm as [-> | ->]; discriminate). cbn [rbind].
    rewrite decide_True by done. rewrite Hloop. cbn [rbind].
    by rewrite decide_True by tauto.
  - intros i part Hi. split; [by apply Hrec|].
    apply lookup_lt_Some in Hi. rewrite Hcount in *.
    pose proof (Nat.div_mod_eq (length data + 31) 32).
    pose proof (Nat.mod_upper_bound (length data + 31) 32).
    unfold slice. rewrite length_take, length_drop. lia.
Qed.

Lemma split_records_witness :
  let data := repeat x41 40 in
  exists parts,
    fragment "split" (fun i => i) data = Ok (parts, data, "split", fun i => i) /\
    length parts = (length data + 31) / 32 /\
    forall i part, parts !! i = Some part ->
      is_record (slice (32 * i) (32 * i + 32) data) part /\
      1 <= length (slice (32 * i) (32 * i + 32) data) <= 32 /\
      (i + 1 < length parts -> length (slice (32 * i) (32 * i + 32) data) = 32).
Proof.
  apply (split_records "split" (fun i => i) (repeat x41 40)).
  - simpl. lia.
  - by left.
Defined.

(** The random loop: every draw cuts at least one byte. *)
Lemma random_loop_cuts (fuel : nat) (g : RNG) (data : bytes) (parts : list bytes) :
  length data <= fuel ->
  (Z.of_nat (length data) < 65536)%Z ->
  exists ps g' payloads,
    random_loop fuel g data parts = Ok (parts ++ ps, [], g') /\
    Forall2 is_record payloads ps /\
    concat payloads = data /\
    Forall (fun p => 1 <= length p) payloads.
Proof.
  revert g data parts. induction fuel as [|fuel IH]; intros g data parts Hfuel Hlen.
  - destruct data; simpl in *; [|lia].
    exists [], g, []. rewrite app_nil_r. by repeat split.
  - destruct data as [|b data'] eqn:Hd.
    { simpl. exists [], g, []. rewrite app_nil_r. by repeat split. }
    rewrite <- Hd in *. assert (Hpos : 0 < length data) by (subst; simpl; lia).
    assert (Hstep : random_loop (S fuel) g data parts =
      (let* (n, g') := randrange g 1 (length data + 1) in
       let* r := record n (take n data) in
       random_loop fuel g' (drop n data) (parts ++ [r]))).
    { subst data. reflexivity. }
    rewrite Hstep. clear Hstep. unfold randrange.
    destruct (decide (1 < length data + 1)) as [_|Hn]; [|lia]. cbn [rbind].
    set (n := 1 + g 0 mod (length data + 1 - 1)).
    assert (Hn : 1 <= n <= length data).
    { subst n. replace (length data + 1 - 1) with (length data) by lia.
      pose proof (Nat.mod_upper_bound (g 0) (length data)). lia. }
    assert (Hln : length (take n data) = n) by (rewrite length_take; lia).
    destruct (record_ok (take n data)) as (r & Hr & Hrec); [lia|].
    rewrite Hln in Hr. rewrite Hr. cbn [rbind].
    destruct (IH (fun i => g (S i)) (drop n data) (parts ++ [r]))
      as (ps & g' & pl & Hps & Hall & Hcat & Hne).
    { rewrite length_drop. lia. }
    { rewrite length_drop. lia. }
    exists (r :: ps), g', (take n data :: pl).
    rewrite Hps, <- app_assoc. split; [done|]. split; [by constructor|].
    split; [simpl; rewrite Hcat; apply take_drop|].
    constructor; [lia|done].
Qed.

(** X11. The [random] method (any method name other than the three
    named ones) never makes an empty record and makes at most as many
    records as the payload has bytes; when the payload holds a zero byte the
    first record ends with the first such byte. *)
Theorem random_records (method : string) (g : RNG) (data : bytes) :
  length data <= 2048 ->
  method <> "sni" -> method <> "split" -> method <> "split-jitter" ->
  exists parts g' payloads,
    fragment method g data = Ok (parts, [], method, g') /\
    Forall2 is_record payloads parts /\
    concat payloads = data /\
    Forall (fun p => 1 <= length p) payloads /\
    length parts <= length data /\
    forall h, find_from [x00] data 0 = Some h ->
      exists rest, payloads = take (h + 1) data :: rest.
Proof.
  intros Hlen H1 H2 H3. unfold fragment.
  rewrite decide_False by done. cbn [rbind].
  rewrite decide_False by tauto. cbn [rbind].
  rewrite decide_False by tauto.
  assert (Hcount : forall (payloads parts : list bytes),
    Forall2 is_record payloads parts -> Forall (fun p => 1 <= length p) payloads ->
    length parts <= length (concat payloads)).
  { intros payloads parts Hrec. induction Hrec as [|p r ps rs _ _ IH]; intros Hne; [done|].
    apply Forall_cons in Hne as [Hp Hne]. simpl. rewrite length_app.
    specialize (IH Hne). lia. }
  destruct (find_from [x00] data 0) as [h|] eqn:Hfind; cbv zeta.
  - assert (Hh : h < length data) by (eapply find_from_lt; [|done]; done).
    assert (Hl : length (take (h + 1) data) = h + 1) by (rewrite length_take; lia).
    destruct (record_ok (take (h + 1) data)) as (r & Hr & Hrec); [lia|].
    rewrite Hl in Hr. rewrite Hr. cbn [rbind].
    destruct (random_loop_cuts (length (drop (h + 1) data)) g (drop (h + 1) data) ([] ++ [r]))
      as (ps & g' & pl & Hps & Hall & Hcat & Hne).
    { done. } { rewrite length_drop. lia. }
    rewrite Hps. cbn [rbind].
    exists (([] ++ [r]) ++ ps), g', (take (h + 1) data :: pl).
    assert (Hcat' : concat (take (h + 1) data :: pl) = data).
    { simpl. rewrite Hcat. apply take_drop. }
    assert (Hne' : Forall (fun p => 1 <= length p) (take (h + 1) data :: pl)).
    { constructor; [lia|done]. }
    split; [done|]. split; [by constructor|]. split; [done|]. split; [done|].
    split.
    + transitivity (length (concat (take (h + 1) data :: pl))); [|by rewrite Hcat'].
      apply Hcount; [by constructor|done].
    + intros h' [= <-]. by exists pl.
  - cbn [rbind].
    destruct (random_loop_cuts (length data) g data []) as (ps & g' & pl & Hps & Hall & Hcat & Hne);
      [done|lia|].
    rewrite Hps. cbn [rbind]. exists ([] ++ ps), g', pl.
    split; [done|]. split; [done|]. split; [done|]. split; [done|].
    split; [|done]. transitivity (length (concat pl)); [|by rewrite Hcat].
    by apply Hcount.
Qed.

Lemma random_records_witness :
  let data := [x01; x00; x02; x03] in
  exists parts g' payloads,
    fragment "random" (fun i => i) data = Ok (parts, [], "random", g') /\
    Forall2 is_record payloads parts /\
    concat payloads = data /\
    Forall (fun p => 1 <= length p) payloads /\
    length parts <= length data /\
    forall h, find_from [x00] data 0 = Some h ->
      exists rest, payloads = take (h + 1) data :: rest.
Proof.
  apply (random_records "random" (fun i => i) [x01; x00; x02; x03]).
  - simpl. lia.
  - discriminate.
  - discriminate.
  - discriminate.
Defined.

(** ** connection.py: the scan for the server name *)

Lemma sni_scan_first (fuel : nat) (data : bytes) (start : nat) :
  (forall q, q < start -> ~ sni_candidate data q) ->
  length data <= fuel + start ->
  match sni_scan fuel data (find_from [x00; x00] data start) with
  | Ok (Some (s, e)) =>
      exists p, sni_candidate data p /\ (forall q, q < p -> ~ sni_candidate data q) /\
                s = p + 9 /\ e = s + sni_name_len data p
  | Ok None => forall p, ~ sni_candidate data p
  | _ => False
  end.
Proof.
  revert start. induction fuel as [|fuel IH]; intros start Hbefore Hfuel.
  - destruct (find_from [x00; x00] data start) as [p|] eqn:Hfind; simpl.
    + apply find_from_first in Hfind as (Hge & _).
      rewrite decide_False by lia.
      intros q Hcand. destruct (decide (q < start)) as [Hlt|Hge']; [by apply (Hbefore q)|].
      destruct Hcand as (_ & Hq & _). lia.
    + intros q Hcand. destruct (decide (q < start)) as [Hlt|Hge']; [by apply (Hbefore q)|].
      destruct Hcand as (_ & Hq & _). lia.
  - destruct (find_from [x00; x00] data start) as [p|] eqn:Hfind; simpl.
    + apply find_from_first in Hfind as (Hge & Hat & Hnone & _).
      assert (Hlow : forall q, q < p -> ~ sni_candidate data q).
      { intros q Hq. destruct (decide (q < start)); [by apply Hbefore|].
        intros (Hq' & _). rewrite Hnone in Hq' by lia. done. }
      destruct (decide (p + 9 <= length data)) as [Hp|Hp].
      * destruct (decide _) as [[Hext Hlist]|Hrej].
        -- exists p. repeat split; done.
        -- apply IH; [|lia]. intros q Hq.
           destruct (decide (q = p)) as [->|Hne]; [|apply Hlow; lia].
           intros (_ & _ & Hext & Hlist). by apply Hrej.
      * intros q Hcand. pose proof Hcand as (Hq' & Hq & _).
        destruct (decide (q < p)) as [Hlt|Hge'].
        -- by apply (Hlow q Hlt).
        -- lia.
    + intros q Hcand.
      destruct (decide (q < start)) as [Hlt|Hge].
      * by apply (Hbefore q Hlt).
      * destruct Hcand as (Hat & _).
        rewrite (find_from_none _ _ _ q Hfind) in Hat by lia. done.
Qed.

(** X12. [_extract_sni_position] always returns, and what it returns is
    the first position, left to right, where 00 00 is followed by seven more
    bytes and the two length equations hold: earlier occurrences of 00 00
    that fail the test are passed over, and [None] means that no position
    passes it. *)
Theorem sni_scan_finds_first (data : bytes) :
  match _extract_sni_position data with
  | Ok (Some (s, e)) =>
      exists p, sni_candidate data p /\ (forall q, q < p -> ~ sni_candidate data q) /\
                s = p + 9 /\ e = s + sni_name_len data p
  | Ok None => forall p, ~ sni_candidate data p
  | _ => False
  end.
Proof.
  unfold _extract_sni_position. apply sni_scan_first; [intros; lia|lia].
Qed.

(** ** connection.py: the registry of active connections *)

Section Registry.
Context {A B : Type}.

Lemma quiet_ret (a : A) : quiet (mret a).
Proof. intros w. by exists (Ok a), w. Qed.

Lemma quiet_bind (m : M A) (f : A -> M B) :
  quiet m -> (forall a, quiet (f a)) -> quiet (m ≫= f).
Proof.
  intros Hm Hf w. destruct (Hm w) as (r & w1 & Hrun & Hr & Hact).
  unfold mbind, M_bind. rewrite Hrun. destruct r as [a|e|]; [|by eauto|done].
  destruct (Hf a w1) as (r' & w2 & Hrun' & Hr' & Hact').
  exists r', w2. rewrite Hrun'. split; [done|]. split; [done|]. congruence.
Qed.

Lemma quiet_gets (f : world -> A) : quiet (gets f).
Proof. intros w. by exists (Ok (f w)), w. Qed.

Lemma quiet_lift (r : result A) : r <> OutOfFuel -> quiet (lift r).
Proof. intros Hr w. by exists r, w. Qed.

Lemma quiet_try (m h : M A) : quiet m -> quiet h -> quiet (try_except m h).
Proof.
  intros Hm Hh w. destruct (Hm w) as (r & w1 & Hrun & Hr & Hact).
  unfold try_except. rewrite Hrun. destruct r as [a|e|]; [by eauto| |done].
  destruct (Hh w1) as (r' & w2 & Hrun' & Hr' & Hact').
  exists r', w2. split; [done|]. split; [done|]. congruence.
Qed.
End Registry.

Lemma quiet_modify (f : world -> world) :
  (forall w, active_connections (f w) = active_connections w) -> quiet (modify f).
Proof. intros Hf w. exists (Ok tt), (f w). by repeat split. Qed.

Lemma quiet_skip : quiet skip.
Proof. apply quiet_ret. Qed.

Lemma quiet_io (ok : bool) : quiet (io ok).
Proof. destruct ok; [apply quiet_skip|by apply quiet_lift]. Qed.

Lemma quiet_mapM {A B : Type} (f : A -> M B) (l : list A) :
  (forall x, quiet (f x)) -> quiet (mapM f l).
Proof.
  intros Hf. induction l as [|x l IH]; [apply quiet_ret|].
  change (mapM f (x :: l)) with (y ← f x; k ← mapM f l; mret (y :: k)).
  apply quiet_bind; [done|]. intros y. apply quiet_bind; [done|].
  intros k. apply quiet_ret.
Qed.

Ltac quiet_step :=
  first
    [ apply quiet_ret | apply quiet_skip | apply quiet_gets | apply quiet_io
    | apply quiet_modify; intros ?; reflexivity
    | apply quiet_lift; discriminate
    | apply quiet_bind; [|intros ?]
    | apply quiet_try ].

Lemma quiet_write_client (ok : bool) (b : bytes) : quiet (write_client ok b).
Proof. unfold write_client. repeat quiet_step. Qed.

Lemma quiet_write_origin (ok : bool) (b : bytes) : quiet (write_origin ok b).
Proof. unfold write_origin. repeat quiet_step. Qed.

Lemma quiet_update_traffic (i o : nat) : quiet (update_traffic i o).
Proof. unfold update_traffic. repeat quiet_step. Qed.

Lemma quiet_log_error (cfg : ProxyConfig) (d : string) : quiet (log_error cfg d).
Proof.
  unfold log_error, increment_error_connections.
  destruct (log_error_file cfg); repeat quiet_step.
Qed.

Lemma quiet_log_access (m : string) : quiet (log_access m).
Proof. unfold log_access. repeat quiet_step. Qed.

Lemma quiet_conn_domain (c : nat) : quiet (conn_domain c).
Proof. unfold conn_domain. repeat quiet_step. Qed.

Lemma quiet_write_payload (env : Env) (i : nat) (b : bytes) : quiet (write_payload env i b).
Proof. apply quiet_write_origin. Qed.

Lemma quiet_jitter_loop (env : Env) (parts : list bytes) (i total : nat) :
  quiet (jitter_loop env i parts total).
Proof.
  revert i total. induction parts as [|p parts IH]; intros i total; cbn [jitter_loop].
  - apply quiet_ret.
  - apply quiet_bind; [apply quiet_write_payload|intros _].
    apply quiet_bind; [apply quiet_gets|intros g].
    apply quiet_bind; [apply quiet_lift; unfold randrange; by rewrite decide_True by lia|].
    intros [n g']. apply quiet_bind; [|intros _; apply IH].
    unfold set_rng. repeat quiet_step.
Qed.

Lemma quiet_tls_data (cfg : ProxyConfig) (env : Env) (host : bytes) (conn_info : nat) :
  quiet (_handle_initial_tls_data cfg env host conn_info).
Proof.
  unfold _handle_initial_tls_data. destruct (tls_reads env) as [[h d]|].
  2:{ apply quiet_try; [|apply quiet_skip].
      apply quiet_bind; [|intros dom; apply quiet_log_error].
      apply quiet_lift. unfold decode. by destruct (forallb _ _). }
  apply quiet_bind; [apply quiet_conn_domain|intros dst_domain].
  apply quiet_bind; [apply quiet_gets|intros bl].
  destruct (RuleEngine.decide _ _) as [rule_decision rule_method].
  match goal with |- context [negb ?c] => destruct c end; cbn [negb].
  - unfold increment_total_connections, increment_blocked_connections.
    apply quiet_bind; [repeat quiet_step|intros _].
    apply quiet_bind; [repeat quiet_step|intros _].
    apply quiet_bind; [apply quiet_gets|intros failures].
    apply quiet_bind; [apply quiet_gets|intros g].
    destruct (fragment_returns (choose_method rule_method (fragment_method cfg) failures)
                g (take 2048 d)) as (parts & rest & m' & g' & payloads & Hfrag & _).
    { rewrite length_take. lia. }
    rewrite Hfrag.
    apply quiet_bind; [apply quiet_lift; discriminate|intros [[[ps rs] mm] gg]].
    apply quiet_bind; [unfold set_rng; repeat quiet_step|intros _].
    destruct ps as [|p ps].
    + apply quiet_bind; [apply quiet_write_payload|intros _].
      apply quiet_bind; [apply quiet_update_traffic|intros _].
      unfold conn_add_out. repeat quiet_step.
    + apply quiet_bind.
      * destruct (decide (mm = "split-jitter")); [apply quiet_jitter_loop|].
        apply quiet_bind; [apply quiet_write_payload|intros _; apply quiet_ret].
      * intros total. apply quiet_bind; [apply quiet_update_traffic|intros _].
        unfold conn_add_out. repeat quiet_step.
  - unfold increment_total_connections, increment_allowed_connections.
    apply quiet_bind; [repeat quiet_step|intros _].
    apply quiet_bind; [repeat quiet_step|intros _].
    apply quiet_bind; [apply quiet_write_payload|intros _].
    apply quiet_bind; [apply quiet_update_traffic|intros _].
    unfold conn_add_out. repeat quiet_step.
Qed.

Lemma _pipe_returns (cfg : ProxyConfig) (chunks : list bytes) (ending : pipe_end)
    (is_out : bool) (w : world) :
  exists w', _pipe cfg chunks ending is_out w = (Ok tt, w') /\
             active_connections w' = active_connections w.
Proof.
  destruct (relay_writes is_out chunks w) as (r & w1 & Hrun & _ & _ & Ha & _).
  unfold _pipe. erewrite bind_ok by exact Hrun. rewrite <- Ha.
  destruct w1 as [st obj nr act fl bl g al el tc to'].
  destruct ending, is_out, (log_error_file cfg) eqn:Hlog;
    (eexists; split;
     [cbv beta iota zeta delta
        [mbind mret M_bind M_ret modify skip update_traffic log_error
         increment_error_connections with_statistics];
      rewrite ?Hlog; reflexivity
     | reflexivity]).
Qed.

Lemma pop_connection_releases (conn_key : option (string * Z)) (w : world) :
  exists r w', pop_connection conn_key w = (Ok r, w') /\
    active_connections w' = released conn_key (active_connections w).
Proof.
  destruct conn_key as [k|]; simpl.
  - eexists _, _. split; [reflexivity|]. by destruct w.
  - by exists None, w.
Qed.

Lemma releases_error (cfg : ProxyConfig) (env : Env) (conn_key : option (string * Z)) :
  releases conn_key (_handle_connection_error cfg env conn_key).
Proof.
  intros w. unfold _handle_connection_error.
  assert (Hreply : quiet (try_except
            (write_client (error_write_ok env) error_response ;;
             update_traffic (length error_response) 0) skip)).
  { apply quiet_try; [|apply quiet_skip].
    apply quiet_bind; [apply quiet_write_client|intros _; apply quiet_update_traffic]. }
  destruct (Hreply w) as (r & w1 & Hrun & Hr & Hact).
  assert (r = Ok tt) as ->.
  { revert Hrun. unfold try_except, mbind, M_bind, write_client, io, skip, lift, mret, M_ret.
    destruct (error_write_ok env); simpl; by intros [= <- _]. }
  erewrite bind_ok by exact Hrun.
  destruct (pop_connection_releases conn_key w1) as (ci & w2 & Hpop & Hact2).
  erewrite bind_ok by exact Hpop.
  rewrite <- Hact, <- Hact2. clear Hrun Hpop Hact Hact2 Hreply.
  destruct w2 as [[t a b e ti to] obj nr act fl bl g al el tc to'].
  destruct ci as [c|], (log_error_file cfg) eqn:Hlog; run_handler; rewrite ?Hlog;
    eexists; split; reflexivity.
Qed.

Lemma releases_run_pipes (cfg : ProxyConfig) (env : Env) (conn_key : option (string * Z)) :
  releases conn_key (_run_pipes cfg env conn_key).
Proof.
  intros w. unfold _run_pipes.
  destruct (_pipe_returns cfg (out_chunks env) (out_end env) true w) as (w1 & Hout & Ha1).
  erewrite bind_ok by exact Hout.
  destruct (_pipe_returns cfg (in_chunks env) (in_end env) false w1) as (w2 & Hin & Ha2).
  erewrite bind_ok by exact Hin.
  destruct (pop_connection_releases conn_key w2) as (removed & w3 & Hpop & Ha3).
  erewrite bind_ok by exact Hpop.
  rewrite <- Ha1, <- Ha2, <- Ha3. clear.
  destruct removed as [r|]; [|by exists w3].
  destruct w3 as [st obj nr act fl bl g al el tc to'].
  run_handler. destruct (obj !! r) as [c|]; eexists; split; reflexivity.
Qed.

Lemma settles_releases (k : string * Z) (m : M unit) :
  releases (Some k) m -> settles k m.
Proof. intros Hm w. destruct (Hm w) as (w' & Hrun & Hact). exists (Ok tt), w'. auto. Qed.

Lemma settles_bind {A : Type} (k : string * Z) (m : M A) (f : A -> M unit) :
  quiet m -> (forall a, settles k (f a)) -> settles k (m ≫= f).
Proof.
  intros Hm Hf w. destruct (Hm w) as (r & w1 & Hrun & Hr & Hact).
  unfold mbind, M_bind. rewrite Hrun. destruct r as [a|e|]; [| |done].
  - destruct (Hf a w1) as (r' & w2 & Hrun' & Hend). exists r', w2.
    split; [done|]. rewrite <- Hact. done.
  - exists (Raise e), w1. split; [done|]. right. split; [by exists e|].
    intros k' _. by rewrite Hact.
Qed.

Lemma settles_insert (k : string * Z) (c : nat) (f : world -> world) (rest : M unit) :
  (forall w, active_connections (f w) = <[k := c]> (active_connections w)) ->
  settles k rest -> settles k (modify f ;; rest).
Proof.
  intros Hf Hrest w. destruct (Hrest (f w)) as (r & w' & Hrun & Hend).
  exists r, w'. split; [exact Hrun|]. rewrite Hf in Hend.
  destruct Hend as [[-> Hact]|[He Hact]].
  - left. split; [done|]. by rewrite Hact, delete_insert_eq.
  - right. split; [done|]. intros k' Hne. rewrite Hact by done.
    by rewrite lookup_insert_ne.
Qed.

Lemma settles_try (k : string * Z) (m h : M unit) :
  settles k m -> releases (Some k) h -> releases (Some k) (try_except m h).
Proof.
  intros Hm Hh w. destruct (Hm w) as (r & w1 & Hrun & Hend).
  unfold try_except. rewrite Hrun. destruct Hend as [[-> Hact]|[[e ->] Hact]].
  - by exists w1.
  - destruct (Hh w1) as (w2 & Hrun' & Hact'). exists w2. split; [done|].
    rewrite Hact'. simpl. apply map_eq. intros k'.
    destruct (decide (k' = k)) as [->|Hne].
    + by rewrite !lookup_delete_eq.
    + rewrite !lookup_delete_ne by done. by apply Hact.
Qed.

Lemma settles_https (cfg : ProxyConfig) (env : Env) (host : bytes)
    (k : string * Z) (conn_info : nat) :
  settles k (_handle_https_connection cfg env host (Some k) conn_info).
Proof.
  unfold _handle_https_connection.
  apply settles_bind; [apply quiet_update_traffic|intros _].
  apply settles_bind; [unfold conn_add_in; repeat quiet_step|intros _].
  destruct (connect_ok env).
  - apply settles_bind; [apply quiet_write_client|intros _].
    apply settles_bind; [apply quiet_tls_data|intros _].
    apply settles_releases, releases_run_pipes.
  - apply settles_releases, releases_error.
Qed.

Lemma settles_http (cfg : ProxyConfig) (env : Env) (http_data : bytes) (k : string * Z) :
  settles k (_handle_http_connection cfg env http_data (Some k)).
Proof.
  unfold _handle_http_connection. destruct (connect_ok env).
  - apply settles_bind; [apply quiet_write_origin|intros _].
    unfold increment_total_connections, increment_allowed_connections.
    apply settles_bind; [repeat quiet_step|intros _].
    apply settles_bind; [repeat quiet_step|intros _].
    apply settles_releases, releases_run_pipes.
  - apply settles_releases, releases_error.
Qed.

(** X13. [handle_connection] never raises, and it leaves no entry
    behind in [active_connections]: when it returns the registry is as it
    found it, or as it found it without the entry of the peer; the latter
    whenever the request was parsed. This holds for every outcome of the
    connect, of the writes and of the relay. *)
Theorem connection_leaves_registry (cfg : ProxyConfig) (env : Env) (w : world) :
  parsed_by_parser env ->
  let key := default ("unknown", 0%Z) (peername env) in
  exists w',
    handle_connection cfg env w = (Ok tt, w') /\
    (active_connections w' = active_connections w \/
     active_connections w' = delete key (active_connections w)) /\
    (forall http_data x,
       first_chunk env = Some http_data -> http_data <> [] -> parsed env = Ok x ->
       active_connections w' = delete key (active_connections w)).
Proof.
  intros Hparsed key. unfold handle_connection. fold key.
  destruct key as [client_ip client_port] eqn:Hkey.
  unfold parsed_by_parser in Hparsed.
  destruct (first_chunk env) as [[|b d]|] eqn:Hfirst.
  { exists w. split; [done|]. split; [by left|]. by intros ? ? [= <-]. }
  2:{ exists w. split; [done|]. split; [by left|]. by intros ? ? [=]. }
  destruct (_parse_http_request (b :: d)) as [err|[[method host] port]].
  - destruct Hparsed as [e He]. rewrite He.
    destruct (releases_error cfg env None w) as (w1 & Herr & Hact).
    exists w1. split.
    + unfold mbind, M_bind, try_except, lift. rewrite Herr. reflexivity.
    + split; [by left|]. intros ? x _ _ [=].
  - rewrite Hparsed.
    erewrite bind_ok by reflexivity.
    assert (Hbody : releases (Some (client_ip, client_port))
      (try_except
         (dom ← lift (decode host);
          meth ← lift (decode method);
          conn_info ← new_connection_info
                        (ConnectionInfo.init client_ip dom meth (now env));
          bl ← gets blacklist;
          match bl with
          | AutoBlacklist m =>
              if decide (method = CONNECT) then
                '(m', _) ← lift (AutoBlacklistManager.check_domain m host
                                   (probe env) (probe_file_ok env));
                set_blacklist (AutoBlacklist m')
              else skip
          | _ => skip
          end ;;
          modify (with_active (<[(client_ip, client_port) := conn_info]>)) ;;
          update_traffic 0 (length (b :: d)) ;;
          conn_add_out conn_info (length (b :: d)) ;;
          if decide (method = CONNECT)
          then _handle_https_connection cfg env host (Some (client_ip, client_port)) conn_info
          else _handle_http_connection cfg env (b :: d) (Some (client_ip, client_port)))
         (_handle_connection_error cfg env (Some (client_ip, client_port))))).
    { apply settles_try; [|apply releases_error].
      assert (Hdecode : forall x : bytes, decode x <> OutOfFuel).
      { intros x. unfold decode. by destruct (forallb _ _). }
      apply settles_bind; [by apply quiet_lift|intros dom].
      apply settles_bind; [by apply quiet_lift|intros meth].
      apply settles_bind; [unfold new_connection_info; intros w0; by eexists _, _|].
      intros conn_info. apply settles_bind; [apply quiet_gets|intros bl].
      apply settles_bind.
      { destruct bl as [m|m|]; try apply quiet_skip.
        destruct (decide (method = CONNECT)); [|apply quiet_skip].
        apply quiet_bind.
        - apply quiet_lift. unfold AutoBlacklistManager.check_domain.
          pose proof (Hdecode host) as Hhost.
          destruct (decode host) as [dec| |]; cbn [rbind]; [|discriminate|done].
          destruct (AutoBlacklistManager.known m dec); discriminate.
        - intros [m' ?]. unfold set_blacklist. repeat quiet_step. }
      intros _. apply (settles_insert _ conn_info); [by intros [] |].
      apply settles_bind; [apply quiet_update_traffic|intros _].
      apply settles_bind; [unfold conn_add_out; repeat quiet_step|intros _].
      destruct (decide (method = CONNECT)); [apply settles_https|apply settles_http]. }
    destruct (Hbody w) as (w' & Hrun & Hact). exists w'.
    split; [exact Hrun|]. split; [by right|]. done.
Qed.

Lemma connection_leaves_registry_witness :
  let w := init_world NoBlacklist (fun i => i) in
  let key := default ("unknown", 0%Z) (peername env_http_relay) in
  exists w',
    handle_connection cfg_split env_http_relay w = (Ok tt, w') /\
    (active_connections w' = active_connections w \/
     active_connections w' = delete key (active_connections w)) /\
    (forall http_data x,
       first_chunk env_http_relay = Some http_data -> http_data <> [] ->
       parsed env_http_relay = Ok x ->
       active_connections w' = delete key (active_connections w)).
Proof.
  apply (connection_leaves_registry cfg_split env_http_relay
           (init_world NoBlacklist (fun i => i))).
  reflexivity.
Defined.

(** ** connection.py: what the peers receive *)

Lemma relay_out (chunks : list bytes) st obj nr act fl bl g al el tc to' :
  exists r,
    mapM (write_origin true) chunks (mk_world st obj nr act fl bl g al el tc to')
    = (Ok r, mk_world st obj nr act fl bl g al el tc (to' ++ chunks)).
Proof.
  revert to'. induction chunks as [|c chunks IH]; intros to'.
  - exists []. by rewrite app_nil_r.
  - destruct (IH (to' ++ [c])) as [r Hr]. exists (tt :: r).
    change (mapM (write_origin true) (c :: chunks))
      with (y ← write_origin true c; k ← mapM (write_origin true) chunks; mret (y :: k)).
    erewrite bind_ok by reflexivity. cbn [statistics objects next_ref active_connections
      domain_failures blacklist rng access_log error_log to_client to_origin].
    erewrite bind_ok by exact Hr. by rewrite <- app_assoc.
Qed.

Lemma relay_in (chunks : list bytes) st obj nr act fl bl g al el tc to' :
  exists r,
    mapM (write_client true) chunks (mk_world st obj nr act fl bl g al el tc to')
    = (Ok r, mk_world st obj nr act fl bl g al el (tc ++ chunks) to').
Proof.
  revert tc. induction chunks as [|c chunks IH]; intros tc.
  - exists []. by rewrite app_nil_r.
  - destruct (IH (tc ++ [c])) as [r Hr]. exists (tt :: r).
    change (mapM (write_client true) (c :: chunks))
      with (y ← write_client true c; k ← mapM (write_client true) chunks; mret (y :: k)).
    erewrite bind_ok by reflexivity. cbn [statistics objects next_ref active_connections
      domain_failures blacklist rng access_log error_log to_client to_origin].
    erewrite bind_ok by exact Hr. by rewrite <- app_assoc.
Qed.

(** What an exception in a relay loop adds to the error counter and to the
    error log. *)
Lemma pipe_out (cfg : ProxyConfig) (chunks : list bytes) (ending : pipe_end)
    t a b e ti to obj nr act fl bl g al el tc to' :
  _pipe cfg chunks ending true
    (mk_world (Statistics.mk t a b e ti to) obj nr act fl bl g al el tc to')
  = (Ok tt,
     mk_world
       (Statistics.mk t a b
          (e + match ending with PipeError => logged cfg | _ => 0 end)
          ti (to + volume chunks))
       obj nr act fl bl g al
       (el ++ match ending with PipeError => ["unknown"] | _ => [] end)
       tc (to' ++ chunks)).
Proof.
  destruct (relay_out chunks (Statistics.mk t a b e ti to) obj nr act fl bl g al el tc to')
    as [r Hr].
  unfold _pipe. erewrite bind_ok by exact Hr. fold (volume chunks).
  destruct ending, (log_error_file cfg) eqn:Hlog; run_handler; rewrite ?Hlog;
    rewrite ?app_nil_r, ?Nat.add_0_r; reflexivity.
Qed.

Lemma pipe_in (cfg : ProxyConfig) (chunks : list bytes) (ending : pipe_end)
    t a b e ti to obj nr act fl bl g al el tc to' :
  _pipe cfg chunks ending false
    (mk_world (Statistics.mk t a b e ti to) obj nr act fl bl g al el tc to')
  = (Ok tt,
     mk_world
       (Statistics.mk t a b
          (e + match ending with PipeError => logged cfg | _ => 0 end)
          (ti + volume chunks) to)
       obj nr act fl bl g al
       (el ++ match ending with PipeError => ["unknown"] | _ => [] end)
       (tc ++ chunks) to').
Proof.
  destruct (relay_in chunks (Statistics.mk t a b e ti to) obj nr act fl bl g al el tc to')
    as [r Hr].
  unfold _pipe. erewrite bind_ok by exact Hr. fold (volume chunks).
  destruct ending, (log_error_file cfg) eqn:Hlog; run_handler; rewrite ?Hlog;
    rewrite ?app_nil_r, ?Nat.add_0_r; reflexivity.
Qed.

(** [_run_pipes], field by field. *)
Lemma run_pipes_effect (cfg : ProxyConfig) (env : Env)
    (conn_key : option (string * Z)) (w : world) :
  exists w',
    _run_pipes cfg env conn_key w = (Ok tt, w') /\
    to_origin w' = to_origin w ++ out_chunks env /\
    to_client w' = to_client w ++ in_chunks env /\
    counted w w' 0 0 0 (pipe_errors env * logged cfg) /\
    Statistics.traffic_in (statistics w')
      = Statistics.traffic_in (statistics w) + volume (in_chunks env) /\
    Statistics.traffic_out (statistics w')
      = Statistics.traffic_out (statistics w) + volume (out_chunks env) /\
    objects w' = objects w /\
    active_connections w' = released conn_key (active_connections w) /\
    access_log w' = access_log w ++ match registered conn_key w with
                                    | Some c => [access_line c]
                                    | None => []
                                    end /\
    domain_failures w' = forgiven (registered conn_key w) (domain_failures w) /\
    blacklist w' = blacklist w.
Proof.
  destruct w as [[t a b e ti to] obj nr act fl bl g al el tc to'].
  unfold _run_pipes.
  erewrite bind_ok by apply pipe_out. erewrite bind_ok by apply pipe_in.
  assert (Herr : e + match out_end env with PipeError => logged cfg | _ => 0 end
                   + match in_end env with PipeError => logged cfg | _ => 0 end
                 = e + pipe_errors env * logged cfg).
  { unfold pipe_errors. destruct (out_end env), (in_end env); lia. }
  unfold registered, forgiven.
  destruct conn_key as [k|]; run_handler; cbn [mbind option_bind].
  - destruct (act !! k) as [r|] eqn:Hk; cbn [mbind option_bind].
    + destruct (obj !! r) as [c|] eqn:Hr; run_handler;
        (eexists; split; [reflexivity|]); run_handler;
        rewrite ?app_nil_r; repeat split; try done; lia.
    + eexists; split; [reflexivity|]; run_handler;
        rewrite ?app_nil_r; repeat split; try done; lia.
  - eexists; split; [reflexivity|]; run_handler;
      rewrite ?app_nil_r; repeat split; try done; lia.
Qed.

Lemma jitter_loop_exact (env : Env) (parts : list bytes) (i total : nat)
    st obj nr act fl bl g al el tc to' :
  tls_fail_at env = None ->
  exists g',
    jitter_loop env i parts total (mk_world st obj nr act fl bl g al el tc to')
    = (Ok (total + volume parts),
       mk_world st obj nr act fl bl g' al el tc (to' ++ parts)).
Proof.
  intros Hfail. revert i total g to'.
  induction parts as [|p parts IH]; intros i total g to'.
  - exists g. simpl. rewrite app_nil_r. unfold volume. simpl.
    by replace (total + 0) with total by lia.
  - cbn [jitter_loop]. run_handler. rewrite Hfail.
    rewrite bool_decide_false by done. cbn [negb].
    unfold randrange. rewrite (decide_True (P := 1 < 6)) by lia. run_handler.
    destruct (IH (S i) (total + length p) (fun i => g (S i)) (to' ++ [p])) as [g' Hrun].
    rewrite Hrun. exists g'. f_equal; [f_equal|].
    + change (volume (p :: parts)) with (length p + volume parts). lia.
    + by rewrite <- app_assoc.
Qed.

Lemma records_volume (payloads parts : list bytes) :
  Forall2 is_record payloads parts ->
  length (concat parts) = length (concat payloads) + 5 * length parts /\
  volume parts = length (concat parts).
Proof.
  induction 1 as [|p r ps rs (hi & lo & -> & _) _ [IH1 IH2]]; [done|].
  change (volume ((([x16; x03; x04; hi; lo] ++ p) :: rs)))
    with (length ([x16; x03; x04; hi; lo] ++ p) + volume rs).
  simpl. rewrite !length_app. simpl in *. lia.
Qed.

(** [_handle_initial_tls_data] when both reads and every write go through,
    field by field. *)
Lemma tls_data_effect (cfg : ProxyConfig) (env : Env) (host : bytes)
    (conn_info : nat) (w : world) (h d : bytes) :
  tls_reads env = Some (h, d) ->
  tls_fail_at env = None ->
  exists w' writes allowed blocked,
    _handle_initial_tls_data cfg env host conn_info w = (Ok tt, w') /\
    first_payload (take 5 h) (take 2048 d) writes /\
    to_origin w' = to_origin w ++ writes /\
    to_client w' = to_client w /\
    counted w w' 1 allowed blocked 0 /\ allowed + blocked = 1 /\
    Statistics.traffic_in (statistics w') = Statistics.traffic_in (statistics w) /\
    Statistics.traffic_out (statistics w')
      = Statistics.traffic_out (statistics w) + volume writes /\
    objects w' = alter (ConnectionInfo.add_traffic_out (volume writes)) conn_info (objects w) /\
    active_connections w' = active_connections w /\
    access_log w' = access_log w /\
    error_log w' = error_log w /\
    domain_failures w' = domain_failures w /\
    blacklist w' = blacklist w /\
    (if fst (decision cfg w conn_info)
     then blocked = 1 /\
          exists parts rest method g',
            fragment (snd (decision cfg w conn_info)) (rng w) (take 2048 d)
              = Ok (parts, rest, method, g') /\
            writes = tls_writes method parts (take 5 h) rest
     else allowed = 1 /\ writes = [take 5 h ++ take 2048 d]).
Proof.
  intros Hreads Hfail.
  destruct w as [[t a b e ti to] obj nr act fl bl g al el tc to'].
  unfold decision. cbn [objects blacklist domain_failures rng].
  unfold _handle_initial_tls_data. rewrite Hreads. run_handler.
  destruct (RuleEngine.decide _ _) as [rule_decision rule_method].
  cbn [fst snd].
  assert (Hone : forall x : bytes, volume [x] = length x).
  { intros x. unfold volume. simpl. lia. }
  match goal with |- context [negb ?c] => destruct c end; cbn [negb].
  - match goal with |- context [fragment ?m ?g0 ?data] =>
      destruct (fragment_returns m g0 data) as
        (parts & rest & m' & g' & payloads & Hfrag & Hrec & Hcat & Hrest)
    end.
    { rewrite length_take. lia. }
    rewrite Hfrag. run_handler.
    destruct parts as [|p parts].
    + assert (payloads = []) as -> by (by apply Forall2_nil_inv_r in Hrec).
      simpl in Hcat.
      assert (rest = take 2048 d) as -> by (destruct Hrest; congruence).
      rewrite Hfail. rewrite bool_decide_false by done. cbn [negb].
      eexists _, [take 5 h ++ take 2048 d], 0, 1.
      split; [reflexivity|]. split; [by left|].
      run_handler. rewrite Hone. repeat split; try done.
      by eexists _, _, _, _.
    + assert (Hfp : forall writes,
        writes = p :: parts \/ writes = [concat (p :: parts)] ->
        first_payload (take 5 h) (take 2048 d) writes).
      { intros writes Hw. right. exists (p :: parts), payloads. by repeat split. }
      destruct (records_volume _ _ Hrec) as [_ Hvol].
      destruct (decide (m' = "split-jitter")) as [Hj|Hj].
      * match goal with |- context [jitter_loop env 0 ?ps 0 ?w1] =>
          destruct (jitter_loop_exact env ps 0 0
                      (Statistics.mk (t + 1) a (b + 1) e ti to) obj nr act fl bl g' al el tc to' Hfail)
            as (g'' & Hrun)
        end.
        rewrite Hrun.
        eexists _, (p :: parts), 0, 1.
        split; [reflexivity|]. split; [by apply Hfp; left|].
        run_handler. repeat split; try done.
        eexists _, _, _, _. split; [reflexivity|].
        unfold tls_writes. by rewrite decide_True.
      * run_handler. rewrite Hfail. rewrite bool_decide_false by done. cbn [negb].
        eexists _, [concat (p :: parts)], 0, 1.
        split; [reflexivity|]. split; [by apply Hfp; right|].
        run_handler. rewrite Hone. repeat split; try done.
        eexists _, _, _, _. split; [reflexivity|].
        unfold tls_writes. by rewrite decide_False.
  - rewrite Hfail. rewrite bool_decide_false by done. cbn [negb].
    eexists _, [take 5 h ++ take 2048 d], 1, 0.
    split; [reflexivity|]. split; [by left|].
    run_handler. rewrite Hone. by repeat split.
Qed.

Ltac world_facts :=
  cbn [statistics objects next_ref active_connections domain_failures blacklist rng
       access_log error_log to_client to_origin
       Statistics.total_connections Statistics.allowed_connections
       Statistics.blocked_connections Statistics.errors_connections
       Statistics.traffic_in Statistics.traffic_out] in *.

(** A CONNECT whose origin accepts the connection and whose first TLS
    payload is read and written without failure. *)
Lemma https_tunnel (cfg : ProxyConfig) (env : Env) (host : bytes)
    (conn_key : option (string * Z)) (conn_info : nat) (w : world) (h d : bytes) :
  connect_ok env = true ->
  established_ok env = true ->
  tls_reads env = Some (h, d) ->
  tls_fail_at env = None ->
  exists w' writes allowed blocked,
    _handle_https_connection cfg env host conn_key conn_info w = (Ok tt, w') /\
    first_payload (take 5 h) (take 2048 d) writes /\
    to_origin w' = to_origin w ++ writes ++ out_chunks env /\
    to_client w' = to_client w ++ established :: in_chunks env /\
    counted w w' 1 allowed blocked (pipe_errors env * logged cfg) /\
    allowed + blocked = 1 /\
    Statistics.traffic_in (statistics w')
      = Statistics.traffic_in (statistics w) + length established + volume (in_chunks env) /\
    Statistics.traffic_out (statistics w')
      = Statistics.traffic_out (statistics w) + volume writes + volume (out_chunks env) /\
    active_connections w' = released conn_key (active_connections w).
Proof.
  intros Hconnect Hestablished Hreads Hfail.
  destruct w as [[t a b e ti to] obj nr act fl bl g al el tc to'].
  unfold _handle_https_connection. rewrite Hconnect.
  run_handler. rewrite Hestablished.
  match goal with |- context [_handle_initial_tls_data ?c ?en ?ho ?ci ?w1] =>
    destruct (tls_data_effect c en ho ci w1 h d Hreads Hfail)
      as (w2 & writes & allowed & blocked & Hrun & Hfp & Hto & Htc & Hcount & Hone
          & Hin & Hout & Hobj & Hact & _);
    rewrite Hrun
  end.
  destruct (run_pipes_effect cfg env conn_key w2)
    as (w3 & Hrun3 & Hto3 & Htc3 & Hcount3 & Hin3 & Hout3 & Hobj3 & Hact3 & _).
  rewrite Hrun3.
  exists w3, writes, allowed, blocked.
  revert Hto Htc Hcount Hin Hout Hact Hto3 Htc3 Hcount3 Hin3 Hout3 Hact3. run_handler.
  intros Hto Htc (H1 & H2 & H3 & H4) Hin Hout Hact Hto3 Htc3 (H5 & H6 & H7 & H8)
    Hin3 Hout3 Hact3.
  split; [reflexivity|]. split; [done|].
  rewrite Hto3, Hto, Htc3, Htc, Hact3, Hact, <- !app_assoc.
  repeat split; try done; lia.
Qed.

(** X14. A CONNECT whose origin connects and whose first TLS payload
    is written: the origin receives that payload (as it is, or as records
    whose payloads make it up) and then exactly the chunks the client sent,
    in order; the client receives the 200 reply and then exactly the chunks
    of the origin. The connection is counted once, as allowed or as blocked,
    and the global traffic counters grow by the bytes moved, the first chunk
    included. *)
Theorem connect_tunnel (cfg : ProxyConfig) (env : Env) (w : world)
    (http_data host : bytes) (port : Z) (dom : string) (h d : bytes) :
  first_chunk env = Some http_data ->
  http_data <> [] ->
  parsed env = Ok (CONNECT, host, port) ->
  decode host = Ok dom ->
  connect_ok env = true ->
  established_ok env = true ->
  tls_reads env = Some (h, d) ->
  tls_fail_at env = None ->
  exists w' writes allowed blocked,
    handle_connection cfg env w = (Ok tt, w') /\
    first_payload (take 5 h) (take 2048 d) writes /\
    to_origin w' = to_origin w ++ writes ++ out_chunks env /\
    to_client w' = to_client w ++ established :: in_chunks env /\
    counted w w' 1 allowed blocked (pipe_errors env * logged cfg) /\
    allowed + blocked = 1 /\
    Statistics.traffic_in (statistics w')
      = Statistics.traffic_in (statistics w) + length established + volume (in_chunks env) /\
    Statistics.traffic_out (statistics w')
      = Statistics.traffic_out (statistics w) + length http_data
        + volume writes + volume (out_chunks env).
Proof.
  intros Hfirst Hnonempty Hparsed Hdec Hconnect Hestablished Hreads Hfail.
  destruct w as [[t a b e ti to] obj nr act fl bl g al el tc to'].
  unfold handle_connection.
  destruct (default ("unknown", 0%Z) (peername env)) as [client_ip client_port].
  rewrite Hfirst. destruct http_data as [|x http_data]; [done|].
  rewrite Hparsed. run_handler. rewrite Hdec, decode_CONNECT.
  rewrite !(decide_True (P := CONNECT = CONNECT)) by done.
  destruct bl as [m|m|].
  all: try (unfold AutoBlacklistManager.check_domain; rewrite Hdec; cbn [rbind];
            destruct (AutoBlacklistManager.known m dom)).
  all: try (destruct (decide (CONNECT = CONNECT)) as [_|]; [|done]).
  all: run_handler.
  all: match goal with |- context [_handle_https_connection ?c ?en ?ho ?k ?ci ?w1] =>
         destruct (https_tunnel c en ho k ci w1 h d Hconnect Hestablished Hreads Hfail)
           as (w2 & writes & allowed & blocked & Hrun & Hfp & Hto & Htc & Hcount & Hone
               & Hin & Hout & _);
         rewrite Hrun
       end.
  all: exists w2, writes, allowed, blocked.
  all: revert Hto Htc Hcount Hin Hout; run_handler.
  all: intros Hto Htc (H1 & H2 & H3 & H4) Hin Hout.
  all: repeat split; try done; lia.
Qed.

Lemma connect_tunnel_witness :
  let w := init_world NoBlacklist (fun i => i) in
  exists w' writes allowed blocked,
    handle_connection cfg_split env_tunnel w = (Ok tt, w') /\
    first_payload (take 5 [x16; x03; x01; x00; x03]) (take 2048 [x01; x02; x03]) writes /\
    to_origin w' = to_origin w ++ writes ++ out_chunks env_tunnel /\
    to_client w' = to_client w ++ established :: in_chunks env_tunnel /\
    counted w w' 1 allowed blocked (pipe_errors env_tunnel * logged cfg_split) /\
    allowed + blocked = 1 /\
    Statistics.traffic_in (statistics w')
      = Statistics.traffic_in (statistics w) + length established
        + volume (in_chunks env_tunnel) /\
    Statistics.traffic_out (statistics w')
      = Statistics.traffic_out (statistics w) + length (connect_request "blocked.test")
        + volume writes + volume (out_chunks env_tunnel).
Proof.
  apply (connect_tunnel cfg_split env_tunnel (init_world NoBlacklist (fun i => i))
           (connect_request "blocked.test")
           (String.list_byte_of_string "blocked.test") 443%Z "blocked.test"
           [x16; x03; x01; x00; x03] [x01; x02; x03]).
  - reflexivity.
  - discriminate.
  - reflexivity.
  - reflexivity.
  - reflexivity.
  - reflexivity.
  - reflexivity.
  - reflexivity.
Defined.


Lemma registered_new (k : string * Z) (r : nat) (c : ConnectionInfo.t)
    (f : ConnectionInfo.t -> ConnectionInfo.t)
    (act : gmap (string * Z) nat) (obj : gmap nat ConnectionInfo.t) :
  (<[k := r]> act !! k) ≫= (fun r' => alter f r (<[r := c]> obj) !! r') = Some (f c).
Proof.
  rewrite lookup_insert_eq. simpl. by rewrite lookup_alter_eq, lookup_insert_eq.
Qed.



(** X16. A request other than CONNECT whose origin connects: the origin
    receives the first chunk unchanged and then the chunks the client sends;
    the connection is counted once, as allowed, whatever the blacklist says;
    a failure count of the domain goes down by one; the access record shows
    the first chunk as the only traffic. *)
Theorem http_relay (cfg : ProxyConfig) (env : Env) (w : world)
    (http_data method host : bytes) (port : Z) (dom meth : string) :
  first_chunk env = Some http_data ->
  http_data <> [] ->
  parsed env = Ok (method, host, port) ->
  method <> CONNECT ->
  decode host = Ok dom ->
  decode method = Ok meth ->
  connect_ok env = true ->
  http_write_ok env = true ->
  exists w',
    handle_connection cfg env w = (Ok tt, w') /\
    to_origin w' = to_origin w ++ http_data :: out_chunks env /\
    to_client w' = to_client w ++ in_chunks env /\
    counted w w' 1 1 0 (pipe_errors env * logged cfg) /\
    blacklist w' = blacklist w /\
    access_log w'
      = access_log w
        ++ [access_line (ConnectionInfo.mk (default ("unknown", 0%Z) (peername env)).1
                           dom meth (now env) 0 (length http_data))] /\
    domain_failures w'
      = match domain_failures w !! dom with
        | Some n => <[dom := n - 1]> (domain_failures w)
        | None => domain_failures w
        end /\
    Statistics.traffic_in (statistics w')
      = Statistics.traffic_in (statistics w) + volume (in_chunks env) /\
    Statistics.traffic_out (statistics w')
      = Statistics.traffic_out (statistics w) + length http_data + volume (out_chunks env).
Proof.
  intros Hfirst Hnonempty Hparsed Hmethod Hdec Hmeth Hconnect Hwrite.
  destruct w as [[t a b e ti to] obj nr act fl bl g al el tc to'].
  unfold handle_connection.
  destruct (default ("unknown", 0%Z) (peername env)) as [client_ip client_port].
  rewrite Hfirst. destruct http_data as [|x http_data]; [done|].
  rewrite Hparsed. run_handler. rewrite Hdec, Hmeth.
  rewrite !(decide_False (P := method = CONNECT)) by done.
  destruct bl as [m|m|].
  all: rewrite ?(decide_False (P := method = CONNECT)) by done.
  all: run_handler.
  all: unfold _handle_http_connection; rewrite Hconnect, Hwrite; run_handler.
  all: match goal with |- context [_run_pipes ?c ?en ?k ?w1] =>
         pose proof (run_pipes_effect c en k w1) as Heff
       end.
  all: destruct Heff as (w2 & Hrun & Hto & Htc & Hcount & Hin & Hout & _ & _ & Hal & Hfl & Hbl).
  all: rewrite Hrun.
  all: exists w2.
  all: unfold registered, forgiven in Hal, Hfl; cbn [mbind option_bind] in Hal, Hfl.
  all: world_facts; rewrite registered_new in Hal, Hfl.
  all: cbn [ConnectionInfo.add_traffic_out ConnectionInfo.init ConnectionInfo.dst_domain
            ConnectionInfo.src_ip ConnectionInfo.method ConnectionInfo.start_time
            ConnectionInfo.traffic_in ConnectionInfo.traffic_out] in Hal, Hfl.
  all: revert Hto Htc Hcount Hin Hout Hal Hfl Hbl; run_handler.
  all: intros Hto Htc (H1 & H2 & H3 & H4) Hin Hout Hal Hfl Hbl.
  all: rewrite Hto, <- app_assoc.
  all: repeat split; try done; lia.
Qed.

Lemma http_relay_witness :
  let w := init_world NoBlacklist (fun i => i) in
  let http_data := String.list_byte_of_string
                     ("GET /a HTTP/1.1" +:+ crlf +:+ "Host: text.example:80"
                      +:+ crlf +:+ crlf) in
  exists w',
    handle_connection cfg_split env_http_relay w = (Ok tt, w') /\
    to_origin w' = to_origin w ++ http_data :: out_chunks env_http_relay /\
    to_client w' = to_client w ++ in_chunks env_http_relay /\
    counted w w' 1 1 0 (pipe_errors env_http_relay * logged cfg_split) /\
    blacklist w' = blacklist w /\
    access_log w'
      = access_log w
        ++ [access_line
              (ConnectionInfo.mk (default ("unknown", 0%Z) (peername env_http_relay)).1
                 "text.example" "GET" (now env_http_relay) 0 (length http_data))] /\
    domain_failures w'
      = match domain_failures w !! "text.example" with
        | Some n => <["text.example" := n - 1]> (domain_failures w)
        | None => domain_failures w
        end /\
    Statistics.traffic_in (statistics w')
      = Statistics.traffic_in (statistics w) + volume (in_chunks env_http_relay) /\
    Statistics.traffic_out (statistics w')
      = Statistics.traffic_out (statistics w) + length http_data
        + volume (out_chunks env_http_relay).
Proof.
  apply (http_relay cfg_split env_http_relay (init_world NoBlacklist (fun i => i))
           (String.list_byte_of_string
              ("GET /a HTTP/1.1" +:+ crlf +:+ "Host: text.example:80" +:+ crlf +:+ crlf))
           (String.list_byte_of_string "GET")
           (String.list_byte_of_string "text.example") 80%Z "text.example" "GET").
  - reflexivity.
  - discriminate.
  - reflexivity.
  - discriminate.
  - reflexivity.
  - reflexivity.
  - reflexivity.
  - reflexivity.
Defined.



(** X18. With the [random] method configured and no rule for the
    domain, a blocked domain that has failed at least twice is fragmented
    with the [sni] method instead; with fewer failures it stays [random].
    The completed relay then takes one failure off the count. *)
Theorem retry_after_failures (cfg : ProxyConfig) (env : Env) (w : world)
    (http_data host : bytes) (port : Z) (dom : string) (h d : bytes) (n : nat) :
  first_chunk env = Some http_data ->
  http_data <> [] ->
  parsed env = Ok (CONNECT, host, port) ->
  decode host = Ok dom ->
  connect_ok env = true ->
  established_ok env = true ->
  tls_reads env = Some (h, d) ->
  tls_fail_at env = None ->
  fragment_method cfg = "random" ->
  RuleEngine.decide (rules cfg) dom = (None, None) ->
  (forall m, blacklist w <> AutoBlacklist m) ->
  is_blocked (blacklist w) dom = true ->
  domain_failures w !! dom = Some n ->
  exists parts rest method g' w',
    fragment (if decide (2 <= n) then "sni" else "random") (rng w) (take 2048 d)
      = Ok (parts, rest, method, g') /\
    handle_connection cfg env w = (Ok tt, w') /\
    to_origin w'
      = to_origin w ++ tls_writes method parts (take 5 h) rest ++ out_chunks env /\
    domain_failures w' = <[dom := n - 1]> (domain_failures w).
Proof.
  intros Hfirst Hnonempty Hparsed Hdec Hconnect Hestablished Hreads Hfail
    Hmethod Hrules Hauto Hblocked Hn.
  destruct w as [[t a b e ti to] obj nr act fl bl g al el tc to'].
  cbn [blacklist domain_failures rng to_origin] in *.
  unfold handle_connection.
  destruct (default ("unknown", 0%Z) (peername env)) as [client_ip client_port].
  rewrite Hfirst. destruct http_data as [|x http_data]; [done|].
  rewrite Hparsed. run_handler. rewrite Hdec, decode_CONNECT.
  rewrite !(decide_True (P := CONNECT = CONNECT)) by done.
  destruct bl as [m|m|]; [|by destruct (Hauto m)|].
  all: run_handler.
  all: unfold _handle_https_connection; rewrite Hconnect, Hestablished; run_handler.
  all: match goal with |- context [_handle_initial_tls_data ?c ?en ?ho ?ci ?w1] =>
         destruct (tls_data_effect c en ho ci w1 h d Hreads Hfail)
           as (w2 & writes & allowed & blocked & Hrun & _ & Hto & _ & _ & _ & _ & _
               & Hobj & Hact & _ & _ & Hfl & _ & Hdecision);
         rewrite Hrun
       end.
  all: destruct (run_pipes_effect cfg env (Some (client_ip, client_port)) w2)
         as (w3 & Hrun3 & Hto3 & _ & _ & _ & _ & _ & _ & _ & Hfl3 & _); rewrite Hrun3.
  all: unfold decision in Hdecision; world_facts.
  all: rewrite !lookup_alter_eq, lookup_insert_eq in Hdecision;
       cbn [fmap option_fmap option_map default ConnectionInfo.dst_domain
            ConnectionInfo.add_traffic_in ConnectionInfo.add_traffic_out
            ConnectionInfo.init] in Hdecision; unfold id in Hdecision.
  all: rewrite Hrules in Hdecision; cbn [fst snd] in Hdecision.
  all: try rewrite Hblocked in Hdecision.
  all: destruct Hdecision as (_ & parts & rest & method & g' & Hfrag & ->).
  all: unfold choose_method, dict_get in Hfrag; rewrite Hmethod, Hn in Hfrag;
       cbn [default] in Hfrag.
  all: unfold forgiven, registered in Hfl3; cbn [mbind option_bind] in Hfl3.
  all: rewrite Hact, Hobj, Hfl in Hfl3; rewrite lookup_insert_eq in Hfl3;
       cbn [mbind option_bind] in Hfl3.
  all: rewrite !lookup_alter_eq, lookup_insert_eq in Hfl3;
       cbn [fmap option_fmap option_map ConnectionInfo.dst_domain
            ConnectionInfo.add_traffic_in ConnectionInfo.add_traffic_out
            ConnectionInfo.init] in Hfl3; unfold id in Hfl3.
  all: rewrite Hn in Hfl3. all: rewrite Hto in Hto3.
  all: exists parts, rest, method, g', w3.
  all: split; [destruct (decide (2 <= n));
               [by rewrite decide_True in Hfrag by done
               |by rewrite decide_False in Hfrag by tauto]|].
  all: split; [reflexivity|].
  all: revert Hto3 Hfl3; run_handler; intros Hto3 Hfl3.
  all: split; [by rewrite Hto3, <- app_assoc|done].
Qed.

Lemma retry_after_failures_witness :
  let w := world_two_failures in
  exists parts rest method g' w',
    fragment (if decide (2 <= 2) then "sni" else "random") (rng w)
      (take 2048 [x01; x02; x03])
      = Ok (parts, rest, method, g') /\
    handle_connection cfg_random env_tunnel w = (Ok tt, w') /\
    to_origin w'
      = to_origin w ++ tls_writes method parts (take 5 [x16; x03; x01; x00; x03]) rest
        ++ out_chunks env_tunnel /\
    domain_failures w' = <["blocked.test" := 2 - 1]> (domain_failures w).
Proof.
  apply (retry_after_failures cfg_random env_tunnel world_two_failures
           (connect_request "blocked.test")
           (String.list_byte_of_string "blocked.test") 443%Z "blocked.test"
           [x16; x03; x01; x00; x03] [x01; x02; x03] 2).
  - reflexivity.
  - discriminate.
  - reflexivity.
  - reflexivity.
  - reflexivity.
  - reflexivity.
  - reflexivity.
  - reflexivity.
  - reflexivity.
  - reflexivity.
  - discriminate.
  - reflexivity.
  - reflexivity.
Defined.

(** ** connection.py: opening the origin connection *)

Lemma open_sockets_app (l1 l2 : list sock_event) (acc : list nat) :
  open_sockets (l1 ++ l2) acc = open_sockets l2 (open_sockets l1 acc).
Proof.
  revert acc. induction l1 as [|[i|i o|i] l1 IH]; intros acc; simpl; by rewrite ?IH.
Qed.

Lemma open_sockets_bind (out_host : option string) (i : nat) (a : addrinfo)
    (acc : list nat) :
  open_sockets (bind_events out_host i a) acc = acc.
Proof.
  unfold bind_events. destruct out_host as [o|]; [|done]. by destruct (decide _).
Qed.

Lemma filter_fresh (acc : list nat) (i : nat) :
  Forall (fun j => j < i) acc -> filter (fun j => j <> i) (acc ++ [i]) = acc.
Proof.
  intros Hacc. rewrite filter_app, filter_cons_False, filter_nil, app_nil_r by (intros H; by apply H).
  induction Hacc as [|j acc Hj _ IH]; [done|].
  rewrite filter_cons_True by lia. by rewrite IH.
Qed.

Lemma connect_loop_spec (out_host : option string) (try : nat -> addrinfo -> attempt)
    (addrs : list addrinfo) (i : nat) (last_exc : option exn) (log : list sock_event)
    (acc : list nat) :
  Forall (fun j => j < i) acc ->
  open_sockets log [] = acc ->
  match connect_loop out_host try addrs i last_exc log with
  | (Ok (k, a), log') =>
      i <= k /\ addrs !! (k - i) = Some a /\ try k a = Connects /\
      (forall j b, j < k - i -> addrs !! j = Some b -> try (i + j) b <> Connects) /\
      open_sockets log' [] = acc ++ [k]
  | (Raise e, log') =>
      (forall j b, addrs !! j = Some b -> try (i + j) b <> Connects) /\
      open_sockets log' [] = acc /\
      Some e = match last addrs with
               | Some b => failure (try (i + (length addrs - 1)) b)
               | None => Some (default OSError last_exc)
               end
  | (OutOfFuel, _) => False
  end.
Proof.
  revert i last_exc log acc.
  induction addrs as [|a rest IH]; intros i last_exc log acc Hacc Hlog; cbn [connect_loop].
  - split; [intros j b Hj; by rewrite lookup_nil in Hj|]. done.
  - assert (Hacc' : Forall (fun j => j < S i) acc).
    { eapply Forall_impl; [exact Hacc|]. intros j Hj. simpl in Hj. lia. }
    destruct (try i a) as [e|e|] eqn:Htry.
    + specialize (IH (S i) (Some e) log acc Hacc' Hlog).
      destruct (connect_loop out_host try rest (S i) (Some e) log) as [[[k b]|e'|] log'];
        [| |done].
      * destruct IH as (Hk & Hb & Hc & Hbefore & Hopen).
        split; [lia|]. split.
        { replace (k - i) with (S (k - S i)) by lia. done. }
        split; [done|]. split; [|done].
        intros j c Hj Hc'. destruct j as [|j].
        -- simpl in Hc'. injection Hc' as <-. rewrite Nat.add_0_r, Htry. done.
        -- replace (i + S j) with (S i + j) by lia. apply Hbefore; [lia|done].
      * destruct IH as (Hnone & Hopen & He).
        split; [|split; [done|]].
        -- intros j c Hc'. destruct j as [|j].
           ++ simpl in Hc'. injection Hc' as <-. rewrite Nat.add_0_r, Htry. done.
           ++ replace (i + S j) with (S i + j) by lia. by apply Hnone.
        -- rewrite He. destruct rest as [|r rest'].
           ++ simpl. by rewrite Nat.add_0_r, Htry.
           ++ change (last (a :: r :: rest')) with (last (r :: rest')).
              destruct (last (r :: rest')) as [b|] eqn:Hl.
              ** do 2 f_equal. simpl. lia.
              ** by apply last_None in Hl.
    + specialize (IH (S i) (Some e)
                    (log ++ Opened i :: bind_events out_host i a ++ [Closed i]) acc Hacc').
      assert (Hlog' : open_sockets
                (log ++ Opened i :: bind_events out_host i a ++ [Closed i]) [] = acc).
      { rewrite open_sockets_app, Hlog. cbn [open_sockets].
        rewrite open_sockets_app, open_sockets_bind. cbn [open_sockets].
        by apply filter_fresh. }
      specialize (IH Hlog').
      destruct (connect_loop out_host try rest (S i) (Some e) _) as [[[k b]|e'|] log'];
        [| |done].
      * destruct IH as (Hk & Hb & Hc & Hbefore & Hopen).
        split; [lia|]. split.
        { replace (k - i) with (S (k - S i)) by lia. done. }
        split; [done|]. split; [|done].
        intros j c Hj Hc'. destruct j as [|j].
        -- simpl in Hc'. injection Hc' as <-. rewrite Nat.add_0_r, Htry. done.
        -- replace (i + S j) with (S i + j) by lia. apply Hbefore; [lia|done].
      * destruct IH as (Hnone & Hopen & He).
        split; [|split; [done|]].
        -- intros j c Hc'. destruct j as [|j].
           ++ simpl in Hc'. injection Hc' as <-. rewrite Nat.add_0_r, Htry. done.
           ++ replace (i + S j) with (S i + j) by lia. by apply Hnone.
        -- rewrite He. destruct rest as [|r rest'].
           ++ simpl. by rewrite Nat.add_0_r, Htry.
           ++ change (last (a :: r :: rest')) with (last (r :: rest')).
              destruct (last (r :: rest')) as [b|] eqn:Hl.
              ** do 2 f_equal. simpl. lia.
              ** by apply last_None in Hl.
    + split; [lia|]. replace (i - i) with 0 by lia. split; [done|].
      split; [done|]. split; [intros j b Hj; lia|].
      rewrite open_sockets_app, Hlog. cbn [open_sockets].
      by rewrite open_sockets_bind.
Qed.

(** X19. [_open_connection] tries the resolved addresses in order and
    returns the first one that connects; every socket it opened for an
    earlier address is closed again, so exactly the returned socket is left
    open. When no address connects no socket is left open and the exception
    raised is that of the last address tried, or [OSError] when the lookup
    gave no address at all. A failed lookup is raised as it is, before any
    socket is made. *)
Theorem open_connection_failover (out_host : option string) (dns_cache : DNSCache.t)
    (now : Z) (getaddrinfo : string -> Z -> result (list addrinfo))
    (try : nat -> addrinfo -> attempt) (host : string) (port : Z) :
  match _open_connection out_host dns_cache now getaddrinfo try host port with
  | (Ok (k, a), dns_cache', log) =>
      exists addrs,
        DNSCache.resolve dns_cache now getaddrinfo host port = Ok (addrs, dns_cache') /\
        addrs !! k = Some a /\ try k a = Connects /\
        (forall j b, j < k -> addrs !! j = Some b -> try j b <> Connects) /\
        open_sockets log [] = [k]
  | (Raise e, dns_cache', log) =>
      open_sockets log [] = [] /\
      ((DNSCache.resolve dns_cache now getaddrinfo host port = Raise e /\
        dns_cache' = dns_cache /\ log = []) \/
       exists addrs,
         DNSCache.resolve dns_cache now getaddrinfo host port = Ok (addrs, dns_cache') /\
         (forall j b, addrs !! j = Some b -> try j b <> Connects) /\
         Some e = match last addrs with
                  | Some b => failure (try (length addrs - 1) b)
                  | None => Some OSError
                  end)
  | (OutOfFuel, _, _) =>
      DNSCache.resolve dns_cache now getaddrinfo host port = OutOfFuel
  end.
Proof.
  unfold _open_connection.
  destruct (DNSCache.resolve dns_cache now getaddrinfo host port)
    as [[addrs c']|e|] eqn:Hres; [|by split; [|left]|done].
  pose proof (connect_loop_spec out_host try addrs 0 None [] []
                (Forall_nil_2 _) eq_refl) as Hloop.
  destruct (connect_loop out_host try addrs 0 None []) as [[[k a]|e|] log]; [| |done].
  - destruct Hloop as (_ & Ha & Hc & Hbefore & Hopen).
    rewrite Nat.sub_0_r in Ha, Hbefore.
    exists addrs. split; [done|]. split; [done|]. split; [done|]. split; [|done].
    intros j b Hj Hb. by apply (Hbefore j b).
  - destruct Hloop as (Hnone & Hopen & He).
    split; [done|]. right. exists addrs. split; [done|]. split; [|done].
    intros j b Hb. by apply (Hnone j b).
Qed.

(** ** blacklist.py: loose matching and the loaded list *)

Lemma find_at_is_Some {A : Type} `{EqDecision A} (sub l : list A) (i : nat) :
  is_Some (find_at sub l i) <-> exists p s, l = p ++ sub ++ s.
Proof.
  revert i. induction l as [|a l IH]; intros i; simpl.
  - destruct (starts_with sub []) eqn:Hs.
    + split; [|by eauto]. intros _. apply starts_with_spec in Hs as [r Hr].
      by exists [], r.
    + split; [by intros [? ?]|]. intros (p & s & Hl).
      destruct p; [|done]. simpl in Hl.
      assert (starts_with sub [] = true) as Ht by (apply starts_with_spec; eauto).
      congruence.
  - destruct (starts_with sub (a :: l)) eqn:Hs.
    + split; [|by eauto]. intros _. apply starts_with_spec in Hs as [r Hr].
      by exists [], r.
    + rewrite IH. split.
      * intros (p & s & ->). by exists (a :: p), s.
      * intros (p & s & Hl). destruct p as [|b p].
        -- simpl in Hl.
           assert (starts_with sub (a :: l) = true) as Ht
             by (apply starts_with_spec; eauto).
           congruence.
        -- injection Hl as _ ->. eauto.
Qed.

Lemma contains_spec (sub s : string) : Str.contains sub s = true <-> occurs_in sub s.
Proof.
  unfold Str.contains, find_from, occurs_in. rewrite bool_decide_eq_true, drop_0.
  rewrite find_at_is_Some. split.
  - intros (p & r & H). exists (Str.of_chars p), (Str.of_chars r). apply chars_inj.
    by rewrite !chars_app, !chars_of_chars.
  - intros (pre & post & ->). exists (Str.chars pre), (Str.chars post).
    by rewrite !chars_app.
Qed.

(** X20. With [domain_matching] set to "loose" a domain is blocked exactly
    when some entry of the blacklist occurs anywhere in it (after every
    "www." has been taken out of the domain): matching is by substring, and
    the exact and parent-domain tests that follow add nothing. An empty
    entry therefore blocks every domain. *)
Theorem loose_blocks_substrings (self : FileBlacklistManager.t) (domain : string) :
  FileBlacklistManager.domain_matching self = "loose" ->
  (FileBlacklistManager.is_blocked self domain = true <->
   exists bd, bd ∈ FileBlacklistManager._blocked_set self /\
              occurs_in bd (Str.replace domain "www." "")) /\
  ("" ∈ FileBlacklistManager._blocked_set self ->
   FileBlacklistManager.is_blocked self domain = true).
Proof.
  intros Hloose.
  assert (Hiff : FileBlacklistManager.is_blocked self domain = true <->
    exists bd, bd ∈ FileBlacklistManager._blocked_set self /\
               occurs_in bd (Str.replace domain "www." "")).
  { unfold FileBlacklistManager.is_blocked.
    rewrite (bool_decide_eq_true_2 _ Hloose). cbn [andb].
    set (d := Str.replace domain "www." "").
    destruct (existsb _ _) eqn:Hex.
    - split; [intros _|done]. apply existsb_exists in Hex as (bd & Hin & Hc).
      exists bd. split; [|by apply contains_spec].
      apply elem_of_elements. by apply list_elem_of_In.
    - assert (Hnone : forall bd, bd ∈ FileBlacklistManager._blocked_set self ->
                                 ~ occurs_in bd d).
      { intros bd Hbd Hocc. apply contains_spec in Hocc.
        assert (existsb (fun bd => Str.contains bd d)
                  (elements (FileBlacklistManager._blocked_set self)) = true) as Ht.
        { apply existsb_exists. exists bd. split; [|done].
          apply list_elem_of_In. by apply elem_of_elements. }
        congruence. }
      split; [|intros (bd & Hbd & Hocc); by destruct (Hnone bd Hbd)].
      destruct (bool_decide (d ∈ FileBlacklistManager._blocked_set self)) eqn:Hd.
      + intros _. apply bool_decide_eq_true in Hd. destruct (Hnone d Hd).
        exists "", "". apply chars_inj. by rewrite !chars_app, app_nil_r.
      + intros Hsuf. apply existsb_exists in Hsuf as (i & Hi & Hv).
        apply bool_decide_eq_true in Hv.
        destruct (Hnone _ Hv).
        assert (Hp : Str.join "." (drop i (Str.split d ".")) ∈ parent_suffixes d).
        { unfold parent_suffixes. apply list_elem_of_fmap. exists i.
          split; [done|]. by apply list_elem_of_In. }
        apply parent_suffixes_spec in Hp as [u Hu].
        exists (u +:+ "."), "". apply chars_inj. rewrite Hu at 1.
        by rewrite !chars_app, app_nil_r, app_assoc. }
  split; [exact Hiff|].
  intros Hempty. apply Hiff. exists "". split; [done|].
  exists "", (Str.replace domain "www." ""). done.
Qed.

Lemma load_line_entry (self : FileBlacklistManager.t) (line : string) :
  FileBlacklistManager.load_line self line =
  match entry line with
  | Some d => FileBlacklistManager.mk (FileBlacklistManager.domain_matching self)
                (FileBlacklistManager.blocked self ++ [d])
                ({[ d ]} ∪ FileBlacklistManager._blocked_set self)
  | None => self
  end.
Proof.
  unfold FileBlacklistManager.load_line, entry.
  destruct (decide _); [done|]. by destruct (Str.startswith _ _).
Qed.

(** X21. [load_blacklist] keeps, in the order of the file, one entry for
    every line that has at least two characters once stripped and that does
    not begin with [#]: the stripped line in lower case with every "www."
    taken out. The list [blocked] holds them with their repetitions, the
    set [_blocked_set] holds the same strings, and nothing else. *)
Theorem load_blacklist_entries (matching : string) (lines : list string) :
  let self := FileBlacklistManager.load_blacklist matching lines in
  FileBlacklistManager.blocked self = omap entry lines /\
  FileBlacklistManager._blocked_set self = list_to_set (omap entry lines) /\
  FileBlacklistManager.domain_matching self = matching /\
  forall d, d ∈ FileBlacklistManager.blocked self <->
            d ∈ FileBlacklistManager._blocked_set self.
Proof.
  assert (Hgen : forall acc,
    let self := fold_left FileBlacklistManager.load_line lines acc in
    FileBlacklistManager.blocked self
      = FileBlacklistManager.blocked acc ++ omap entry lines /\
    FileBlacklistManager._blocked_set self
      = FileBlacklistManager._blocked_set acc ∪ list_to_set (omap entry lines) /\
    FileBlacklistManager.domain_matching self
      = FileBlacklistManager.domain_matching acc).
  { induction lines as [|l lines IH]; intros acc; cbn [fold_left].
    - cbn [omap list_omap list_to_set]. rewrite app_nil_r. split; [done|]. split; [|done].
      apply set_eq. intros x. set_solver.
    - destruct (IH (FileBlacklistManager.load_line acc l)) as (Hb & Hs & Hm).
      cbv zeta. rewrite Hb, Hs, Hm, load_line_entry.
      change (omap entry (l :: lines))
        with (match entry l with
              | Some y => y :: omap entry lines
              | None => omap entry lines
              end).
      destruct (entry l) as [d|]; cbn.
      + rewrite <- app_assoc. split; [done|]. split; [|done].
        apply set_eq. intros x. set_solver.
      + done. }
  destruct (Hgen (FileBlacklistManager.mk matching [] ∅)) as (Hb & Hs & Hm).
  cbv zeta in *. unfold FileBlacklistManager.load_blacklist.
  rewrite Hb, Hs, Hm. cbn.
  split; [done|]. split; [apply set_eq; intros x; set_solver|]. split; [done|].
  intros d. rewrite elem_of_union, elem_of_list_to_set. set_solver.
Qed.

(** ** blacklist.py: the file of the adaptive manager *)

Lemma line_of_inj (a b : string) : line_of a = line_of b -> a = b.
Proof.
  unfold line_of. intros H. apply chars_inj.
  assert (Hc : Str.chars a ++ Str.chars (String "010"%char "")
               = Str.chars b ++ Str.chars (String "010"%char "")).
  { by rewrite <- !chars_app, H. }
  by apply app_inv_tail in Hc.
Qed.

Lemma classify_file_sound (m : AutoBlacklistManager.t) (dec : string)
    (o : probe_outcome) (file_ok : bool) :
  dec ∉ AutoBlacklistManager._blocked_set m ->
  file_sound m -> file_sound (AutoBlacklistManager.classify m dec o file_ok).
Proof.
  intros Hnew [Hnd Hlines]. unfold AutoBlacklistManager.classify.
  destruct o as [|r|]; [done| |done].
  destruct (Str.contains _ _); [|done].
  split; cbn [AutoBlacklistManager.blacklist_file AutoBlacklistManager._blocked_set].
  - destruct file_ok; [|done]. apply NoDup_app. split; [done|].
    split; [|apply NoDup_singleton].
    intros line Hin Hline. apply list_elem_of_singleton in Hline as ->.
    destruct (Hlines _ Hin) as (dec' & Hdec' & Heq).
    apply line_of_inj in Heq as <-. done.
  - intros line Hin.
    assert (Hcases : line ∈ AutoBlacklistManager.blacklist_file m \/ line = line_of dec).
    { destruct file_ok; [|by left].
      apply elem_of_app in Hin as [Hin|Hin]; [by left|].
      right. by apply list_elem_of_singleton in Hin. }
    destruct Hcases as [Hold| ->].
    + destruct (Hlines _ Hold) as (dec' & Hdec' & Heq). exists dec'.
      split; [set_solver|done].
    + exists dec. split; [set_solver|done].
Qed.

Lemma classify_file_complete (m : AutoBlacklistManager.t) (dec : string)
    (o : probe_outcome) :
  file_complete m -> file_complete (AutoBlacklistManager.classify m dec o true).
Proof.
  intros Hc. unfold AutoBlacklistManager.classify.
  destruct o as [|r|]; [done| |done].
  destruct (Str.contains _ _); [|done].
  intros d. cbn [AutoBlacklistManager.blacklist_file AutoBlacklistManager._blocked_set].
  rewrite elem_of_union, elem_of_singleton, elem_of_app, list_elem_of_singleton.
  intros [->|Hd]; [by right|left; by apply Hc].
Qed.

Lemma run_file_sound (tr : list AutoBlacklistManager.event) (s : AutoBlacklistManager.oracle) :
  consistent s -> no_overlap s tr ->
  file_sound (AutoBlacklistManager.manager s) ->
  file_sound (AutoBlacklistManager.manager (AutoBlacklistManager.run s tr)).
Proof.
  revert s. induction tr as [|e tr IH]; intros s Hcons Hno Hfile; [done|].
  destruct Hno as [He Hno]. cbn [AutoBlacklistManager.run fold_left].
  apply IH; [by apply step_consistent|done|].
  destruct e as [task dec|task o file_ok]; cbn [AutoBlacklistManager.step].
  - destruct (AutoBlacklistManager.awaiting s !! task); [done|].
    by destruct (AutoBlacklistManager.known _ _).
  - destruct (AutoBlacklistManager.awaiting s !! task) as [dec|] eqn:Haw; [|done].
    cbn [AutoBlacklistManager.manager]. apply classify_file_sound; [|done].
    destruct Hcons as (_ & Hunknown & _).
    apply Hunknown in Haw. by apply known_false in Haw as [? _].
Qed.

Lemma run_file_complete (tr : list AutoBlacklistManager.event) (s : AutoBlacklistManager.oracle) :
  file_writable tr ->
  file_complete (AutoBlacklistManager.manager s) ->
  file_complete (AutoBlacklistManager.manager (AutoBlacklistManager.run s tr)).
Proof.
  revert s. induction tr as [|e tr IH]; intros s Hw Hfile; [done|].
  cbn [AutoBlacklistManager.run fold_left].
  apply IH.
  { intros task o file_ok Hin. apply (Hw task o). by right. }
  destruct e as [task dec|task o file_ok]; cbn [AutoBlacklistManager.step].
  - destruct (AutoBlacklistManager.awaiting s !! task); [done|].
    by destruct (AutoBlacklistManager.known _ _).
  - destruct (AutoBlacklistManager.awaiting s !! task) as [dec|] eqn:Haw; [|done].
    cbn [AutoBlacklistManager.manager].
    rewrite (Hw task o file_ok) by left.
    by apply classify_file_complete.
Qed.

(** X22. As long as no two probes of one domain overlap, the adaptive
    manager never appends a domain to the blacklist file twice: the lines it
    has appended are distinct, and each is a blocked domain followed by a
    line feed. When every append went through, the file has a line for
    every blocked domain. *)
Theorem adaptive_file_lines (tr : list AutoBlacklistManager.event) :
  no_overlap init_oracle tr ->
  let m := AutoBlacklistManager.manager (AutoBlacklistManager.run init_oracle tr) in
  NoDup (AutoBlacklistManager.blacklist_file m) /\
  (forall line, line ∈ AutoBlacklistManager.blacklist_file m ->
     exists dec, dec ∈ AutoBlacklistManager._blocked_set m /\ line = line_of dec) /\
  (file_writable tr ->
   forall dec, dec ∈ AutoBlacklistManager._blocked_set m ->
     line_of dec ∈ AutoBlacklistManager.blacklist_file m).
Proof.
  intros Hno m.
  assert (Hsound : file_sound m).
  { apply run_file_sound; [apply init_oracle_consistent|done|].
    split; [apply NoDup_nil_2|]. intros line Hin. by apply elem_of_nil in Hin. }
  destruct Hsound as [Hnd Hlines].
  split; [done|]. split; [done|].
  intros Hw. apply run_file_complete; [done|].
  intros dec Hdec. by apply elem_of_empty in Hdec.
Qed.

Lemma adaptive_file_lines_witness :
  let timed_out := ProbeURLError (Some "_ssl.c:1000: The handshake operation timed out") in
  let tr := sequential [(1, "d.test", timed_out, true); (2, "d.test", timed_out, true)] in
  let m := AutoBlacklistManager.manager (AutoBlacklistManager.run init_oracle tr) in
  NoDup (AutoBlacklistManager.blacklist_file m) /\
  (forall line, line ∈ AutoBlacklistManager.blacklist_file m ->
     exists dec, dec ∈ AutoBlacklistManager._blocked_set m /\ line = line_of dec) /\
  (file_writable tr ->
   forall dec, dec ∈ AutoBlacklistManager._blocked_set m ->
     line_of dec ∈ AutoBlacklistManager.blacklist_file m).
Proof.
  apply (adaptive_file_lines
           (sequential
              [(1, "d.test",
                ProbeURLError (Some "_ssl.c:1000: The handshake operation timed out"), true);
               (2, "d.test",
                ProbeURLError (Some "_ssl.c:1000: The handshake operation timed out"), true)])).
  apply sequential_no_overlap. reflexivity.
Defined.

Lemma loose_blocks_substrings_witness :
  let self := FileBlacklistManager.load_blacklist "loose" ["t.co"] in
  (FileBlacklistManager.is_blocked self "microsoft.com" = true <->
   exists bd, bd ∈ FileBlacklistManager._blocked_set self /\
              occurs_in bd (Str.replace "microsoft.com" "www." "")) /\
  ("" ∈ FileBlacklistManager._blocked_set self ->
   FileBlacklistManager.is_blocked self "microsoft.com" = true).
Proof.
  apply (loose_blocks_substrings (FileBlacklistManager.load_blacklist "loose" ["t.co"])
           "microsoft.com").
  reflexivity.
Defined.
